(** * Bracket City: puzzle state machine and scoring engine

    A shallow embedding of the puzzle engine of [solve-puzzle.ts]: the two
    bracket scanners ([findActiveClues], [findAvailableExpressions]), the three
    actions ([makeGuess], [getHint], [revealClue]), the scoring functions
    ([getScoreConfig], [calculateScore], [calculateRank]) and the assembly of
    the run result at the end of [solvePuzzleWithLLM].

    Modelling conventions.
    - A JavaScript string is a sequence of UTF-16 code units.  The records
      keep them as [string]; the scanners work on the list of code units
      ([chars]).  Code units range over U+0000..U+00FF, the 256 values of
      [ascii]; [toLowerCase] and [trim] are given on that whole range.
    - A cursor [i] into a string [str] is kept together with the text still to
      be read, [str.substring(i)].
    - [Set<string>] is [gset string].  The answer key, a
      [Record<string, string>] made by [JSON.parse], is kept as the
      [gmap string string] of its own entries, whose values are strings as
      the type of the record says; reading [solutions[key]] goes through
      [getSolution], which falls back on the members of [Object.prototype]
      as the language does ([undefined] is [None]).
    - A call that throws is a [Throw] of [Completion].  The text of a
      built-in function depends on the engine that runs the program
      ([Engine]); it matters to [revealClue] only, which can put such a text
      into the document.
    - Counters and scores are integers ([Z]); array offsets are [nat].
    - A [while] loop whose cursor jumps, and the recursion of [findClues] on
      freshly built text, are driven by a fuel argument; the lemmas
      [findClues_fuel] and [execLoop_fuel] show that the fuel handed over by
      the callers is always enough. *)

From Stdlib Require Import ZArith Ascii String List Lia Bool.
From stdpp Require Import base tactics option list sorting strings gmap.

(** ** JavaScript string primitives *)

Module JS.

Definition chars (s : string) : list ascii := list_ascii_of_string s.
Definition str (l : list ascii) : string := string_of_list_ascii l.

(** [s.slice(a, b)] for [0 <= a] and [0 <= b]. *)
Definition slice (s : string) (a b : nat) : string :=
  str (take (b - a) (drop a (chars s))).

(** [s.slice(a)] for [0 <= a]. *)
Definition sliceFrom (s : string) (a : nat) : string :=
  str (drop a (chars s)).

(** [s.charAt(0)]: the first code unit, or the empty string. *)
Definition charAt0 (s : string) : string :=
  match s with
  | EmptyString => EmptyString
  | String c _ => String c EmptyString
  end.

(** Truthiness of a string value: only the empty string is falsy. *)
Definition truthy (s : string) : bool :=
  match s with
  | EmptyString => false
  | String _ _ => true
  end.

(** [toLowerCase] on one code unit: A-Z, and U+00C0..U+00DE but U+00D7. *)
Definition lowerChar (c : ascii) : ascii :=
  let n := nat_of_ascii c in
  if (65 <=? n) && (n <=? 90) then ascii_of_nat (n + 32)
  else if (192 <=? n) && (n <=? 222) && negb (n =? 215) then ascii_of_nat (n + 32)
  else c.

Definition toLowerCase (s : string) : string :=
  str (map lowerChar (chars s)).

(** White space and line terminators removed by [trim]: TAB, LF, VT, FF, CR,
    SP and NBSP. *)
Definition isSpace (c : ascii) : bool :=
  let n := nat_of_ascii c in
  ((9 <=? n) && (n <=? 13)) || (n =? 32) || (n =? 160).

Fixpoint trimStart (l : list ascii) : list ascii :=
  match l with
  | c :: l' => if isSpace c then trimStart l' else l
  | [] => []
  end.

Definition trimEnd (l : list ascii) : list ascii :=
  rev (trimStart (rev l)).

Definition trim (s : string) : string :=
  str (trimEnd (trimStart (chars s))).

(** The double quote, for the template literals of the messages. *)
Definition dq : string := String (ascii_of_nat 34) EmptyString.

End JS.

(** ** Types *)

Record Clue := mkClue {
  start : nat;
  end_ : nat;
  text : string;
  expression : string
}.

Record Expression := mkExpression {
  expr_expression : string;
  startIndex : nat;
  endIndex : nat
}.

Record GameState := mkGameState {
  displayState : string;
  solvedExpressions : gset string;
  hintedExpressions : gset string;
  revealedExpressions : gset string;
  activeClues : list Clue;
  totalClues : nat
}.

Record PuzzleData := mkPuzzleData {
  completionText : string;
  puzzleDate : string;
  completionURL : string;
  solutions : gmap string string;
  initialPuzzle : string;
  puzzleSolution : string
}.

(** ** The recursive scanner *)

Definition isOpen (c : ascii) : bool := Ascii.eqb c "["%char.
Definition isClose (c : ascii) : bool := Ascii.eqb c "]"%char.

(** State of the inner [while (i < str.length && bracketCount > 0)] loop when
    it stops. *)
Record SpanScan := mkSpanScan {
  ss_rest : list ascii;          (* str.substring(i) *)
  ss_i : nat;
  ss_bracketCount : nat;
  ss_hasNestedBrackets : bool;
  ss_innerContent : list ascii
}.

Fixpoint scanSpan (rest : list ascii) (i bracketCount : nat)
    (hasNestedBrackets : bool) (innerContent : list ascii) : SpanScan :=
  match rest, bracketCount with
  | c :: rest', S below =>
      if isOpen c then
        scanSpan rest' (S i) (S bracketCount) true (innerContent ++ [c])
      else if isClose c then
        scanSpan rest' (S i) below hasNestedBrackets (innerContent ++ [c])
      else
        scanSpan rest' (S i) bracketCount hasNestedBrackets (innerContent ++ [c])
  | _, _ => mkSpanScan rest i bracketCount hasNestedBrackets innerContent
  end.

(** [innerContent.slice(0, -1)] *)
Definition dropLast (l : list ascii) : list ascii := take (length l - 1) l.

(** The body of [findClues(str, startOffset)] from cursor [i] on, with
    [rest = str.substring(i)]; [activeClues] is the array of the enclosing
    [findActiveClues], threaded through.  [None] only when the fuel runs out. *)
Fixpoint findClues (fuel : nat) (str rest : list ascii) (i startOffset : nat)
    (activeClues : list Clue) : option (list Clue) :=
  match fuel with
  | 0 => None
  | S fuel' =>
      match rest with
      | [] => Some activeClues
      | c :: rest' =>
          if isOpen c then
            let startIndex := i in
            let sc := scanSpan rest' (S i) 1 false [] in
            let innerContent := dropLast (ss_innerContent sc) in
            if negb (ss_hasNestedBrackets sc) then
              findClues fuel' str (ss_rest sc) (ss_i sc) startOffset
                (activeClues ++
                   [ {| start := startOffset + startIndex;
                        end_ := startOffset + ss_i sc;
                        text :=
                          JS.str (take (ss_i sc - startIndex) (drop startIndex str));
                        expression := JS.str innerContent |} ])
            else
              match findClues fuel' innerContent innerContent 0
                      (startOffset + startIndex + 1) activeClues with
              | Some activeClues' =>
                  findClues fuel' str (ss_rest sc) (ss_i sc) startOffset activeClues'
              | None => None
              end
          else findClues fuel' str rest' (S i) startOffset activeClues
      end
  end.

(** [findActiveClues(puzzleText)].  The fuel handed over is enough for every
    text ([findClues_fuel]), so [findActiveClues] is the array returned. *)
Definition findActiveClues_opt (puzzleText : string) : option (list Clue) :=
  let str := JS.chars puzzleText in
  findClues (S (length str)) str str 0 0 [].

Definition findActiveClues (puzzleText : string) : list Clue :=
  default [] (findActiveClues_opt puzzleText).

(** ** The regular-expression scanner *)

Definition isBracket (c : ascii) : bool := isOpen c || isClose c.

(** The longest prefix of code units in the class [[^\[\]]], and what
    follows it. *)
Fixpoint spanClass (l : list ascii) : list ascii * list ascii :=
  match l with
  | c :: l' =>
      if isBracket c then ([], l)
      else let '(body, tl) := spanClass l' in (c :: body, tl)
  | [] => ([], [])
  end.

(** A match of [/\[([^\[\]]+?)\]/] anchored at the head of [s]: the capture
    group and the text after the match.  As the class excludes the closing
    bracket, the lazy [+?] can only stop at the end of the longest run. *)
Definition matchHere (s : list ascii) : option (list ascii * list ascii) :=
  match s with
  | c :: s' =>
      if isOpen c then
        match spanClass s' with
        | (b :: body, c' :: tl) =>
            if isClose c' then Some (b :: body, tl) else None
        | _ => None
        end
      else None
  | [] => None
  end.

Record RegexMatch := mkRegexMatch {
  m_index : nat;                 (* match.index *)
  m_group : list ascii;          (* match[1] *)
  m_length : nat;                (* match[0].length *)
  m_rest : list ascii            (* the input from regex.lastIndex on *)
}.

(** [regex.exec(s)] with [lastIndex = pos], [rest] being the input from
    [lastIndex] on: the leftmost match at or after [lastIndex]. *)
Fixpoint exec (rest : list ascii) (pos : nat) : option RegexMatch :=
  match matchHere rest with
  | Some (group, tl) => Some (mkRegexMatch pos group (length group + 2) tl)
  | None =>
      match rest with
      | _ :: rest' => exec rest' (S pos)
      | [] => None
      end
  end.

(** The [while ((match = regex.exec(...)) !== null)] loop. *)
Fixpoint execLoop (fuel : nat) (rest : list ascii) (lastIndex : nat)
    (matchedPositions : gset nat) (results : list Expression)
    : option (list Expression) :=
  match fuel with
  | 0 => None
  | S fuel' =>
      match exec rest lastIndex with
      | None => Some results
      | Some m =>
          let startIdx := m_index m in
          let endIdx := startIdx + m_length m in
          if negb (bool_decide (startIdx ∈ matchedPositions)) then
            execLoop fuel' (m_rest m) endIdx ({[startIdx]} ∪ matchedPositions)
              (results ++ [ {| expr_expression := JS.str (m_group m);
                               startIndex := startIdx;
                               endIndex := endIdx |} ])
          else execLoop fuel' (m_rest m) endIdx matchedPositions results
      end
  end.

(** [findAvailableExpressions(gameState)], which reads [displayState] only.
    Again the fuel is enough for every text ([execLoop_fuel]). *)
Definition scanExpressions_opt (s : string) : option (list Expression) :=
  let l := JS.chars s in
  execLoop (S (length l)) l 0 ∅ [].

Definition findAvailableExpressions (gameState : GameState) : list Expression :=
  default [] (scanExpressions_opt (displayState gameState)).

(** ** Game state *)

Definition initializeGameState (puzzleData : PuzzleData) : GameState :=
  {| displayState := initialPuzzle puzzleData;
     solvedExpressions := ∅;
     hintedExpressions := ∅;
     revealedExpressions := ∅;
     activeClues := findActiveClues (initialPuzzle puzzleData);
     totalClues := size (solutions puzzleData) |}.

(** ** Scoring *)

Record ScoreConfig := mkScoreConfig {
  cfg_peekPenalty : Z;
  cfg_megaPeekPenalty : Z;
  cfg_wrongGuessPenalty : Z;
  rankThresholds : list (string * Z)     (* in the order of Object.entries *)
}.

Record ScoreDetails := mkScoreDetails {
  baseScore : Z;
  peekPenalty : Z;
  megaPeekPenalty : Z;
  wrongGuessPenalty : Z;
  totalPenalty : Z;
  finalScore : Z;
  rank : string;
  nextRankName : option string;
  pointsToNextRank : Z
}.

Record Stats := mkStats {
  guesses : Z;
  correctGuesses : Z;
  stats_totalClues : Z;
  hints : Z;
  reveals : Z;
  stepsTaken : Z
}.

Definition getScoreConfig : ScoreConfig :=
  {| cfg_peekPenalty := 5;
     cfg_megaPeekPenalty := 15;
     cfg_wrongGuessPenalty := 2;
     rankThresholds :=
       [ ("Tourist", 0); ("Commuter", 11); ("Resident", 21);
         ("Council Member", 31); ("Chief of Police", 51); ("Mayor", 68);
         ("Power Broker", 79); ("Kingmaker", 91); ("Puppet Master", 100) ]%Z |}.

(** [Array.prototype.sort] with a comparator: a stable sort that puts [a]
    before [b] when [cmp a b <= 0]. *)
Section Sort.

Context {A : Type} (cmp : A -> A -> Z).

Fixpoint sortInsert (x : A) (l : list A) : list A :=
  match l with
  | [] => [x]
  | y :: l' => if (cmp x y <=? 0)%Z then x :: l else y :: sortInsert x l'
  end.

Definition sortBy (l : list A) : list A := foldr sortInsert [] l.

End Sort.

(** [Array.prototype.findIndex]: the first index satisfying [p], else -1. *)
Fixpoint findIndex {A : Type} (p : A -> bool) (l : list A) : Z :=
  match l with
  | [] => (-1)%Z
  | x :: l' =>
      if p x then 0%Z
      else let k := findIndex p l' in if (k <? 0)%Z then (-1)%Z else (k + 1)%Z
  end.

(** [arr[k]] for an integer [k]: [undefined] out of range. *)
Definition at_ {A : Type} (l : list A) (k : Z) : option A :=
  if (k <? 0)%Z then None else l !! Z.to_nat k.

Definition calculateRank (finalScore peekCount megaPeekCount wrongGuessCount : Z)
    : string :=
  let config := getScoreConfig in
  let isPerfect := (finalScore =? 100)%Z in
  let isNoHelp :=
    (peekCount =? 0)%Z && (megaPeekCount =? 0)%Z && (wrongGuessCount =? 0)%Z in
  if isPerfect && isNoHelp then "Puppet Master"
  else
    let ranks := sortBy (fun a b => (b.2 - a.2)%Z) (rankThresholds config) in
    match List.find (fun '(_, threshold) => (finalScore >=? threshold)%Z) ranks with
    | Some rank => rank.1
    | None => "Tourist"
    end.

Definition calculateScore (gameState : GameState) (stats : Stats) : ScoreDetails :=
  let config := getScoreConfig in
  let peekCount := Z.max 0 (Z.of_nat (size (hintedExpressions gameState))) in
  let megaPeekCount := Z.max 0 (Z.of_nat (size (revealedExpressions gameState))) in
  let wrongGuessCount := Z.max 0 (guesses stats - correctGuesses stats) in
  let peekPenalty := (peekCount * cfg_peekPenalty config)%Z in
  let megaPeekPenalty := (megaPeekCount * cfg_megaPeekPenalty config)%Z in
  let wrongGuessPenalty := (wrongGuessCount * cfg_wrongGuessPenalty config)%Z in
  let baseScore := 100%Z in
  let totalPenalty := (peekPenalty + megaPeekPenalty + wrongGuessPenalty)%Z in
  let finalScore := Z.min 100 (Z.max 0 (baseScore - totalPenalty)) in
  let rank := calculateRank finalScore peekCount megaPeekCount wrongGuessCount in
  let ranks := sortBy (fun a b => (a.2 - b.2)%Z) (rankThresholds config) in
  let currentRankIndex := findIndex (fun r => bool_decide (r.1 = rank)) ranks in
  let nextRank :=
    if (currentRankIndex <? Z.of_nat (length ranks) - 1)%Z
    then at_ ranks (currentRankIndex + 1)
    else None in
  let pointsToNextRank :=
    match nextRank with
    | Some nr => Z.max 0 (nr.2 - finalScore)
    | None => 0%Z
    end in
  {| baseScore := baseScore;
     peekPenalty := peekPenalty;
     megaPeekPenalty := megaPeekPenalty;
     wrongGuessPenalty := wrongGuessPenalty;
     totalPenalty := totalPenalty;
     finalScore := finalScore;
     rank := rank;
     nextRankName := fst <$> nextRank;
     pointsToNextRank := pointsToNextRank   (* Math.ceil of an integer *) |}.

(** ** Values read from the answer key *)

(** What [puzzleData.solutions[key]] evaluates to.  The answer key is a plain
    object: a key of its own holds a string (the type of the record), any
    other key is looked up on [Object.prototype]. *)
Inductive JSValue :=
  | VString (s : string)
  | VFunction (name : string)    (* a built-in function, by its [name] *)
  | VPrototype.                  (* [Object.prototype] itself *)

(** The members of [Object.prototype]: the constructor [Object], the
    accessor [__proto__], which yields the prototype of the answer key, and
    the built-in methods, each named as its key. *)
Definition objectPrototype (key : string) : option JSValue :=
  if String.eqb key "constructor" then Some (VFunction "Object")
  else if String.eqb key "__proto__" then Some VPrototype
  else if existsb (String.eqb key)
            [ "__defineGetter__"; "__defineSetter__"; "__lookupGetter__";
              "__lookupSetter__"; "hasOwnProperty"; "isPrototypeOf";
              "propertyIsEnumerable"; "toLocaleString"; "toString"; "valueOf" ]
  then Some (VFunction key)
  else None.

(** [solutions[key]]: the entry of the key itself, else the member of
    [Object.prototype], else [undefined]. *)
Definition getSolution (solutions : gmap string string) (key : string)
    : option JSValue :=
  match solutions !! key with
  | Some s => Some (VString s)
  | None => objectPrototype key
  end.

(** Truthiness: a string unless empty, and every object. *)
Definition truthyValue (v : JSValue) : bool :=
  match v with
  | VString s => JS.truthy s
  | VFunction _ | VPrototype => true
  end.

(** The engine that runs the program: V8 (Node.js, Deno) or JavaScriptCore
    (Bun).  They differ in the white space of the text they give for a
    built-in function. *)
Inductive Engine := V8 | JavaScriptCore.

Definition lf : string := String (ascii_of_nat 10) EmptyString.

(** [Function.prototype.toString] on the built-in function [name]. *)
Definition nativeFunctionText (engine : Engine) (name : string) : string :=
  match engine with
  | V8 => "function " +:+ name +:+ "() { [native code] }"
  | JavaScriptCore =>
      "function " +:+ name +:+ "() {" +:+ lf +:+ "    [native code]" +:+ lf +:+ "}"
  end.

(** The string a value is converted to when it is concatenated with a
    string or put into a template literal. *)
Definition valueText (engine : Engine) (v : JSValue) : string :=
  match v with
  | VString s => s
  | VFunction name => nativeFunctionText engine name
  | VPrototype => "[object Object]"
  end.

(** How a call ends: it returns a value, or it throws (here always the
    [TypeError] of calling a method that the value does not have). *)
Inductive Completion (A : Type) :=
  | Return (a : A)
  | Throw.

Arguments Return {A} a.
Arguments Throw {A}.

(** ** Actions *)

Module GuessResult.

Record t := mk { success : bool; message : string; gameState : GameState }.

End GuessResult.

Module HintResult.

Record t := mk {
  success : bool; hint : option string; message : string; gameState : GameState
}.

End HintResult.

Module RevealResult.

Record t := mk {
  success : bool; solution : option JSValue; message : string;
  gameState : GameState
}.

End RevealResult.

(** The text of [gameState.displayState] with the window of [expr] replaced
    by [solution]. *)
Definition splice (gameState : GameState) (expr : Expression) (solution : string)
    : string :=
  JS.slice (displayState gameState) 0 (startIndex expr) +:+
  solution +:+
  JS.sliceFrom (displayState gameState) (endIndex expr).

(** The condition of the matching loop:
    [solution && guess.toLowerCase().trim() === solution.toLowerCase().trim()].
    A string has the method [toLowerCase]; a function or [Object.prototype]
    is truthy and has not, so the call throws. *)
Definition guessMatches (guess : string) (solution : option JSValue)
    : Completion bool :=
  match solution with
  | None => Return false
  | Some (VString solution) =>
      Return
        (JS.truthy solution &&
         bool_decide
           (JS.trim (JS.toLowerCase guess) = JS.trim (JS.toLowerCase solution)))
  | Some (VFunction _) | Some VPrototype => Throw
  end.

Arguments guessMatches : simpl never.

(** The [for (const expr of availableExpressions)] loop of [makeGuess];
    [Return (Some _)] is its early [return], [Return None] means it ran to
    the end. *)
Fixpoint guessLoop (availableExpressions : list Expression) (guess : string)
    (gameState : GameState) (puzzleData : PuzzleData)
    : Completion (option GuessResult.t) :=
  match availableExpressions with
  | [] => Return None
  | expr :: more =>
      let currentExpression := expr_expression expr in
      let solution := getSolution (solutions puzzleData) currentExpression in
      match guessMatches guess solution with
      | Throw => Throw
      | Return true =>
          let solution :=
            match solution with Some (VString s) => s | _ => EmptyString end in
          let newDisplayState := splice gameState expr solution in
          let updatedGameState :=
            {| displayState := newDisplayState;
               solvedExpressions := solvedExpressions gameState ∪ {[currentExpression]};
               hintedExpressions := hintedExpressions gameState;
               revealedExpressions := revealedExpressions gameState;
               activeClues := findActiveClues newDisplayState;
               totalClues := totalClues gameState |} in
          Return
            (Some {| GuessResult.success := true;
                     GuessResult.message :=
                       "Correct! " +:+ JS.dq +:+ currentExpression +:+ JS.dq +:+
                       " = " +:+ JS.dq +:+ solution +:+ JS.dq;
                     GuessResult.gameState := updatedGameState |})
      | Return false => guessLoop more guess gameState puzzleData
      end
  end.

Definition findExpression (availableExpressions : list Expression)
    (expression : string) : option Expression :=
  List.find (fun e => bool_decide (expr_expression e = expression))
    availableExpressions.

Definition noActiveClueMessage (expression : string) : string :=
  "No active bracketed clue found for " +:+ JS.dq +:+ expression +:+ JS.dq +:+ ".".

Definition noSolutionMessage (expression : string) : string :=
  "No solution found for clue " +:+ JS.dq +:+ expression +:+ JS.dq +:+ ".".

(** [if (solution)] on a looked-up value. *)
Definition truthySolution (solution : option JSValue) : option JSValue :=
  match solution with
  | Some v => if truthyValue v then Some v else None
  | None => None
  end.

Definition makeGuess (expression guess : string) (gameState : GameState)
    (puzzleData : PuzzleData) : Completion GuessResult.t :=
  let availableExpressions := findAvailableExpressions gameState in
  match guessLoop availableExpressions guess gameState puzzleData with
  | Throw => Throw
  | Return (Some result) => Return result
  | Return None =>
      let noActiveClue :=
        {| GuessResult.success := false;
           GuessResult.message := noActiveClueMessage expression;
           GuessResult.gameState := gameState |} in
      match findExpression availableExpressions expression with
      | Some targetExpression =>
          match truthySolution (getSolution (solutions puzzleData) expression) with
          | Some solution =>
              Return
                {| GuessResult.success := false;
                   GuessResult.message :=
                     "Incorrect guess " +:+ JS.dq +:+ guess +:+ JS.dq +:+ " for " +:+
                     JS.dq +:+ expression +:+ JS.dq +:+ ".";
                   GuessResult.gameState := gameState |}
          | None => Return noActiveClue
          end
      | None => Return noActiveClue
      end
  end.

Definition getHint (expression : string) (gameState : GameState)
    (puzzleData : PuzzleData) : Completion HintResult.t :=
  let availableExpressions := findAvailableExpressions gameState in
  match findExpression availableExpressions expression with
  | None =>
      Return
        {| HintResult.success := false;
           HintResult.hint := None;
           HintResult.message := noActiveClueMessage expression;
           HintResult.gameState := gameState |}
  | Some targetExpression =>
      match truthySolution (getSolution (solutions puzzleData) expression) with
      | None =>
          Return
            {| HintResult.success := false;
               HintResult.hint := None;
               HintResult.message := noSolutionMessage expression;
               HintResult.gameState := gameState |}
      | Some (VString solution) =>
          let firstLetter := JS.charAt0 solution in
          let updatedGameState :=
            {| displayState := displayState gameState;
               solvedExpressions := solvedExpressions gameState;
               hintedExpressions := hintedExpressions gameState ∪ {[expression]};
               revealedExpressions := revealedExpressions gameState;
               activeClues := activeClues gameState;
               totalClues := totalClues gameState |} in
          Return
            {| HintResult.success := true;
               HintResult.hint := Some firstLetter;
               HintResult.message :=
                 "Hint for " +:+ JS.dq +:+ expression +:+ JS.dq +:+
                 ": The answer begins with " +:+ JS.dq +:+ firstLetter +:+ JS.dq +:+
                 ".";
               HintResult.gameState := updatedGameState |}
      | Some (VFunction _) | Some VPrototype =>
          Throw                  (* [solution.charAt] is not a function *)
      end
  end.

Definition revealClue (engine : Engine) (expression : string)
    (gameState : GameState) (puzzleData : PuzzleData) : RevealResult.t :=
  let availableExpressions := findAvailableExpressions gameState in
  match findExpression availableExpressions expression with
  | None =>
      {| RevealResult.success := false;
         RevealResult.solution := None;
         RevealResult.message := noActiveClueMessage expression;
         RevealResult.gameState := gameState |}
  | Some targetExpression =>
      match truthySolution (getSolution (solutions puzzleData) expression) with
      | None =>
          {| RevealResult.success := false;
             RevealResult.solution := None;
             RevealResult.message := noSolutionMessage expression;
             RevealResult.gameState := gameState |}
      | Some solution =>
          let newDisplayState :=
            splice gameState targetExpression (valueText engine solution) in
          let updatedGameState :=
            {| displayState := newDisplayState;
               solvedExpressions := solvedExpressions gameState ∪ {[expression]};
               hintedExpressions := hintedExpressions gameState;
               revealedExpressions := revealedExpressions gameState ∪ {[expression]};
               activeClues := findActiveClues newDisplayState;
               totalClues := totalClues gameState |} in
          {| RevealResult.success := true;
             RevealResult.solution := Some solution;
             RevealResult.message :=
               "Revealed answer for " +:+ JS.dq +:+ expression +:+ JS.dq +:+ ": " +:+
               JS.dq +:+ valueText engine solution +:+ JS.dq;
             RevealResult.gameState := updatedGameState |}
      end
  end.

(** ** The run driver

    The model under test is an external collaborator: what it contributes to
    a run is the sequence of tool calls it makes and the number of steps
    reported by [generateText].  Token usage, time stamps, the final text and
    the floating-point [completionPercentage] are left out of the record. *)

Inductive ToolCall :=
  | CallMakeGuess (clue guess : string)
  | CallGetHint (clue : string)
  | CallRevealClue (clue : string).

Record GuessAttempt := mkGuessAttempt {
  ga_expression : string;
  ga_guess : string;
  ga_success : bool
}.

(** The variables captured by the [execute] closures. *)
Record Run := mkRun {
  run_gameState : GameState;
  run_stats : Stats;
  run_completedPuzzle : bool;
  run_modelGuesses : list GuessAttempt
}.

Definition incrGuesses (s : Stats) : Stats :=
  mkStats (guesses s + 1) (correctGuesses s) (stats_totalClues s) (hints s)
    (reveals s) (stepsTaken s).
Definition incrCorrectGuesses (s : Stats) : Stats :=
  mkStats (guesses s) (correctGuesses s + 1) (stats_totalClues s) (hints s)
    (reveals s) (stepsTaken s).
Definition incrHints (s : Stats) : Stats :=
  mkStats (guesses s) (correctGuesses s) (stats_totalClues s) (hints s + 1)
    (reveals s) (stepsTaken s).
Definition incrReveals (s : Stats) : Stats :=
  mkStats (guesses s) (correctGuesses s) (stats_totalClues s) (hints s)
    (reveals s + 1) (stepsTaken s).
Definition setStepsTaken (s : Stats) (n : Z) : Stats :=
  mkStats (guesses s) (correctGuesses s) (stats_totalClues s) (hints s)
    (reveals s) n.

(** One call of a tool, from the state [r] of the variables captured by the
    closures.  An exception of [makeGuess] or [getHint] passes through
    [execute]. *)
Definition executeTool (engine : Engine) (puzzleData : PuzzleData) (r : Run)
    (call : ToolCall) : Completion Run :=
  match call with
  | CallMakeGuess clue guess =>
      let stats := incrGuesses (run_stats r) in
      match makeGuess clue guess (run_gameState r) puzzleData with
      | Throw => Throw
      | Return result =>
          let cluesRemaining :=
            length (findActiveClues (displayState (GuessResult.gameState result))) in
          let modelGuesses :=
            run_modelGuesses r ++
            [mkGuessAttempt clue guess (GuessResult.success result)] in
          let gameState := GuessResult.gameState result in
          if GuessResult.success result then
            Return
              (mkRun gameState (incrCorrectGuesses stats)
                 (if (cluesRemaining =? 0)%nat then true else run_completedPuzzle r)
                 modelGuesses)
          else Return (mkRun gameState stats (run_completedPuzzle r) modelGuesses)
      end
  | CallGetHint clue =>
      match getHint clue (run_gameState r) puzzleData with
      | Throw => Throw
      | Return result =>
          if HintResult.success result then
            Return
              (mkRun (HintResult.gameState result) (incrHints (run_stats r))
                 (run_completedPuzzle r) (run_modelGuesses r))
          else Return r
      end
  | CallRevealClue clue =>
      let result := revealClue engine clue (run_gameState r) puzzleData in
      let cluesRemaining :=
        length (findActiveClues (displayState (RevealResult.gameState result))) in
      if RevealResult.success result then
        Return
          (mkRun (RevealResult.gameState result) (incrReveals (run_stats r))
             (if (cluesRemaining =? 0)%nat then true else run_completedPuzzle r)
             (run_modelGuesses r))
      else Return r
  end.

Definition startRun (puzzleData : PuzzleData) : Run :=
  {| run_gameState := initializeGameState puzzleData;
     run_stats := mkStats 0 0 (Z.of_nat (size (solutions puzzleData))) 0 0 0;
     run_completedPuzzle := false;
     run_modelGuesses := [] |}.

(** The tool calls of [generateText], one after the other.  An exception
    thrown by a tool ends [generateText] with an exception; the variables of
    the closures are then of no further use, since [solvePuzzleWithLLM]
    throws as well. *)
Fixpoint runFrom (engine : Engine) (puzzleData : PuzzleData) (r : Run)
    (calls : list ToolCall) : Completion Run :=
  match calls with
  | [] => Return r
  | call :: more =>
      match executeTool engine puzzleData r call with
      | Throw => Throw
      | Return r' => runFrom engine puzzleData r' more
      end
  end.

(** The state of the run when [generateText] returns. *)
Definition runTools (engine : Engine) (puzzleData : PuzzleData)
    (calls : list ToolCall) : Completion Run :=
  runFrom engine puzzleData (startRun puzzleData) calls.

Record RunResult := mkRunResult {
  res_success : bool;
  res_stats : Stats;
  res_score : Z;
  res_rank : string;
  res_scoreDetails : ScoreDetails;
  res_modelGuesses : list GuessAttempt
}.

(** The [catch] around [generateText] throws the exception again, so a run
    in which a tool throws has no result. *)
Definition solvePuzzleWithLLM (engine : Engine) (puzzleData : PuzzleData)
    (calls : list ToolCall) (steps : Z) : Completion RunResult :=
  match runTools engine puzzleData calls with
  | Throw => Throw
  | Return r =>
      let gameState := run_gameState r in
      let stats := setStepsTaken (run_stats r) steps in
      let finalAvailableClues := findAvailableExpressions gameState in
      let completedPuzzle := (length finalAvailableClues =? 0)%nat in
      let scoreDetails := calculateScore gameState stats in
      let finalScore_ := if completedPuzzle then finalScore scoreDetails else 0%Z in
      let rank_ := if completedPuzzle then rank scoreDetails else "Tourist" in
      Return
        {| res_success := completedPuzzle;
           res_stats := stats;
           res_score := finalScore_;
           res_rank := rank_;
           res_scoreDetails :=
             {| baseScore := baseScore scoreDetails;
                peekPenalty := peekPenalty scoreDetails;
                megaPeekPenalty := megaPeekPenalty scoreDetails;
                wrongGuessPenalty := wrongGuessPenalty scoreDetails;
                totalPenalty := totalPenalty scoreDetails;
                finalScore := finalScore_;
                rank := rank scoreDetails;
                nextRankName := nextRankName scoreDetails;
                pointsToNextRank := pointsToNextRank scoreDetails |};
           res_modelGuesses := run_modelGuesses r |}
  end.

(** ** Well-formed documents *)

(** The depth counter of a bracket scan from depth [d]: every closer has an
    opener before it and every opener is closed. *)
Fixpoint depthScan (d : nat) (l : list ascii) : bool :=
  match l with
  | [] => (d =? 0)%nat
  | c :: l' =>
      if isOpen c then depthScan (S d) l'
      else if isClose c then
        match d with
        | 0 => false
        | S d' => depthScan d' l'
        end
      else depthScan d l'
  end.

Definition balanced (document : string) : bool := depthScan 0 (JS.chars document).

(** Balanced texts, by their grammar. *)
Inductive Balanced : list ascii -> Prop :=
  | Balanced_nil : Balanced []
  | Balanced_char c l :
      isBracket c = false -> Balanced l -> Balanced (c :: l)
  | Balanced_span inner rest :
      Balanced inner -> Balanced rest ->
      Balanced ("["%char :: inner ++ "]"%char :: rest).

(** What the two scanners report about a clue: expression and window. *)
Definition clueWindow (c : Clue) : string * nat * nat :=
  (expression c, start c, end_ c).
Definition expressionWindow (e : Expression) : string * nat * nat :=
  (expr_expression e, startIndex e, endIndex e).

Definition stateOf (document : string) : GameState :=
  {| displayState := document;
     solvedExpressions := ∅;
     hintedExpressions := ∅;
     revealedExpressions := ∅;
     activeClues := findActiveClues document;
     totalClues := 0 |}.

Definition keyOf (m : gmap string string) : PuzzleData :=
  {| completionText := EmptyString;
     puzzleDate := EmptyString;
     completionURL := EmptyString;
     solutions := m;
     initialPuzzle := EmptyString;
     puzzleSolution := EmptyString |}.

(** ** Vocabulary of the claims *)

(** [e] is the window of a bracket pair of [document] around text with no
    bracket in it. *)
Definition innermostWindow (document : list ascii) (e : Expression) : Prop :=
  exists before group after,
    document = before ++ "["%char :: group ++ "]"%char :: after /\
    group <> [] /\
    forallb (fun c => negb (isBracket c)) group = true /\
    expr_expression e = JS.str group /\
    startIndex e = length before /\
    endIndex e = length before + length group + 2.

(** The window of [a] ends before the window of [b] begins. *)
Definition precedes (a b : Expression) : Prop := endIndex a <= startIndex b.

(** Clues with a non-empty expression. *)
Definition namedClue (c : Clue) : bool := JS.truthy (expression c).

(** [x] brought into the interval from [lo] to [hi]. *)
Definition clamp (x lo hi : Z) : Z :=
  if (x <? lo)%Z then lo else if (hi <? x)%Z then hi else x.

(** [name] is the tier of [table] with the highest threshold that does not
    exceed [score]. *)
Definition highestTier (table : list (string * Z)) (score : Z) (name : string)
    : Prop :=
  exists threshold : Z,
    (name, threshold) ∈ table /\ (threshold <= score)%Z /\
    forall name' threshold',
      (name', threshold') ∈ table -> (threshold' <= score)%Z ->
      (threshold' <= threshold)%Z.


(** The state after resolving the clue [e] with [solution]. *)
Definition resolved (gameState : GameState) (e : Expression) (solution : string)
    : GameState :=
  {| displayState :=
       JS.slice (displayState gameState) 0 (startIndex e) +:+ solution +:+
       JS.sliceFrom (displayState gameState) (endIndex e);
     solvedExpressions := solvedExpressions gameState ∪ {[expr_expression e]};
     hintedExpressions := hintedExpressions gameState;
     revealedExpressions := revealedExpressions gameState;
     activeClues :=
       findActiveClues
         (JS.slice (displayState gameState) 0 (startIndex e) +:+ solution +:+
          JS.sliceFrom (displayState gameState) (endIndex e));
     totalClues := totalClues gameState |}.

(** The value returned by a call, if it returns. *)
Definition returned {A : Type} (c : Completion A) : option A :=
  match c with
  | Return a => Some a
  | Throw => None
  end.

(** Reading [solutions[expression]] yields a member of [Object.prototype]:
    [expression] is the name of such a member and the answer key has no entry
    of its own for it. *)
Definition readsPrototype (puzzleData : PuzzleData) (expression : string) : Prop :=
  solutions puzzleData !! expression = None /\
  is_Some (objectPrototype expression).

(** [expression] names a clue that is active in [gameState]. *)
Definition activeIn (gameState : GameState) (expression : string) : Prop :=
  exists e, e ∈ findAvailableExpressions gameState /\ expr_expression e = expression.


(** ** Vocabulary of the further properties *)

Definition bracketFree (l : list ascii) : bool :=
  forallb (fun c => negb (isBracket c)) l.

(** The window of clue [a] ends before the window of clue [b] begins. *)
Definition cluePrecedes (a b : Clue) : Prop := end_ a <= start b.

(** [c] sits in [document]: its window begins with an opening bracket, its
    text is the window, its expression is the text without the first and the
    last code unit and has no bracket. *)
Definition clueShape (document : list ascii) (c : Clue) : Prop :=
  exists before raw after,
    document = before ++ "["%char :: raw ++ after /\
    start c = length before /\
    end_ c = length before + 1 + length raw /\
    text c = JS.str ("["%char :: raw) /\
    expression c = JS.str (dropLast raw) /\
    bracketFree (dropLast raw) = true.

(** Number of opening and of closing brackets of a text. *)
Definition countOpen (s : string) : nat :=
  length (List.filter isOpen (JS.chars s)).
Definition countClose (s : string) : nat :=
  length (List.filter isClose (JS.chars s)).

(** No solution of the answer key contains a bracket. *)
Definition plainSolutions (puzzleData : PuzzleData) : Prop :=
  map_Forall (fun _ solution => bracketFree (JS.chars solution) = true)
    (solutions puzzleData).

(** Every solution of the answer key is balanced. *)
Definition balancedSolutions (puzzleData : PuzzleData) : Prop :=
  map_Forall (fun _ solution => balanced solution = true) (solutions puzzleData).

(** The depth reached by a bracket scan of [l] from depth [d]; [None] when a
    closer has no opener. *)
Fixpoint depthAfter (d : nat) (l : list ascii) : option nat :=
  match l with
  | [] => Some d
  | c :: l' =>
      if isOpen c then depthAfter (S d) l'
      else if isClose c then
        match d with
        | 0 => None
        | S d' => depthAfter d' l'
        end
      else depthAfter d l'
  end.

(** The [makeGuess] calls among the tool calls of a run, in order. *)
Definition guessCalls (calls : list ToolCall) : list (string * string) :=
  omap (fun call =>
          match call with
          | CallMakeGuess clue guess => Some (clue, guess)
          | _ => None
          end) calls.

Definition isHintCall (call : ToolCall) : bool :=
  match call with CallGetHint _ => true | _ => false end.

Definition isRevealCall (call : ToolCall) : bool :=
  match call with CallRevealClue _ => true | _ => false end.

(** The sets of the game state against the counters of the run. *)
Definition countersCoverSets (r : Run) : Prop :=
  revealedExpressions (run_gameState r) ⊆ solvedExpressions (run_gameState r) /\
  (Z.of_nat (size (hintedExpressions (run_gameState r))) <= hints (run_stats r))%Z /\
  (Z.of_nat (size (revealedExpressions (run_gameState r)))
   <= reveals (run_stats r))%Z /\
  (Z.of_nat (size (solvedExpressions (run_gameState r)))
   <= correctGuesses (run_stats r) + reveals (run_stats r))%Z /\
  (0 <= correctGuesses (run_stats r) <= guesses (run_stats r))%Z.

(** The rank bands of the threshold table. *)
Definition rankOfScore (score : Z) : string :=
  if (100 <=? score)%Z then "Puppet Master"
  else if (91 <=? score)%Z then "Kingmaker"
  else if (79 <=? score)%Z then "Power Broker"
  else if (68 <=? score)%Z then "Mayor"
  else if (51 <=? score)%Z then "Chief of Police"
  else if (31 <=? score)%Z then "Council Member"
  else if (21 <=? score)%Z then "Resident"
  else if (11 <=? score)%Z then "Commuter"
  else "Tourist".

(** Two guesses that end alike: both throw, or both return, with the same
    success flag and the same state; their messages may differ. *)
Definition sameOutcome (c c' : Completion GuessResult.t) : Prop :=
  match c, c' with
  | Return result, Return result' =>
      GuessResult.success result = GuessResult.success result' /\
      GuessResult.gameState result = GuessResult.gameState result'
  | Throw, Throw => True
  | _, _ => False
  end.

(** No reveal among [calls] reads a member of [Object.prototype]. *)
Definition keyedReveals (puzzleData : PuzzleData) (calls : list ToolCall) : Prop :=
  forall clue, CallRevealClue clue ∈ calls -> ~ readsPrototype puzzleData clue.

(** ** Aggregation of run results ([aggregate-results.ts])

    The loop of [aggregateAgentResults] that groups the parsed result files
    by model.  The numbers of the files (score, completion percentage) are
    only collected here, so their type is left open; the averages computed
    from them afterwards are floating-point and are not modelled. *)

Section Aggregate.

Context {number : Type}.

Record AgentResult := mkAgentResult {
  ar_modelName : string;                 (* data.model.name *)
  ar_success : bool;                     (* data.result.success *)
  ar_score : number;                     (* data.result.score *)
  ar_completionPercentage : number       (* data.result.stats.completionPercentage *)
}.

Record ModelRuns := mkModelRuns {
  scores : list number;
  completions : list number;
  successes : list bool
}.

(** [modelStatsMap.has(key)] on a [Map] kept as its entries in insertion
    order. *)
Fixpoint mapHas (m : list (string * ModelRuns)) (key : string) : bool :=
  match m with
  | [] => false
  | (k, _) :: m' => if bool_decide (k = key) then true else mapHas m' key
  end.

(** [modelStatsMap.set(key, value)] for a key not yet in the map. *)
Definition mapSetNew (m : list (string * ModelRuns)) (key : string)
    (value : ModelRuns) : list (string * ModelRuns) :=
  m ++ [(key, value)].

(** The object returned by [modelStatsMap.get(key)], changed in place by
    [change]. *)
Fixpoint mapChange (m : list (string * ModelRuns)) (key : string)
    (change : ModelRuns -> ModelRuns) : list (string * ModelRuns) :=
  match m with
  | [] => []
  | (k, v) :: m' =>
      if bool_decide (k = key) then (k, change v) :: m'
      else (k, v) :: mapChange m' key change
  end.

(** The three [push] calls. *)
Definition pushResult (data : AgentResult) (stats : ModelRuns) : ModelRuns :=
  {| scores := scores stats ++ [ar_score data];
     completions := completions stats ++ [ar_completionPercentage data];
     successes := successes stats ++ [ar_success data] |}.

(** The body of [for (const file of jsonFiles)], on the parsed file. *)
Definition addResult (modelStatsMap : list (string * ModelRuns))
    (data : AgentResult) : list (string * ModelRuns) :=
  let modelName := ar_modelName data in
  let modelStatsMap :=
    if negb (mapHas modelStatsMap modelName)
    then mapSetNew modelStatsMap modelName (mkModelRuns [] [] [])
    else modelStatsMap in
  mapChange modelStatsMap modelName (pushResult data).

Definition collectModelStats (files : list AgentResult)
    : list (string * ModelRuns) :=
  foldl addResult [] files.

(** [totalPuzzles: stats.scores.length] *)
Definition totalPuzzles (stats : ModelRuns) : nat := length (scores stats).

(** [stats.successes.filter((s) => s).length] *)
Definition successCount (stats : ModelRuns) : nat :=
  length (List.filter (fun s : bool => s) (successes stats)).

(** The runs of model [name] among [files], in the order of the files. *)
Definition runsOf (name : string) (files : list AgentResult) : ModelRuns :=
  let own := List.filter (fun d => bool_decide (ar_modelName d = name)) files in
  {| scores := map ar_score own;
     completions := map ar_completionPercentage own;
     successes := map ar_success own |}.

Definition sumPuzzles (m : list (string * ModelRuns)) : nat :=
  foldr (fun entry n => totalPuzzles entry.2 + n) 0 m.

End Aggregate.

(** * Properties *)

(** ** Code units *)

Lemma isOpen_true c : isOpen c = true -> c = "["%char.
Proof. unfold isOpen. intros H. by apply Ascii.eqb_eq in H. Qed.

Lemma isClose_true c : isClose c = true -> c = "]"%char.
Proof. unfold isClose. intros H. by apply Ascii.eqb_eq in H. Qed.

Lemma isBracket_false c :
  isBracket c = false -> isOpen c = false /\ isClose c = false.
Proof. unfold isBracket. intros H. by apply orb_false_elim in H. Qed.

Lemma str_chars s : JS.str (JS.chars s) = s.
Proof. apply string_of_list_ascii_of_string. Qed.

Lemma chars_str l : JS.chars (JS.str l) = l.
Proof. apply list_ascii_of_string_of_list_ascii. Qed.

Lemma chars_app s t : JS.chars (s +:+ t) = JS.chars s ++ JS.chars t.
Proof.
  induction s as [|c s IH]; [done|].
  change (JS.chars (String c (s +:+ t)) = c :: JS.chars s ++ JS.chars t).
  unfold JS.chars in *. simpl. by rewrite IH.
Qed.

Lemma str_app l k : JS.str (l ++ k) = JS.str l +:+ JS.str k.
Proof.
  rewrite <- (str_chars (JS.str l +:+ JS.str k)).
  by rewrite chars_app, !chars_str.
Qed.

Lemma truthy_str l : JS.truthy (JS.str l) = negb (bool_decide (l = [])).
Proof. by destruct l. Qed.

Lemma truthy_true s : JS.truthy s = true <-> s <> EmptyString.
Proof. destruct s; simpl; split; done. Qed.

(** ** The inner loop of the recursive scanner *)

(** The loop consumes a prefix of the remaining text, appends it to
    [innerContent] and advances the cursor by its length. *)
Lemma scanSpan_consumed rest i bracketCount nested acc :
  exists consumed,
    rest = consumed ++ ss_rest (scanSpan rest i bracketCount nested acc) /\
    ss_innerContent (scanSpan rest i bracketCount nested acc) = acc ++ consumed /\
    ss_i (scanSpan rest i bracketCount nested acc) = i + length consumed.
Proof.
  revert i bracketCount nested acc.
  induction rest as [|c rest IH]; intros i bracketCount nested acc.
  - exists []. destruct bracketCount; simpl; rewrite ?app_nil_r; auto.
  - destruct bracketCount as [|below].
    { exists []. simpl. rewrite app_nil_r. auto. }
    simpl. destruct (isOpen c); [|destruct (isClose c)].
    all: match goal with
         | |- context [scanSpan _ ?j ?b ?n ?a] =>
             destruct (IH j b n a) as (consumed & Hrest & Hin & Hi)
         end.
    all: exists (c :: consumed); rewrite Hin, Hi; simpl; split_and!;
           [by f_equal | by rewrite <- app_assoc | lia].
Qed.

Lemma dropLast_length l : length (dropLast l) <= length l.
Proof. unfold dropLast. rewrite length_take. lia. Qed.

Lemma dropLast_snoc l c : dropLast (l ++ [c]) = l.
Proof.
  unfold dropLast. rewrite length_app. simpl.
  replace (length l + 1 - 1) with (length l) by lia.
  by rewrite take_app_length.
Qed.

(** The fuel handed over by [findActiveClues] is enough: one unit per loop
    iteration and per recursive call, all on strictly shorter texts. *)
Lemma findClues_fuel fuel str rest i startOffset acc :
  length rest < fuel ->
  is_Some (findClues fuel str rest i startOffset acc).
Proof.
  revert str rest i startOffset acc.
  induction fuel as [|fuel IH]; intros str rest i startOffset acc Hlen; [lia|].
  destruct rest as [|c rest]; simpl; [by eexists|].
  simpl in Hlen.
  destruct (isOpen c); [|apply IH; lia].
  destruct (scanSpan_consumed rest (S i) 1 false []) as (consumed & Hrest & Hin & _).
  assert (length consumed + length (ss_rest (scanSpan rest (S i) 1 false []))
          = length rest) as Hl
    by (apply (f_equal length) in Hrest; by rewrite length_app in Hrest).
  destruct (negb _); [apply IH; lia|].
  match goal with
  | |- is_Some (match findClues fuel ?s ?s 0 ?o acc with _ => _ end) =>
      destruct (IH s s 0 o acc) as [found Hfound]
  end.
  { pose proof (dropLast_length (ss_innerContent (scanSpan rest (S i) 1 false []))).
    rewrite Hin, length_app in *. simpl in *. lia. }
  rewrite Hfound. apply IH. lia.
Qed.

Lemma findActiveClues_opt_Some puzzleText :
  findActiveClues_opt puzzleText = Some (findActiveClues puzzleText).
Proof.
  unfold findActiveClues, findActiveClues_opt.
  destruct (findClues_fuel (S (length (JS.chars puzzleText))) (JS.chars puzzleText)
              (JS.chars puzzleText) 0 0 []) as [found ->]; [lia | done].
Qed.

(** ** The regular expression *)

Lemma spanClass_spec l body tl :
  spanClass l = (body, tl) ->
  l = body ++ tl /\ forallb (fun c => negb (isBracket c)) body = true.
Proof.
  revert body tl. induction l as [|c l IH]; intros body tl; simpl.
  { by intros [= <- <-]. }
  destruct (isBracket c) eqn:Hc.
  { by intros [= <- <-]. }
  destruct (spanClass l) as [body' tl']. intros [= <- <-].
  destruct (IH _ _ eq_refl) as [-> Hbody]. simpl. by rewrite Hc, Hbody.
Qed.

(** A run of the class followed by a bracket is split at that bracket. *)
Lemma spanClass_app body c tl :
  forallb (fun c => negb (isBracket c)) body = true ->
  isBracket c = true ->
  spanClass (body ++ c :: tl) = (body, c :: tl).
Proof.
  intros Hbody Hc. induction body as [|b body IH]; simpl.
  { by rewrite Hc. }
  simpl in Hbody. apply andb_true_iff in Hbody as [Hb Hbody].
  apply negb_true_iff in Hb. by rewrite Hb, IH.
Qed.

Lemma matchHere_Some s group tl :
  matchHere s = Some (group, tl) ->
  s = "["%char :: group ++ "]"%char :: tl /\ group <> [] /\
  forallb (fun c => negb (isBracket c)) group = true.
Proof.
  destruct s as [|c s]; [done|]. simpl.
  destruct (isOpen c) eqn:Hc; [|done]. apply isOpen_true in Hc as ->.
  destruct (spanClass s) as [body tl'] eqn:Hspan.
  destruct body as [|b body]; [done|]. destruct tl' as [|c' tl']; [done|].
  destruct (isClose c') eqn:Hc'; [|done]. apply isClose_true in Hc' as ->.
  intros [= <- <-]. by destruct (spanClass_spec _ _ _ Hspan) as [-> ?].
Qed.

(** What [exec] returns: the text skipped before the match, the match, and
    the text after it. *)
Lemma exec_Some rest pos m :
  exec rest pos = Some m ->
  exists skipped,
    rest = skipped ++ "["%char :: m_group m ++ "]"%char :: m_rest m /\
    m_index m = pos + length skipped /\
    m_length m = length (m_group m) + 2 /\
    m_group m <> [] /\
    forallb (fun c => negb (isBracket c)) (m_group m) = true.
Proof.
  revert pos. induction rest as [|c rest IH]; intros pos; [done|].
  cbn [exec]. destruct (matchHere (c :: rest)) as [[group tl]|] eqn:Hm.
  - intros [= <-]. apply matchHere_Some in Hm as (-> & ? & ?).
    exists []. simpl. split_and!; auto.
  - intros Hexec. destruct (IH _ Hexec) as (skipped & -> & Hi & ? & ? & ?).
    exists (c :: skipped). simpl. split_and!; auto. lia.
Qed.

Lemma exec_skip c rest pos :
  matchHere (c :: rest) = None -> exec (c :: rest) pos = exec rest (S pos).
Proof. intros H. cbn [exec]. by rewrite H. Qed.

(** Each match is not empty, so [lastIndex] moves on and the loop ends. *)
Lemma execLoop_fuel fuel rest lastIndex matchedPositions results :
  length rest < fuel ->
  is_Some (execLoop fuel rest lastIndex matchedPositions results).
Proof.
  revert rest lastIndex matchedPositions results.
  induction fuel as [|fuel IH]; intros rest lastIndex mp results Hlen; [lia|].
  simpl. destruct (exec rest lastIndex) as [m|] eqn:Hexec; [|by eexists].
  destruct (exec_Some _ _ _ Hexec) as (skipped & Hrest & _).
  apply (f_equal length) in Hrest. rewrite length_app in Hrest. simpl in Hrest.
  rewrite length_app in Hrest. simpl in Hrest.
  destruct (negb _); apply IH; lia.
Qed.

Lemma scanExpressions_opt_Some gameState :
  scanExpressions_opt (displayState gameState)
  = Some (findAvailableExpressions gameState).
Proof.
  unfold findAvailableExpressions, scanExpressions_opt.
  destruct (execLoop_fuel (S (length (JS.chars (displayState gameState))))
              (JS.chars (displayState gameState)) 0 ∅ []) as [found ->]; [lia | done].
Qed.

(** ** Windows of the regular-expression scanner *)

(** Every expression reported is an innermost bracket pair of the
    document. *)
Lemma execLoop_windows document fuel rest lastIndex matchedPositions results
    before found :
  document = before ++ rest ->
  lastIndex = length before ->
  Forall (innermostWindow document) results ->
  execLoop fuel rest lastIndex matchedPositions results = Some found ->
  Forall (innermostWindow document) found.
Proof.
  revert rest lastIndex matchedPositions results before.
  induction fuel as [|fuel IH]; intros rest lastIndex mp results before Hdoc Hpos Hres;
    [done|].
  simpl. destruct (exec rest lastIndex) as [m|] eqn:Hexec; [|by intros [= <-]].
  destruct (exec_Some _ _ _ Hexec) as (skipped & Hrest & Hi & Hl & Hne & Hcls).
  assert (document
          = (before ++ skipped ++ "["%char :: m_group m ++ ["]"%char]) ++ m_rest m)
    as Hdoc'.
  { rewrite Hdoc, Hrest, <- !app_assoc. simpl. by rewrite <- app_assoc. }
  assert (m_index m + m_length m
          = length (before ++ skipped ++ "["%char :: m_group m ++ ["]"%char]))
    as Hpos'.
  { rewrite !length_app. simpl. rewrite length_app. simpl. lia. }
  destruct (negb _); intros Hloop;
    eapply (IH _ _ _ _ _ Hdoc' Hpos'); [ | exact Hloop | exact Hres | exact Hloop].
  apply Forall_app. split; [done|]. constructor; [|done].
  exists (before ++ skipped), (m_group m), (m_rest m). simpl.
  rewrite Hdoc, Hrest, <- app_assoc, length_app. split_and!; auto; lia.
Qed.

Lemma findAvailableExpressions_windows gameState :
  Forall (innermostWindow (JS.chars (displayState gameState)))
    (findAvailableExpressions gameState).
Proof.
  eapply (execLoop_windows _ _ _ 0 ∅ [] []); [done | done | constructor |].
  apply scanExpressions_opt_Some.
Qed.

(** The expressions are reported in document order, with disjoint
    windows. *)
Lemma execLoop_ordered fuel rest lastIndex matchedPositions results found :
  StronglySorted precedes results ->
  Forall (fun e => endIndex e <= lastIndex) results ->
  execLoop fuel rest lastIndex matchedPositions results = Some found ->
  StronglySorted precedes found.
Proof.
  revert rest lastIndex matchedPositions results.
  induction fuel as [|fuel IH]; intros rest lastIndex mp results Hsorted Hends;
    [done|].
  simpl. destruct (exec rest lastIndex) as [m|] eqn:Hexec; [|by intros [= <-]].
  destruct (exec_Some _ _ _ Hexec) as (skipped & _ & Hi & _).
  assert (Forall (fun e => endIndex e <= m_index m + m_length m) results) as Hends'.
  { eapply Forall_impl; [exact Hends|]. simpl. intros e He. lia. }
  destruct (negb _); apply IH; try done.
  - apply StronglySorted_app_2; [|done|repeat constructor].
    intros e1 e2 He1 ->%list_elem_of_singleton.
    rewrite Forall_forall in Hends. specialize (Hends e1 He1).
    unfold precedes. simpl. lia.
  - apply Forall_app. split; [done|]. by repeat constructor.
Qed.

Lemma findAvailableExpressions_ordered gameState :
  StronglySorted precedes (findAvailableExpressions gameState).
Proof.
  eapply (execLoop_ordered _ _ 0 ∅ []); [constructor | constructor |].
  apply scanExpressions_opt_Some.
Qed.


(** The window of an available expression holds that expression in
    brackets. *)
Lemma innermostWindow_slice document e :
  innermostWindow (JS.chars document) e ->
  JS.slice document (startIndex e) (endIndex e) = "[" +:+ expr_expression e +:+ "]".
Proof.
  intros (before & group & after & Hdoc & _ & _ & -> & -> & ->).
  unfold JS.slice. rewrite Hdoc, drop_app_length.
  replace (length before + length group + 2 - length before)
    with (length ("["%char :: group ++ ["]"%char]))
    by (simpl; rewrite length_app; simpl; lia).
  replace ("["%char :: group ++ "]"%char :: after)
    with (("["%char :: group ++ ["]"%char]) ++ after)
    by (simpl; by rewrite <- app_assoc).
  rewrite take_app_length.
  change ("["%char :: group ++ ["]"%char]) with (["["%char] ++ group ++ ["]"%char]).
  by rewrite !str_app.
Qed.

(** ** Balanced documents *)

(** The depth counter accepts exactly texts of the grammar; at depth [S d]
    it first reads a balanced text up to the closer of the enclosing pair. *)
Lemma depthScan_split n : forall l, length l <= n ->
  (depthScan 0 l = true -> Balanced l) /\
  (forall d, depthScan (S d) l = true ->
     exists inner rest,
       l = inner ++ "]"%char :: rest /\ Balanced inner /\ depthScan d rest = true).
Proof.
  induction n as [|n IH]; intros l Hlen.
  { destruct l; [|simpl in Hlen; lia]. split; [constructor | done]. }
  destruct l as [|c l]; [split; [constructor | done]|].
  simpl in Hlen. assert (length l <= n) as Hl by lia.
  destruct (IH l Hl) as [IH0 IHS]. simpl.
  destruct (isOpen c) eqn:Ho; [|destruct (isClose c) eqn:Hc].
  - apply isOpen_true in Ho as ->. split.
    + intros H. destruct (IHS 0 H) as (inner & rest & -> & Hinner & Hrest).
      rewrite length_app in Hl. simpl in Hl.
      constructor; [done|]. apply (IH rest); [lia | done].
    + intros d H. destruct (IHS (S d) H) as (inner & rest & -> & Hinner & Hrest).
      rewrite length_app in Hl. simpl in Hl.
      destruct (IH rest ltac:(lia)) as [_ IHrest].
      destruct (IHrest d Hrest) as (inner' & rest' & -> & Hinner' & Hrest').
      exists ("["%char :: inner ++ "]"%char :: inner'), rest'.
      split_and!; [|by constructor|done].
      simpl. f_equal. rewrite <- app_assoc. by simpl.
  - apply isClose_true in Hc as ->. split; [done|].
    intros d H. exists [], l. split_and!; [done | constructor | done].
  - split.
    + intros H. constructor; [|by apply IH0]. unfold isBracket. by rewrite Ho, Hc.
    + intros d H. destruct (IHS d H) as (inner & rest & -> & Hinner & Hrest).
      exists (c :: inner), rest. split_and!; [done | | done].
      constructor; [|done]. unfold isBracket. by rewrite Ho, Hc.
Qed.

Lemma balanced_Balanced document :
  balanced document = true -> Balanced (JS.chars document).
Proof. intros H. by apply (depthScan_split (length (JS.chars document))). Qed.

Lemma scanSpan_zero rest i nested acc :
  scanSpan rest i 0 nested acc = mkSpanScan rest i 0 nested acc.
Proof. by destruct rest. Qed.

(** Inside a span the inner loop runs over a balanced text without going
    back to the depth it started from. *)
Lemma scanSpan_Balanced inner : Balanced inner ->
  forall tl i d nested acc,
    scanSpan (inner ++ tl) i (S d) nested acc
    = scanSpan tl (i + length inner) (S d) (nested || existsb isOpen inner)
        (acc ++ inner).
Proof.
  induction 1 as [|c l Hc _ IH|inner rest _ IHinner _ IHrest];
    intros tl i d nested acc.
  - simpl. by rewrite Nat.add_0_r, orb_false_r, app_nil_r.
  - apply isBracket_false in Hc as [Ho Hc]. simpl. rewrite Ho, Hc, IH. simpl.
    rewrite <- app_assoc. simpl. f_equal. lia.
  - cbn [app scanSpan isOpen Ascii.eqb]. simpl Ascii.eqb. cbn iota.
    rewrite <- app_assoc. rewrite IHinner. simpl. rewrite IHrest.
    rewrite length_app. simpl. rewrite <- !app_assoc. simpl.
    f_equal; [lia|]. by rewrite orb_true_r.
Qed.

(** The scan of one bracket pair around a balanced text. *)
Lemma scanSpan_pair inner rest i : Balanced inner ->
  scanSpan (inner ++ "]"%char :: rest) i 1 false []
  = mkSpanScan rest (i + length inner + 1) 0 (existsb isOpen inner)
      (inner ++ ["]"%char]).
Proof.
  intros H. rewrite (scanSpan_Balanced _ H). simpl. rewrite scanSpan_zero.
  f_equal. lia.
Qed.

Lemma Balanced_no_open inner : Balanced inner ->
  existsb isOpen inner = false ->
  forallb (fun c => negb (isBracket c)) inner = true.
Proof.
  induction 1 as [|c l Hc _ IH|]; simpl; [done| |done].
  rewrite Hc. simpl. intros H. apply orb_false_elim in H as [_ H]. auto.
Qed.

(** In a balanced text the first bracket opens. *)
Lemma Balanced_first_open inner tl : Balanced inner ->
  existsb isOpen inner = true ->
  exists body post, spanClass (inner ++ tl) = (body, "["%char :: post).
Proof.
  induction 1 as [|c l Hc _ IH|]; simpl; [done| |by eauto].
  rewrite Hc. apply isBracket_false in Hc as [-> _]. simpl. intros H.
  destruct (IH H) as (body & post & ->). eauto.
Qed.

Lemma matchHere_nested inner tl : Balanced inner ->
  existsb isOpen inner = true ->
  matchHere ("["%char :: inner ++ tl) = None.
Proof.
  intros Hbal Hopen. simpl.
  destruct (Balanced_first_open inner tl Hbal Hopen) as (body & post & ->).
  by destruct body.
Qed.

Lemma matchHere_flat inner tl :
  inner <> [] ->
  forallb (fun c => negb (isBracket c)) inner = true ->
  matchHere ("["%char :: inner ++ "]"%char :: tl) = Some (inner, tl).
Proof.
  intros Hne Hcls. simpl. rewrite spanClass_app; [|done..].
  by destruct inner.
Qed.

(** ** The loop of the regular-expression scanner *)

Lemma execLoop_skip fuel c rest pos matchedPositions results :
  matchHere (c :: rest) = None ->
  execLoop fuel (c :: rest) pos matchedPositions results
  = execLoop fuel rest (S pos) matchedPositions results.
Proof. intros H. destruct fuel; [done|]. cbn [execLoop]. by rewrite exec_skip. Qed.

Lemma execLoop_fuel_indep fuel1 : forall fuel2 rest pos matchedPositions results,
  length rest < fuel1 -> length rest < fuel2 ->
  execLoop fuel1 rest pos matchedPositions results
  = execLoop fuel2 rest pos matchedPositions results.
Proof.
  induction fuel1 as [|fuel1 IH]; intros fuel2 rest pos mp results H1 H2; [lia|].
  destruct fuel2 as [|fuel2]; [lia|]. simpl.
  destruct (exec rest pos) as [m|] eqn:Hexec; [|done].
  destruct (exec_Some _ _ _ Hexec) as (skipped & Hrest & _).
  apply (f_equal length) in Hrest. rewrite length_app in Hrest. simpl in Hrest.
  rewrite length_app in Hrest. simpl in Hrest.
  destruct (negb _); apply IH; lia.
Qed.

(** ** The two scanners on balanced documents *)

(** On a balanced text read from position [pos], both scanners report the
    same windows, [es], but for the clues with an empty expression, which
    only the recursive scanner reports.  The regular-expression scanner may
    be followed by any text [tl]: no match straddles the end of a balanced
    text. *)
Lemma scanners_agree s : Balanced s -> forall pos, exists es : list Expression,
  (forall fuel str i startOffset acc,
     length s < fuel -> startOffset + i = pos ->
     exists found,
       findClues fuel str s i startOffset acc = Some (acc ++ found) /\
       map clueWindow (List.filter namedClue found) = map expressionWindow es) /\
  (forall fuel fuel' tl (mp : gset nat) res p q,
     length (s ++ tl) < fuel -> length tl < fuel' ->
     (forall x, x ∈ mp -> x < pos) ->
     p = pos -> q = pos + length s ->
     exists mp' : gset nat,
       (forall x, x ∈ mp' -> x < q) /\
       execLoop fuel (s ++ tl) p mp res = execLoop fuel' tl q mp' (res ++ es)).
Proof.
  induction 1 as [|c l Hc _ IH|inner rest Hinner IHinner Hrest IHrest]; intros pos.
  - (* the empty text *)
    exists []. split.
    + intros [|fuel] str i startOffset acc Hlen Hpos; [simpl in Hlen; lia|].
      exists []. simpl. by rewrite app_nil_r.
    + intros fuel fuel' tl mp res p q Hf Hf' Hmp -> ->. exists mp.
      rewrite Nat.add_0_r, app_nil_r. split; [done|].
      by apply execLoop_fuel_indep.
  - (* a code unit that is no bracket *)
    destruct (IH (S pos)) as (es & IH1 & IH2). exists es.
    apply isBracket_false in Hc as [Ho Hc]. split.
    + intros [|fuel] str i startOffset acc Hlen Hpos; simpl in Hlen; [lia|].
      simpl. rewrite Ho. apply IH1; lia.
    + intros fuel fuel' tl mp res p q Hf Hf' Hmp -> ->. simpl in *.
      rewrite execLoop_skip by (simpl; by rewrite Ho).
      apply IH2; auto; try lia. intros x Hx. specialize (Hmp x Hx). lia.
  - (* a bracket pair *)
    destruct (IHrest (S (S pos) + length inner)) as (esr & IHr1 & IHr2).
    destruct (existsb isOpen inner) eqn:Hopen.
    + (* with brackets inside: descend *)
      destruct (IHinner (S pos)) as (esi & IHi1 & IHi2).
      exists (esi ++ esr). split.
      * intros [|fuel] str i startOffset acc Hlen Hpos; simpl in Hlen; [lia|].
        rewrite length_app in Hlen. simpl in Hlen.
        simpl. rewrite scanSpan_pair by done. simpl. rewrite Hopen. simpl.
        rewrite dropLast_snoc.
        destruct (IHi1 fuel inner 0 (startOffset + i + 1) acc) as (f1 & -> & Hf1);
          [lia..|].
        destruct (IHr1 fuel str (S (i + length inner + 1)) startOffset (acc ++ f1))
          as (f2 & -> & Hf2); [lia..|].
        exists (f1 ++ f2). rewrite <- app_assoc. split; [done|].
        by rewrite List.filter_app, !map_app, Hf1, Hf2.
      * intros fuel fuel' tl mp res p q Hf Hf' Hmp -> Hq.
        simpl in Hq; rewrite ?length_app in Hq; simpl in Hq.
        simpl in Hf. rewrite !length_app in Hf. simpl in Hf.
        rewrite ?length_app in Hf.
        assert (("["%char :: inner ++ "]"%char :: rest) ++ tl
                = "["%char :: inner ++ "]"%char :: rest ++ tl) as ->
          by (simpl; by rewrite <- app_assoc).
        rewrite execLoop_skip by (by apply matchHere_nested).
        destruct (IHi2 fuel fuel ("]"%char :: rest ++ tl) mp res (S pos)
                    (S pos + length inner)) as (mp1 & Hmp1 & ->); auto.
        { rewrite length_app. simpl. rewrite length_app. lia. }
        { simpl. rewrite length_app. lia. }
        { intros x Hx. specialize (Hmp x Hx). lia. }
        rewrite execLoop_skip by done.
        destruct (IHr2 fuel fuel' tl mp1 (res ++ esi) (S (S pos + length inner)) q)
          as (mp2 & Hmp2 & ->); auto.
        { rewrite length_app. lia. }
        { intros x Hx. specialize (Hmp1 x Hx). lia. }
        { lia. }
        exists mp2. by rewrite app_assoc.
    + (* no bracket inside *)
      pose proof (Balanced_no_open _ Hinner Hopen) as Hcls.
      destruct (decide (inner = [])) as [->|Hne].
      * (* an empty pair: a clue for the recursive scanner only *)
        exists esr. split.
        -- intros [|fuel] str i startOffset acc Hlen Hpos; simpl in Hlen; [lia|].
           simpl. rewrite scanSpan_zero. simpl.
           match goal with
           | |- context [findClues fuel str rest ?j startOffset (acc ++ [?cl])] =>
               destruct (IHr1 fuel str j startOffset (acc ++ [cl]))
                 as (f2 & -> & Hf2); [simpl; lia..|];
               exists (cl :: f2)
           end.
           rewrite <- app_assoc. split; [done|]. by simpl.
        -- intros fuel fuel' tl mp res p q Hf Hf' Hmp -> Hq.
        simpl in Hq; rewrite ?length_app in Hq; simpl in Hq. simpl in *.
           rewrite execLoop_skip by done. rewrite execLoop_skip by done.
           apply IHr2; auto; try lia.
           intros x Hx. specialize (Hmp x Hx). lia.
      * (* an innermost clue *)
        exists ({| expr_expression := JS.str inner;
                   startIndex := pos;
                   endIndex := pos + (length inner + 2) |} :: esr).
        split.
        -- intros [|fuel] str i startOffset acc Hlen Hpos; simpl in Hlen; [lia|].
           rewrite length_app in Hlen. simpl in Hlen.
           simpl. rewrite scanSpan_pair by done. simpl. rewrite Hopen. simpl.
           rewrite dropLast_snoc.
           match goal with
           | |- context [findClues fuel str rest ?j startOffset (acc ++ [?cl])] =>
               destruct (IHr1 fuel str j startOffset (acc ++ [cl]))
                 as (f2 & -> & Hf2); [simpl; lia..|];
               exists (cl :: f2)
           end.
           rewrite <- app_assoc. split; [done|].
           simpl. unfold namedClue at 1. simpl. rewrite truthy_str.
           rewrite bool_decide_eq_false_2 by done. simpl. rewrite Hf2.
           unfold clueWindow at 1, expressionWindow at 1. simpl.
           replace (startOffset + S (i + length inner + 1))
             with (pos + (length inner + 2)) by lia.
           by rewrite Hpos.
        -- intros [|fuel] fuel' tl mp res p q Hf Hf' Hmp -> Hq; [lia|].
           simpl in Hq; rewrite ?length_app in Hq; simpl in Hq.
           simpl in Hf. rewrite !length_app in Hf. simpl in Hf.
           rewrite ?length_app in Hf.
           assert (("["%char :: inner ++ "]"%char :: rest) ++ tl
                   = "["%char :: inner ++ "]"%char :: rest ++ tl) as ->
             by (simpl; by rewrite <- app_assoc).
           cbn [execLoop exec]. rewrite matchHere_flat by done. cbn.
           rewrite bool_decide_eq_false_2
             by (intros Hin; specialize (Hmp _ Hin); lia).
           cbn. fold (JS.str inner).
           destruct (IHr2 fuel fuel' tl ({[pos]} ∪ mp)
                       (res ++ [ {| expr_expression := JS.str inner;
                                    startIndex := pos;
                                    endIndex := pos + (length inner + 2) |} ])
                       (pos + (length inner + 2)) q)
             as (mp2 & Hmp2 & ->); auto.
           { rewrite length_app. lia. }
           { intros x [->%elem_of_singleton|Hx]%elem_of_union; [lia|].
             specialize (Hmp x Hx). lia. }
           { lia. }
           { lia. }
           exists mp2. split; [done|]. by rewrite <- app_assoc.
Qed.

(** ** Bracket parser: claims *)

(** C1 (counterexample).  The document "[abc" has an opening bracket that is
    never closed, and [findActiveClues] returns an ordinary clue list for it:
    one clue over the whole text. *)
Lemma findActiveClues_unbalanced_no_error :
  balanced "[abc" = false /\
  findActiveClues_opt "[abc"
  = Some [ {| start := 0; end_ := 4; text := "[abc"; expression := "ab" |} ].
Proof. split; reflexivity. Qed.

(** C1 (amended).  [findActiveClues] has no structural-error outcome: for
    every document, balanced or not, the scan ends and returns a clue
    list. *)
Theorem findActiveClues_total (puzzleText : string) :
  exists clues : list Clue, findActiveClues_opt puzzleText = Some clues.
Proof. eexists. apply findActiveClues_opt_Some. Qed.

(** C3 (counterexample).  The document "[]" is balanced; the recursive
    scanner reports a clue with the empty expression over the window 0..2,
    the regular-expression scanner reports nothing. *)
Lemma scanners_differ_on_empty_pair :
  balanced "[]" = true /\
  map clueWindow (findActiveClues "[]") = [(EmptyString, 0, 2)] /\
  map expressionWindow (findAvailableExpressions (stateOf "[]")) = [].
Proof. split_and!; reflexivity. Qed.

(** C3 (amended).  On every document with balanced brackets the
    regular-expression scanner yields exactly the clues of the recursive
    scanner that have a non-empty expression: the same expressions with the
    same start and end offsets, in the same order. *)
Theorem scanners_agree_on_balanced (gameState : GameState) :
  balanced (displayState gameState) = true ->
  map expressionWindow (findAvailableExpressions gameState)
  = map clueWindow
      (List.filter namedClue (findActiveClues (displayState gameState))).
Proof.
  intros Hbal. apply balanced_Balanced in Hbal.
  destruct (scanners_agree _ Hbal 0) as (es & Hclues & Hexprs).
  set (l := JS.chars (displayState gameState)) in *.
  destruct (Hclues (S (length l)) l 0 0 []) as (found & Hfound & Hwin);
    [lia | done |].
  destruct (Hexprs (S (length l)) 1 [] ∅ [] 0 (length l)) as (mp' & _ & Hloop);
    [rewrite app_nil_r; lia | simpl; lia | set_solver | done | done |].
  rewrite app_nil_r in Hloop.
  pose proof (findActiveClues_opt_Some (displayState gameState)) as Hc.
  pose proof (scanExpressions_opt_Some gameState) as He.
  unfold findActiveClues_opt, scanExpressions_opt in Hc, He. fold l in Hc, He.
  rewrite Hfound in Hc. rewrite Hloop in He. simpl in Hc, He.
  injection Hc as <-. injection He as <-. done.
Qed.

(** The document of the end-to-end scenario, with an empty pair added, is
    balanced; the empty pair is the only clue the regular expression does not
    report. *)
Lemma scanners_agree_on_balanced_witness :
  let document :=
    "The [] capital of [France] is [the seat of [the French government]]." in
  balanced document = true /\
  map clueWindow (findActiveClues document)
  = [ (EmptyString, 4, 6); ("France", 18, 26);
      ("the French government", 43, 66) ] /\
  map expressionWindow (findAvailableExpressions (stateOf document))
  = map clueWindow (List.filter namedClue (findActiveClues document)).
Proof.
  intros document. split_and!; [reflexivity | reflexivity |].
  apply (scanners_agree_on_balanced (stateOf document)). reflexivity.
Defined.

(** ** Scoring: claims *)

Lemma ranks_descending :
  sortBy (fun a b : string * Z => (b.2 - a.2)%Z) (rankThresholds getScoreConfig)
  = [ ("Puppet Master", 100); ("Kingmaker", 91); ("Power Broker", 79);
      ("Mayor", 68); ("Chief of Police", 51); ("Council Member", 31);
      ("Resident", 21); ("Commuter", 11); ("Tourist", 0) ]%Z.
Proof. reflexivity. Qed.

(** On its own [calculateRank] answers "Puppet Master" for a final score of
    100 whatever the three counts are: when the guard for the perfect run
    fails, the threshold search still meets the entry ("Puppet Master", 100)
    first. *)
Lemma calculateRank_100_ignores_help (peekCount megaPeekCount wrongGuessCount : Z) :
  calculateRank 100 peekCount megaPeekCount wrongGuessCount = "Puppet Master".
Proof.
  unfold calculateRank. rewrite ranks_descending.
  destruct (_ && _); reflexivity.
Qed.

(** Through [calculateScore] a final score of 100 means that nothing was
    charged: any help lowers the final score below 100. *)
Lemma calculateScore_perfect gameState stats :
  finalScore (calculateScore gameState stats) = 100%Z <->
  size (hintedExpressions gameState) = 0 /\
  size (revealedExpressions gameState) = 0 /\
  (guesses stats <= correctGuesses stats)%Z.
Proof. unfold calculateScore. simpl. lia. Qed.



Lemma calculateRank_highestTier finalScore peekCount megaPeekCount wrongGuessCount :
  (0 <= finalScore)%Z ->
  highestTier (rankThresholds getScoreConfig) finalScore
    (calculateRank finalScore peekCount megaPeekCount wrongGuessCount).
Proof.
  intros Hpos. unfold calculateRank. rewrite ranks_descending.
  destruct (_ && _) eqn:Hperfect.
  - apply andb_true_iff in Hperfect as [Hperfect _]. apply Z.eqb_eq in Hperfect.
    exists 100%Z. split_and!; [set_solver | lia |].
    intros name' threshold' Hin Hle. lia.
  - clear Hperfect. cbn [List.find].
    repeat match goal with
           | |- context [(finalScore >=? ?t)%Z] =>
               destruct (Z.geb_spec finalScore t)
           end; try lia.
    all: match goal with
         | |- highestTier _ _ (fst (_, ?t)) => exists t
         end.
    all: split_and!; [simpl; set_solver | lia |].
    all: intros name' threshold' Hin Hle; simpl in Hin;
      repeat (apply elem_of_cons in Hin as [[= -> ->]|Hin]); try lia;
      by apply elem_of_nil in Hin.
Qed.

(** C5.  [calculateScore] returns the clamped score
    100 - (5 peeks + 15 mega peeks + 2 wrong guesses), and its rank is the
    tier of the fixed table with the highest threshold not above that
    score; the perfect run gets "Puppet Master", which is that tier too. *)
Theorem calculateScore_finalScore_rank (gameState : GameState) (stats : Stats) :
  let peekCount := Z.of_nat (size (hintedExpressions gameState)) in
  let megaPeekCount := Z.of_nat (size (revealedExpressions gameState)) in
  let wrongGuessCount := Z.max 0 (guesses stats - correctGuesses stats) in
  let details := calculateScore gameState stats in
  finalScore details
  = clamp (100 - (5 * peekCount + 15 * megaPeekCount + 2 * wrongGuessCount)) 0 100 /\
  rankThresholds getScoreConfig
  = [ ("Tourist", 0); ("Commuter", 11); ("Resident", 21); ("Council Member", 31);
      ("Chief of Police", 51); ("Mayor", 68); ("Power Broker", 79);
      ("Kingmaker", 91); ("Puppet Master", 100) ]%Z /\
  highestTier (rankThresholds getScoreConfig) (finalScore details) (rank details).
Proof.
  intros peekCount megaPeekCount wrongGuessCount details. split_and!.
  - subst details peekCount megaPeekCount wrongGuessCount.
    unfold calculateScore, clamp. cbn [finalScore].
    cbn [cfg_peekPenalty cfg_megaPeekPenalty cfg_wrongGuessPenalty getScoreConfig].
    repeat match goal with
           | |- context [(?a <? ?b)%Z] => destruct (Z.ltb_spec a b)
           end; lia.
  - reflexivity.
  - subst details. unfold calculateScore. cbn [finalScore rank].
    apply calculateRank_highestTier. lia.
Qed.

(** ** Actions: lookups *)

Lemma getSolution_own (key : gmap string string) expression s :
  key !! expression = Some s -> getSolution key expression = Some (VString s).
Proof. unfold getSolution. by intros ->. Qed.

(** The members of [Object.prototype] are objects: none is a string, and all
    are truthy. *)
Lemma objectPrototype_object key v :
  objectPrototype key = Some v -> truthyValue v = true /\ forall s, v <> VString s.
Proof.
  unfold objectPrototype. intros H.
  repeat case_match; simplify_eq; by split.
Qed.

Lemma getSolution_string (key : gmap string string) expression s :
  getSolution key expression = Some (VString s) <-> key !! expression = Some s.
Proof.
  unfold getSolution. destruct (key !! expression) as [s'|] eqn:Hown.
  - split; congruence.
  - split; [|done]. intros Hp.
    apply objectPrototype_object in Hp as [_ Hp]. by destruct (Hp s).
Qed.

Lemma getSolution_object puzzleData expression :
  readsPrototype puzzleData expression <->
  exists v, getSolution (solutions puzzleData) expression = Some v /\
            forall s, v <> VString s.
Proof.
  unfold readsPrototype, getSolution.
  destruct (solutions puzzleData !! expression) as [s|] eqn:Hown.
  - split; [by intros [? _]|]. intros (v & [= <-] & Hv). by destruct (Hv s).
  - split.
    + intros [_ [v Hv]]. exists v. split; [done|].
      by apply objectPrototype_object in Hv as [_ ?].
    + intros (v & Hv & _). split; [done | by exists v].
Qed.

Lemma truthySolution_Some solution v :
  truthySolution solution = Some v <-> solution = Some v /\ truthyValue v = true.
Proof.
  destruct solution as [v'|]; simpl.
  - destruct (truthyValue v') eqn:Hv'.
    + split; [by intros [= <-] | by intros [[= <-] _]].
    + split; [done|]. intros [[= <-] ?]. congruence.
  - split; [done | by intros [? _]].
Qed.

Lemma truthySolution_string (key : gmap string string) expression s :
  truthySolution (getSolution key expression) = Some (VString s) <->
  key !! expression = Some s /\ s <> EmptyString.
Proof.
  rewrite truthySolution_Some, getSolution_string. simpl.
  by rewrite truthy_true.
Qed.

(** [if (!solution)]: the entry is empty, or there is none and the name is
    not one of [Object.prototype]. *)
Lemma truthySolution_None (key : gmap string string) expression :
  truthySolution (getSolution key expression) = None <->
  key !! expression = Some EmptyString \/
  (key !! expression = None /\ objectPrototype expression = None).
Proof.
  unfold getSolution. destruct (key !! expression) as [[|c s]|] eqn:Hown; simpl.
  - split; [by left | done].
  - split; [done | by intros [[=] | [[=] _]]].
  - destruct (objectPrototype expression) as [v|] eqn:Hv; simpl.
    + apply objectPrototype_object in Hv as [-> _].
      split; [done | by intros [[=] | [_ [=]]]].
    + split; [by right | done].
Qed.

Lemma guessMatches_true guess solution :
  guessMatches guess solution = Return true <->
  exists s, solution = Some (VString s) /\ s <> EmptyString /\
            JS.trim (JS.toLowerCase guess) = JS.trim (JS.toLowerCase s).
Proof.
  unfold guessMatches. destruct solution as [[s|name|]|].
  - split.
    + intros [= H]. apply andb_true_iff in H as [Hne Hsame].
      apply truthy_true in Hne. apply bool_decide_eq_true in Hsame. by exists s.
    + intros (s' & [= <-] & Hne & Hsame). f_equal.
      apply andb_true_iff. split; [by apply truthy_true|].
      by apply bool_decide_eq_true.
  - split; [done | by intros (s & [=] & _)].
  - split; [done | by intros (s & [=] & _)].
  - split; [done | by intros (s & [=] & _)].
Qed.


(** [find] returns the first expression of that name. *)
Lemma findExpression_Some available expression e :
  findExpression available expression = Some e <->
  exists before after,
    available = before ++ e :: after /\ expr_expression e = expression /\
    forall e', e' ∈ before -> expr_expression e' <> expression.
Proof.
  unfold findExpression. induction available as [|x available IH]; simpl.
  { split; [done|]. intros (before & after & H & _). by destruct before. }
  destruct (bool_decide (expr_expression x = expression)) eqn:Hx.
  - apply bool_decide_eq_true in Hx. split.
    + intros [= <-]. exists [], available. split_and!; [done..|]. set_solver.
    + intros ([|y before] & after & Heq & He & Hfirst); simplify_eq/=; [done|].
      exfalso. eapply Hfirst; [left|done].
  - apply bool_decide_eq_false in Hx. rewrite IH. split.
    + intros (before & after & -> & He & Hfirst).
      exists (x :: before), after. split_and!; [done..|].
      intros e' [->|?]%elem_of_cons; auto.
    + intros ([|y before] & after & Heq & He & Hfirst); simplify_eq/=.
      exists before, after. split_and!; [done..|].
      intros e' He'. apply Hfirst. by right.
Qed.

Lemma findExpression_None available expression :
  findExpression available expression = None <->
  forall e, e ∈ available -> expr_expression e <> expression.
Proof.
  unfold findExpression. induction available as [|x available IH]; simpl.
  { split; [|done]. intros _ e He. by apply elem_of_nil in He. }
  destruct (bool_decide (expr_expression x = expression)) eqn:Hx.
  - apply bool_decide_eq_true in Hx. split; [done|].
    intros H. exfalso. eapply H; [left|done].
  - apply bool_decide_eq_false in Hx. rewrite IH. split.
    + intros H e [->|?]%elem_of_cons; auto.
    + intros H e He. apply H. by right.
Qed.

Lemma findExpression_is_Some available expression :
  is_Some (findExpression available expression) <->
  exists e, e ∈ available /\ expr_expression e = expression.
Proof.
  split.
  - intros [e (before & after & -> & He & _)%findExpression_Some].
    exists e. split; [set_solver | done].
  - intros (e & Hin & He).
    destruct (findExpression available expression) eqn:Hfind; [by eexists|].
    exfalso. eapply findExpression_None; eauto.
Qed.

(** The matching loop stops at the first expression whose solution matches
    the guess, runs to the end when there is none, and throws when it meets
    an object before a match. *)
Lemma guessLoop_Some available guess gameState puzzleData result :
  guessLoop available guess gameState puzzleData = Return (Some result) <->
  exists before e after solution,
    available = before ++ e :: after /\
    (forall e', e' ∈ before ->
       guessMatches guess (getSolution (solutions puzzleData) (expr_expression e'))
       = Return false) /\
    solutions puzzleData !! expr_expression e = Some solution /\
    guessMatches guess (Some (VString solution)) = Return true /\
    GuessResult.success result = true /\
    GuessResult.gameState result = resolved gameState e solution /\
    GuessResult.message result
    = "Correct! " +:+ JS.dq +:+ expr_expression e +:+ JS.dq +:+ " = " +:+
      JS.dq +:+ solution +:+ JS.dq.
Proof.
  induction available as [|x available IH]; simpl.
  { split; [done|]. intros (before & ? & ? & ? & H & _). by destruct before. }
  destruct (guessMatches guess
              (getSolution (solutions puzzleData) (expr_expression x)))
    as [[]|] eqn:Hx.
  - pose proof Hx as (solution & Hsol & Hne & Hsame)%guessMatches_true.
    rewrite Hsol. rewrite Hsol in Hx. apply getSolution_string in Hsol. split.
    + intros [= <-]. exists [], x, available, solution. simpl.
      split_and!; try done. set_solver.
    + intros ([|y before] & e & after & solution' & Heq & Hfirst & Hsol' & Hm
              & Hs & Hg & Hmsg); simplify_eq/=.
      * destruct result as [s m g]; simpl in *. by subst.
      * pose proof (Hfirst y ltac:(left)) as Hno.
        rewrite (getSolution_own _ _ _ Hsol) in Hno. congruence.
  - rewrite IH. split.
    + intros (before & e & after & solution & -> & Hfirst & Hrest).
      exists (x :: before), e, after, solution. split_and!; try tauto.
      intros e' [->|?]%elem_of_cons; auto.
    + intros ([|y before] & e & after & solution & Heq & Hfirst & Hsol & Hm
              & Hrest); simplify_eq/=.
      { rewrite (getSolution_own _ _ _ Hsol) in Hx. congruence. }
      exists before, e, after, solution. split_and!; try tauto.
      intros e' He'. apply Hfirst. by right.
  - split; [done|].
    intros ([|y before] & e & after & solution & Heq & Hfirst & Hsol & Hm & _);
      simplify_eq/=.
    + rewrite (getSolution_own _ _ _ Hsol) in Hx. congruence.
    + pose proof (Hfirst y ltac:(left)) as Hno. congruence.
Qed.

Lemma guessLoop_None available guess gameState puzzleData :
  guessLoop available guess gameState puzzleData = Return None <->
  forall e, e ∈ available ->
    guessMatches guess (getSolution (solutions puzzleData) (expr_expression e))
    = Return false.
Proof.
  induction available as [|x available IH]; simpl.
  { split; [|done]. intros _ e He. by apply elem_of_nil in He. }
  destruct (guessMatches guess
              (getSolution (solutions puzzleData) (expr_expression x)))
    as [[]|] eqn:Hx.
  - split; [done|]. intros H. rewrite H in Hx; [done | left].
  - rewrite IH. split.
    + intros H e [->|?]%elem_of_cons; auto.
    + intros H e He. apply H. by right.
  - split; [done|]. intros H. rewrite H in Hx; [done | left].
Qed.


Lemma guessLoop_success available guess gameState puzzleData result :
  guessLoop available guess gameState puzzleData = Return (Some result) ->
  GuessResult.success result = true.
Proof. by intros (? & ? & ? & ? & _ & _ & _ & _ & ? & _)%guessLoop_Some. Qed.

(** A guess returns a success exactly when its loop returns early. *)
Lemma makeGuess_success expression guess gameState puzzleData result :
  makeGuess expression guess gameState puzzleData = Return result /\
  GuessResult.success result = true <->
  guessLoop (findAvailableExpressions gameState) guess gameState puzzleData
  = Return (Some result).
Proof.
  unfold makeGuess.
  destruct (guessLoop _ _ _ _) as [[r|]|] eqn:Hloop.
  - apply guessLoop_success in Hloop. split.
    + by intros [[= <-] _].
    + intros [= <-]. done.
  - split; [|done]. intros [Hret Hs]. exfalso.
    repeat case_match; simplify_eq; simpl in Hs; discriminate.
  - split; [by intros [? _] | done].
Qed.

(** A guess that returns a failure has run its loop to the end. *)
Lemma makeGuess_failure expression guess gameState puzzleData result :
  makeGuess expression guess gameState puzzleData = Return result ->
  GuessResult.success result = false ->
  guessLoop (findAvailableExpressions gameState) guess gameState puzzleData
  = Return None /\
  GuessResult.gameState result = gameState.
Proof.
  unfold makeGuess.
  destruct (guessLoop _ _ _ _) as [[r|]|] eqn:Hloop.
  - apply guessLoop_success in Hloop. intros [= <-]. congruence.
  - intros Hret _. split; [done|]. by repeat case_match; simplify_eq.
  - done.
Qed.



(** ** Actions: claims *)

(** [activeIn] on a concrete document: name the window and let the scanner
    run. *)
Ltac show_active e :=
  exists e; split; [apply list_elem_of_In; vm_compute; auto 10 | reflexivity].




(** With the clue "toString" before the clue the guess is right for, and no
    entry for it in the answer key, the guess throws: the loop reads the
    built-in function and calls [toLowerCase] on it.  With an entry for it
    the guess succeeds. *)
Example makeGuess_throws_on_builtin_name :
  let gameState := stateOf "[toString] [France]" in
  makeGuess "France" "paris" gameState (keyOf {[ "France" := "Paris" ]}) = Throw /\
  GuessResult.success <$>
    returned (makeGuess "France" "paris" gameState
                (keyOf {[ "toString" := "text"; "France" := "Paris" ]}))
  = Some true.
Proof. split; reflexivity. Qed.

(** C6.  Guess, Hint and Reveal are all-or-nothing: an outcome with
    [success = false] carries the input state itself, so every field of the
    puzzle state is the one of the input. *)
Theorem actions_all_or_nothing (engine : Engine) (expression guess : string)
    (gameState : GameState) (puzzleData : PuzzleData) :
  (forall result,
     makeGuess expression guess gameState puzzleData = Return result ->
     GuessResult.success result = false ->
     GuessResult.gameState result = gameState) /\
  (forall result,
     getHint expression gameState puzzleData = Return result ->
     HintResult.success result = false ->
     HintResult.gameState result = gameState) /\
  (RevealResult.success (revealClue engine expression gameState puzzleData) = false ->
   RevealResult.gameState (revealClue engine expression gameState puzzleData)
   = gameState).
Proof.
  split_and!.
  - intros result Hret Hs. by destruct (makeGuess_failure _ _ _ _ _ Hret Hs).
  - intros result. unfold getHint. by repeat case_match; intros [= <-].
  - unfold revealClue. by repeat case_match.
Qed.

(** A wrong guess, a hint for a clue that is not active and a reveal of a
    clue without solution leave the state as it was. *)
Lemma actions_all_or_nothing_witness :
  let gameState := stateOf "The capital of [France]" in
  let puzzleData := keyOf {[ "France" := "Paris"; "Spain" := "Madrid" ]} in
  (exists result,
     makeGuess "France" "Rome" gameState puzzleData = Return result /\
     GuessResult.success result = false /\
     GuessResult.gameState result = gameState) /\
  (exists result,
     getHint "Spain" gameState puzzleData = Return result /\
     HintResult.success result = false /\
     HintResult.gameState result = gameState) /\
  (RevealResult.success (revealClue V8 "France" gameState (keyOf ∅)) = false /\
   RevealResult.gameState (revealClue V8 "France" gameState (keyOf ∅)) = gameState).
Proof.
  intros gameState puzzleData. split_and!.
  - eexists. split; [reflexivity|]. split; [reflexivity|].
    eapply (actions_all_or_nothing V8 "France" "Rome" gameState puzzleData);
      reflexivity.
  - eexists. split; [reflexivity|]. split; [reflexivity|].
    eapply (actions_all_or_nothing V8 "Spain" "Rome" gameState puzzleData);
      reflexivity.
  - reflexivity.
  - apply (actions_all_or_nothing V8 "France" "Rome" gameState (keyOf ∅)).
    reflexivity.
Defined.








(** Revealing the clue "constructor" with an answer key that has no entry
    for it succeeds: what is read is the built-in function [Object], and its
    text, which depends on the engine, takes the place of the clue. *)
Example revealClue_reads_builtin :
  let gameState := stateOf "[constructor]" in
  let reveal engine := revealClue engine "constructor" gameState (keyOf ∅) in
  RevealResult.success (reveal V8) = true /\
  RevealResult.solution (reveal V8) = Some (VFunction "Object") /\
  displayState (RevealResult.gameState (reveal V8))
  = "function Object() { [native code] }" /\
  displayState (RevealResult.gameState (reveal JavaScriptCore))
  = "function Object() {" +:+ lf +:+ "    [native code]" +:+ lf +:+ "}".
Proof. split_and!; reflexivity. Qed.

(** ** Empty solutions *)







(** ** Run result: claims *)

(** C9 (counterexample).  The puzzle "The [] capital" has a clue, the empty
    pair, which [findActiveClues] reports and no tool call can resolve.  A
    run without any tool call ends while this clue remains, and its result
    is a success with the computed score 100 and rank "Puppet Master". *)
Lemma run_result_ignores_empty_clue :
  let puzzleData :=
    {| completionText := EmptyString; puzzleDate := "2025-05-27";
       completionURL := EmptyString;
       solutions := ∅;
       initialPuzzle := "The [] capital";
       puzzleSolution := EmptyString |} in
  (map clueWindow ∘ activeClues ∘ run_gameState) <$>
    returned (runTools V8 puzzleData [])
  = Some [(EmptyString, 4, 6)] /\
  (map clueWindow ∘ findActiveClues ∘ displayState ∘ run_gameState) <$>
    returned (runTools V8 puzzleData [])
  = Some [(EmptyString, 4, 6)] /\
  res_success <$> returned (solvePuzzleWithLLM V8 puzzleData [] 1) = Some true /\
  res_score <$> returned (solvePuzzleWithLLM V8 puzzleData [] 1) = Some 100%Z /\
  res_rank <$> returned (solvePuzzleWithLLM V8 puzzleData [] 1)
  = Some "Puppet Master".
Proof. split_and!; reflexivity. Qed.

(** C9 (amended).  The result of a run in which every tool call returns
    reports score 0 and rank "Tourist" when expressions are still available
    in the final document, that is, bracket pairs around a non-empty text
    without brackets, whatever the score computed by [calculateScore]; when
    none is left it reports the computed final score and rank.  A run in
    which a tool call throws has no result. *)
Theorem run_result_completion_gate (engine : Engine) (puzzleData : PuzzleData)
    (calls : list ToolCall) (steps : Z) :
  (forall r,
     runTools engine puzzleData calls = Return r ->
     let details :=
       calculateScore (run_gameState r) (setStepsTaken (run_stats r) steps) in
     exists result,
       solvePuzzleWithLLM engine puzzleData calls steps = Return result /\
       (findAvailableExpressions (run_gameState r) <> [] ->
        res_success result = false /\
        res_score result = 0%Z /\ res_rank result = "Tourist" /\
        finalScore (res_scoreDetails result) = 0%Z) /\
       (findAvailableExpressions (run_gameState r) = [] ->
        res_success result = true /\
        res_score result = finalScore details /\ res_rank result = rank details /\
        finalScore (res_scoreDetails result) = finalScore details)) /\
  (runTools engine puzzleData calls = Throw ->
   solvePuzzleWithLLM engine puzzleData calls steps = Throw).
Proof.
  unfold solvePuzzleWithLLM. split.
  - intros r Hr. rewrite Hr. cbn zeta. eexists. split; [reflexivity|].
    cbn [res_success res_score res_rank res_scoreDetails finalScore].
    destruct (findAvailableExpressions _) as [|e l]; simpl; split; done.
  - by intros ->.
Qed.

(** A run without any tool call is incomplete and gets score 0 although the
    computed score is 100; the run that guesses the only clue gets the
    computed score. *)
Lemma run_result_completion_gate_witness :
  let puzzleData :=
    {| completionText := EmptyString; puzzleDate := "2025-05-27";
       completionURL := EmptyString;
       solutions := {[ "France" := "Paris" ]};
       initialPuzzle := "The capital of [France]";
       puzzleSolution := "The capital of Paris" |} in
  (exists result,
     solvePuzzleWithLLM V8 puzzleData [] 1 = Return result /\
     finalScore (calculateScore (initializeGameState puzzleData)
                   (mkStats 0 0 1 0 0 1)) = 100%Z /\
     res_score result = 0%Z /\ res_rank result = "Tourist") /\
  (exists result,
     solvePuzzleWithLLM V8 puzzleData [CallMakeGuess "France" "paris"] 2
     = Return result /\
     res_score result = 100%Z /\ res_rank result = "Puppet Master").
Proof.
  intros puzzleData.
  destruct (run_result_completion_gate V8 puzzleData [] 1) as [Hincomplete _].
  destruct (run_result_completion_gate V8 puzzleData
              [CallMakeGuess "France" "paris"] 2) as [Hcomplete _].
  destruct (Hincomplete _ eq_refl) as (result & Hret & Hgate & _).
  destruct (Hcomplete _ eq_refl) as (result' & Hret' & _ & Hgate').
  destruct Hgate as (_ & Hscore & Hrank & _); [discriminate|].
  destruct Hgate' as (_ & Hscore' & Hrank' & _); [reflexivity|].
  split.
  - exists result. split_and!; [exact Hret | reflexivity | exact Hscore | exact Hrank].
  - exists result'. split_and!; [exact Hret' | exact Hscore' | exact Hrank'].
Defined.

(** * Further properties *)

(** ** The recursive scanner on any document *)

Lemma scanSpan_nested_true rest : forall i d acc,
  ss_hasNestedBrackets (scanSpan rest i d true acc) = true.
Proof.
  induction rest as [|c rest IH]; intros i [|d] acc; simpl; try done.
  destruct (isOpen c); [|destruct (isClose c)]; apply IH.
Qed.

Lemma dropLast_cons c l :
  dropLast (c :: l) = match l with [] => [] | _ :: _ => c :: dropLast l end.
Proof.
  unfold dropLast. destruct l as [|x l]; [done|]. simpl.
  by rewrite Nat.sub_0_r.
Qed.

(** A span without nested bracket: what was read, but its last code unit,
    has no bracket. *)
Lemma scanSpan_flat rest : forall i acc,
  ss_hasNestedBrackets (scanSpan rest i 1 false acc) = false ->
  exists consumed,
    ss_innerContent (scanSpan rest i 1 false acc) = acc ++ consumed /\
    bracketFree (dropLast consumed) = true.
Proof.
  induction rest as [|c rest IH]; intros i acc; simpl.
  { exists []. by rewrite app_nil_r. }
  destruct (isOpen c) eqn:Ho; [|destruct (isClose c) eqn:Hc].
  - by rewrite scanSpan_nested_true.
  - rewrite scanSpan_zero. simpl. intros _. by exists [c].
  - intros Hflat. destruct (IH _ _ Hflat) as (consumed & -> & Hfree).
    exists (c :: consumed). rewrite <- app_assoc. split; [done|].
    rewrite dropLast_cons. destruct consumed; [done|].
    simpl. unfold isBracket. rewrite Ho, Hc. simpl. exact Hfree.
Qed.

Lemma dropLast_split l : exists last, l = dropLast l ++ last /\ length last <= 1.
Proof.
  exists (drop (length l - 1) l). unfold dropLast. rewrite take_drop.
  split; [done|]. rewrite length_drop. lia.
Qed.

(** Every clue pushed by [findClues] sits in the document that
    [findActiveClues] was called on; [str] is the part of it from
    [startOffset] on that this call works on. *)
Lemma findClues_shape document fuel :
  forall str rest i startOffset acc found pre scanned post,
    document = pre ++ str ++ post ->
    length pre = startOffset ->
    str = scanned ++ rest ->
    length scanned = i ->
    Forall (clueShape document) acc ->
    findClues fuel str rest i startOffset acc = Some found ->
    Forall (clueShape document) found.
Proof.
  induction fuel as [|fuel IH];
    intros str rest i startOffset acc found pre scanned post Hdoc Hpre Hstr Hi Hacc;
    [done|].
  destruct rest as [|c rest]; simpl; [by intros [= <-]|].
  destruct (isOpen c) eqn:Ho.
  2:{ apply (IH str rest (S i) startOffset acc found pre (scanned ++ [c]) post);
        auto.
      - by rewrite <- app_assoc.
      - rewrite length_app. simpl. lia. }
  apply isOpen_true in Ho as ->.
  destruct (scanSpan_consumed rest (S i) 1 false [])
    as (consumed & Hrest & Hin & Hsi).
  simpl in Hin. rewrite Hin, Hsi.
  set (tl := ss_rest (scanSpan rest (S i) 1 false [])) in *.
  assert (str = (scanned ++ "["%char :: consumed) ++ tl) as Hstr'.
  { rewrite Hstr, Hrest, <- app_assoc. done. }
  assert (length (scanned ++ "["%char :: consumed) = S i + length consumed) as Hi'.
  { rewrite length_app. simpl. lia. }
  destruct (negb _) eqn:Hnested.
  - (* an active clue *)
    apply negb_true_iff in Hnested.
    destruct (scanSpan_flat _ _ _ Hnested) as (consumed' & Hin' & Hfree).
    simpl in Hin'. rewrite Hin in Hin'. subst consumed'.
    apply (IH str tl _ startOffset _ found pre _ post Hdoc Hpre Hstr' Hi').
    apply Forall_app. split; [done|]. constructor; [|done].
    exists (pre ++ scanned), consumed, (tl ++ post). simpl.
    rewrite length_app. split_and!; try done; try lia.
    + rewrite Hdoc, Hstr, Hrest, <- !app_assoc. simpl. by rewrite <- app_assoc.
    + rewrite Hstr, Hrest, <- Hi, drop_app_length.
      replace (S (length scanned + length consumed) - length scanned)
        with (S (length consumed)) by lia.
      cbn [take]. by rewrite take_app_length.
  - (* nested brackets: the clues inside, then the rest *)
    destruct (findClues fuel (dropLast consumed) (dropLast consumed) 0
                (startOffset + i + 1) acc) as [acc'|] eqn:Hinner; [|done].
    destruct (dropLast_split consumed) as (last & Hsplit & _).
    apply (IH str tl _ startOffset _ found pre _ post Hdoc Hpre Hstr' Hi').
    apply (IH (dropLast consumed) (dropLast consumed) 0 (startOffset + i + 1) acc
             acc' (pre ++ scanned ++ ["["%char]) [] (last ++ tl ++ post)); auto.
    + rewrite Hdoc, Hstr, Hrest. rewrite Hsplit at 1.
      rewrite <- !app_assoc. simpl. by rewrite <- !app_assoc.
    + rewrite !length_app. simpl. lia.
Qed.

Lemma length_chars s : length (JS.chars s) = String.length s.
Proof. induction s as [|c s IH]; simpl; by f_equal. Qed.

Lemma findActiveClues_clueShape puzzleText :
  Forall (clueShape (JS.chars puzzleText)) (findActiveClues puzzleText).
Proof.
  pose proof (findActiveClues_opt_Some puzzleText) as Hrun.
  unfold findActiveClues_opt in Hrun.
  eapply (findClues_shape (JS.chars puzzleText) _ _ _ _ _ [] _ [] [] []) in Hrun;
    [done|by rewrite app_nil_r|done|done|done|constructor].
Qed.

(** X1.  Whatever the document, balanced or not, a clue returned by
    [findActiveClues] has a non-empty window inside the document, its text
    is the document over that window and begins with an opening bracket, and
    its expression is the text without its first and last code unit and
    contains no bracket. *)
Theorem findActiveClues_clue_shape (puzzleText : string) (c : Clue) :
  c ∈ findActiveClues puzzleText ->
  start c < end_ c /\ end_ c <= String.length puzzleText /\
  text c = JS.slice puzzleText (start c) (end_ c) /\
  JS.slice (text c) 0 1 = "[" /\
  expression c = JS.slice (text c) 1 (String.length (text c) - 1) /\
  bracketFree (JS.chars (expression c)) = true.
Proof.
  intros Hin.
  pose proof (findActiveClues_clueShape puzzleText) as Hrun.
  rewrite Forall_forall in Hrun.
  destruct (Hrun c Hin) as (before & raw & after & Hdoc & Hs & He & Ht & Hx & Hfree).
  rewrite <- length_chars, Hdoc, Hs, He, Ht, Hx, !length_app. simpl.
  rewrite length_app. split_and!; try lia.
  - unfold JS.slice. rewrite Hdoc, drop_app_length. f_equal.
    replace (length before + 1 + length raw - length before)
      with (S (length raw)) by lia.
    cbn [take]. by rewrite take_app_length.
  - done.
  - unfold JS.slice. change (String "[" (JS.str raw)) with (JS.str ("["%char :: raw)).
    rewrite chars_str, <- length_chars, chars_str. simpl.
    by rewrite !Nat.sub_0_r.
  - by rewrite chars_str.
Qed.

(** In an unbalanced document the unclosed span of the clue runs to the end
    of the text and loses its last code unit. *)
Lemma findActiveClues_clue_shape_witness :
  let c := {| start := 4; end_ := 8; text := "[cde"; expression := "cd" |} in
  c ∈ findActiveClues "[a] [cde" /\
  text c = JS.slice "[a] [cde" 4 8 /\
  expression c = JS.slice (text c) 1 (String.length (text c) - 1).
Proof.
  intros c.
  assert (c ∈ findActiveClues "[a] [cde") as Hin.
  { apply list_elem_of_In. vm_compute. auto. }
  destruct (findActiveClues_clue_shape "[a] [cde" c Hin)
    as (_ & _ & Ht & _ & Hx & _).
  split_and!; [exact Hin | exact Ht | exact Hx].
Defined.

(** The clues pushed lie between the cursor and the end of the text, after
    the ones pushed before. *)
Lemma findClues_ordered fuel :
  forall str rest i startOffset acc found,
    StronglySorted cluePrecedes acc ->
    Forall (fun c => end_ c <= startOffset + i) acc ->
    findClues fuel str rest i startOffset acc = Some found ->
    StronglySorted cluePrecedes found /\
    Forall (fun c => end_ c <= startOffset + i + length rest) found.
Proof.
  induction fuel as [|fuel IH]; intros str rest i startOffset acc found Hsorted Hends;
    [done|].
  destruct rest as [|c rest]; simpl.
  { intros [= <-]. split; [done|]. by rewrite Nat.add_0_r. }
  destruct (isOpen c).
  2:{ intros Hrun. apply IH in Hrun as [? Hends']; [| done |].
      - split; [done|]. eapply Forall_impl; [exact Hends'|]. simpl. lia.
      - eapply Forall_impl; [exact Hends|]. simpl. lia. }
  destruct (scanSpan_consumed rest (S i) 1 false [])
    as (consumed & Hrest & Hin & Hsi).
  simpl in Hin. rewrite Hin, Hsi.
  set (tl := ss_rest (scanSpan rest (S i) 1 false [])) in *.
  assert (length rest = length consumed + length tl) as Hlen
    by (rewrite Hrest at 1; by rewrite length_app).
  destruct (negb _).
  - intros Hrun. apply IH in Hrun as [? Hends'].
    + split; [done|]. eapply Forall_impl; [exact Hends'|]. simpl. lia.
    + apply StronglySorted_app_2; [|done|repeat constructor].
      intros c1 c2 Hc1 ->%list_elem_of_singleton.
      rewrite Forall_forall in Hends. specialize (Hends c1 Hc1).
      unfold cluePrecedes. simpl. lia.
    + apply Forall_app. split.
      * eapply Forall_impl; [exact Hends|]. simpl. lia.
      * constructor; [simpl; lia | constructor].
  - destruct (findClues fuel (dropLast consumed) (dropLast consumed) 0
                (startOffset + i + 1) acc) as [acc'|] eqn:Hinner; [|done].
    apply IH in Hinner as [Hsorted' Hends'];
      [|done|eapply Forall_impl; [exact Hends|]; simpl; lia].
    pose proof (dropLast_length consumed).
    intros Hrun. apply IH in Hrun as [? Hends''].
    + split; [done|]. eapply Forall_impl; [exact Hends''|]. simpl. lia.
    + done.
    + eapply Forall_impl; [exact Hends'|]. simpl. lia.
Qed.

(** X2.  Whatever the document, the clues of [findActiveClues] come in
    document order with pairwise disjoint windows: each one ends before the
    next begins; no window is reported twice. *)
Theorem findActiveClues_ordered (puzzleText : string) :
  StronglySorted cluePrecedes (findActiveClues puzzleText) /\
  NoDup (map (fun c => (start c, end_ c)) (findActiveClues puzzleText)).
Proof.
  pose proof (findActiveClues_opt_Some puzzleText) as Hrun.
  unfold findActiveClues_opt in Hrun.
  apply findClues_ordered in Hrun as [Hsorted _]; [|constructor..].
  split; [done|].
  assert (Forall (fun c => start c < end_ c) (findActiveClues puzzleText)) as Hne.
  { eapply Forall_impl; [apply findActiveClues_clueShape|]. simpl.
    intros c (before & raw & after & _ & -> & -> & _). lia. }
  induction Hsorted as [|c l _ IH Hall]; [constructor|].
  apply Forall_cons in Hne as [Hc Hne]. simpl. constructor; [|by apply IH].
  intros (c' & [= Hs He] & Hc')%list_elem_of_fmap.
  rewrite Forall_forall in Hall. specialize (Hall c' Hc').
  unfold cluePrecedes in Hall. lia.
Qed.

(** ** The recursive scanner on balanced documents *)

Lemma bracketFree_no_open l : bracketFree l = true -> existsb isOpen l = false.
Proof.
  induction l as [|c l IH]; simpl; [done|].
  intros [Hc Hl]%andb_true_iff. apply negb_true_iff, isBracket_false in Hc as [-> _].
  by apply IH.
Qed.

(** On a balanced text every clue pushed is a closed pair, and none is
    pushed only when the text has no opening bracket. *)
Lemma findClues_Balanced s : Balanced s ->
  forall fuel str i startOffset acc scanned,
    str = scanned ++ s -> length scanned = i -> length s < fuel ->
    exists found,
      findClues fuel str s i startOffset acc = Some (acc ++ found) /\
      Forall (fun c => text c = "[" +:+ expression c +:+ "]") found /\
      (found = [] <-> existsb isOpen s = false).
Proof.
  induction 1 as [|c l Hc _ IH|inner rest Hinner IHinner Hrest IHrest];
    intros [|fuel] str i startOffset acc scanned Hstr Hi Hlen;
    simpl in Hlen; try lia.
  - exists []. simpl. by rewrite app_nil_r.
  - apply isBracket_false in Hc as [Ho Hc]. simpl. rewrite Ho.
    apply (IH fuel str (S i) startOffset acc (scanned ++ [c])); [| |lia].
    + by rewrite <- app_assoc.
    + rewrite length_app. simpl. lia.
  - rewrite length_app in Hlen. simpl in Hlen.
    simpl. rewrite scanSpan_pair by done. simpl. rewrite dropLast_snoc.
    assert (str = (scanned ++ "["%char :: inner ++ ["]"%char]) ++ rest) as Hstr'.
    { rewrite Hstr, <- !app_assoc. simpl. by rewrite <- app_assoc. }
    assert (length (scanned ++ "["%char :: inner ++ ["]"%char])
            = S (i + length inner + 1)) as Hi'.
    { rewrite length_app. simpl. rewrite length_app. simpl. lia. }
    destruct (existsb isOpen inner) eqn:Hopen; simpl.
    + destruct (IHinner fuel inner 0 (startOffset + i + 1) acc [])
        as (f1 & -> & Hclosed1 & Hnil1); [done | done | lia |].
      destruct (IHrest fuel str _ startOffset (acc ++ f1) _ Hstr' Hi')
        as (f2 & -> & Hclosed2 & Hnil2); [lia|].
      exists (f1 ++ f2). rewrite <- app_assoc. split_and!; [done | |].
      * by apply Forall_app.
      * split; [|done]. intros [-> _]%app_eq_nil.
        destruct Hnil1 as [Hnil1 _]. specialize (Hnil1 eq_refl). congruence.
    + match goal with
      | |- context [findClues fuel str rest ?j startOffset (acc ++ [?cl])] =>
          destruct (IHrest fuel str j startOffset (acc ++ [cl]) _ Hstr' Hi')
            as (f2 & -> & Hclosed2 & _); [lia|];
          exists (cl :: f2)
      end.
      rewrite <- app_assoc. split_and!; [done | | done].
      constructor; [|done]. simpl.
      rewrite Hstr, <- Hi, drop_app_length.
      replace (S (length scanned + length inner + 1) - length scanned)
        with (S (length (inner ++ ["]"%char])))
        by (rewrite length_app; simpl; lia).
      cbn [take]. change ("]"%char :: rest) with (["]"%char] ++ rest).
      rewrite (app_assoc inner ["]"%char] rest), take_app_length.
      change ("["%char :: inner ++ ["]"%char])
        with (["["%char] ++ inner ++ ["]"%char]).
      by rewrite !str_app.
Qed.

Lemma findActiveClues_Balanced puzzleText :
  balanced puzzleText = true ->
  Forall (fun c => text c = "[" +:+ expression c +:+ "]")
    (findActiveClues puzzleText) /\
  (findActiveClues puzzleText = [] <->
   existsb isOpen (JS.chars puzzleText) = false).
Proof.
  intros Hbal%balanced_Balanced.
  destruct (findClues_Balanced _ Hbal (S (length (JS.chars puzzleText)))
              (JS.chars puzzleText) 0 0 [] []) as (found & Hrun & Hclosed & Hnil);
    [done | done | lia |].
  pose proof (findActiveClues_opt_Some puzzleText) as Hrun'.
  unfold findActiveClues_opt in Hrun'. rewrite Hrun in Hrun'.
  injection Hrun' as <-. done.
Qed.

Lemma length_str l : String.length (JS.str l) = length l.
Proof. by rewrite <- length_chars, chars_str. Qed.

(** X3.  In a balanced document every clue of [findActiveClues] is a closed
    bracket pair: its text, which is the document over its window, is its
    expression in brackets, and the window is two code units longer than
    the expression. *)
Theorem findActiveClues_balanced_closed (puzzleText : string) (c : Clue) :
  balanced puzzleText = true ->
  c ∈ findActiveClues puzzleText ->
  JS.slice puzzleText (start c) (end_ c) = "[" +:+ expression c +:+ "]" /\
  text c = "[" +:+ expression c +:+ "]" /\
  end_ c = start c + String.length (expression c) + 2.
Proof.
  intros Hbal Hin.
  destruct (findActiveClues_Balanced _ Hbal) as [Hclosed _].
  rewrite Forall_forall in Hclosed. specialize (Hclosed c Hin).
  pose proof (findActiveClues_clueShape puzzleText) as Hshape.
  rewrite Forall_forall in Hshape.
  destruct (Hshape c Hin) as (before & raw & after & Hdoc & Hs & He & Ht & Hx & _).
  assert (JS.slice puzzleText (start c) (end_ c) = text c) as Hslice.
  { unfold JS.slice. rewrite Hdoc, Hs, He, Ht, drop_app_length. f_equal.
    replace (length before + 1 + length raw - length before)
      with (S (length raw)) by lia.
    cbn [take]. by rewrite take_app_length. }
  split_and!; [by rewrite Hslice | done |].
  apply (f_equal String.length) in Hclosed.
  rewrite Ht in Hclosed. rewrite length_str in Hclosed.
  rewrite <- !length_chars, !chars_app, !length_app, !length_chars in Hclosed.
  simpl in Hclosed. lia.
Qed.

Lemma findActiveClues_balanced_closed_witness :
  let c := {| start := 3; end_ := 6; text := "[b]"; expression := "b" |} in
  balanced "[a [b] c]" = true /\
  c ∈ findActiveClues "[a [b] c]" /\
  JS.slice "[a [b] c]" 3 6 = "[" +:+ expression c +:+ "]".
Proof.
  intros c.
  assert (c ∈ findActiveClues "[a [b] c]") as Hin.
  { apply list_elem_of_In. vm_compute. auto. }
  destruct (findActiveClues_balanced_closed "[a [b] c]" c eq_refl Hin)
    as (Hslice & _).
  split_and!; [reflexivity | exact Hin | exact Hslice].
Defined.

(** X4.  In a balanced document [findActiveClues] returns no clue exactly
    when the document contains no bracket at all: this is when the tools
    report zero clues remaining. *)
Theorem findActiveClues_balanced_none (puzzleText : string) :
  balanced puzzleText = true ->
  (findActiveClues puzzleText = [] <->
   bracketFree (JS.chars puzzleText) = true).
Proof.
  intros Hbal. destruct (findActiveClues_Balanced _ Hbal) as [_ ->].
  split; [|apply bracketFree_no_open].
  by apply Balanced_no_open, balanced_Balanced.
Qed.

Lemma findActiveClues_balanced_none_witness :
  balanced "The capital of Paris" = true /\
  findActiveClues "The capital of Paris" = [] /\
  balanced "The [] capital" = true /\
  findActiveClues "The [] capital" <> [].
Proof.
  split_and!; [reflexivity | | reflexivity | ].
  - apply (findActiveClues_balanced_none "The capital of Paris"); reflexivity.
  - intros Hnil.
    apply (findActiveClues_balanced_none "The [] capital") in Hnil;
      [discriminate | reflexivity].
Defined.

(** ** The regular-expression scanner on any document *)

(** X5.  Whatever the document, an expression reported by
    [findAvailableExpressions] is not empty and has no bracket, and its
    window lies in the document and holds the expression in brackets. *)
Theorem findAvailableExpressions_sound (gameState : GameState) (e : Expression) :
  e ∈ findAvailableExpressions gameState ->
  JS.slice (displayState gameState) (startIndex e) (endIndex e)
  = "[" +:+ expr_expression e +:+ "]" /\
  expr_expression e <> EmptyString /\
  bracketFree (JS.chars (expr_expression e)) = true /\
  endIndex e = startIndex e + String.length (expr_expression e) + 2 /\
  endIndex e <= String.length (displayState gameState).
Proof.
  intros Hin.
  pose proof (findAvailableExpressions_windows gameState) as Hwin.
  rewrite Forall_forall in Hwin. specialize (Hwin e Hin).
  split; [by apply innermostWindow_slice|].
  destruct Hwin as (before & group & after & Hdoc & Hne & Hfree & -> & -> & ->).
  rewrite chars_str, length_str, <- length_chars, Hdoc. split_and!; try done.
  - by destruct group.
  - rewrite length_app. simpl. rewrite length_app. simpl. lia.
Qed.

Lemma findAvailableExpressions_sound_witness :
  let gameState := stateOf "x]] [[a] [b" in
  let e := mkExpression "a" 5 8 in
  e ∈ findAvailableExpressions gameState /\
  JS.slice (displayState gameState) 5 8 = "[" +:+ "a" +:+ "]".
Proof.
  intros gameState e.
  assert (e ∈ findAvailableExpressions gameState) as Hin.
  { apply list_elem_of_In. vm_compute. auto. }
  destruct (findAvailableExpressions_sound gameState e Hin) as (Hslice & _).
  split; [exact Hin | exact Hslice].
Defined.

(** X6.  The expressions of [findAvailableExpressions] come in document
    order with pairwise disjoint windows, so no start offset occurs twice
    (the [matchedPositions] guard never drops a match). *)
Theorem findAvailableExpressions_disjoint (gameState : GameState) :
  StronglySorted precedes (findAvailableExpressions gameState) /\
  NoDup (map startIndex (findAvailableExpressions gameState)).
Proof.
  pose proof (findAvailableExpressions_ordered gameState) as Hsorted.
  split; [done|].
  assert (Forall (fun e => startIndex e < endIndex e)
            (findAvailableExpressions gameState)) as Hne.
  { eapply Forall_impl; [apply findAvailableExpressions_windows|]. simpl.
    intros e (before & group & after & _ & _ & _ & _ & -> & ->). lia. }
  induction Hsorted as [|e l _ IH Hall]; [constructor|].
  apply Forall_cons in Hne as [He Hne]. simpl. constructor; [|by apply IH].
  intros (e' & Hs & He')%list_elem_of_fmap.
  rewrite Forall_forall in Hall. specialize (Hall e' He').
  unfold precedes in Hall. lia.
Qed.

(** The leftmost match is the pair looked for, or it ends before that pair
    begins. *)
Lemma exec_finds group after : group <> [] -> bracketFree group = true ->
  forall pre pos,
    exists m, exec (pre ++ "["%char :: group ++ "]"%char :: after) pos = Some m /\
      pos <= m_index m /\ m_length m = length (m_group m) + 2 /\
      ((m_index m = pos + length pre /\ m_group m = group /\ m_rest m = after) \/
       exists pre',
         m_rest m = pre' ++ "["%char :: group ++ "]"%char :: after /\
         m_index m + m_length m + length pre' = pos + length pre).
Proof.
  intros Hne Hfree. induction pre as [|c pre IH]; intros pos.
  - simpl app. destruct group as [|g group]; [done|].
    cbn [exec]. rewrite matchHere_flat by done.
    eexists. split; [done|]. simpl. split_and!; [lia | done |].
    left. split_and!; [lia | done..].
  - cbn [app exec].
    destruct (matchHere (c :: pre ++ "["%char :: group ++ "]"%char :: after))
      as [[g tl]|] eqn:Hm.
    + eexists. split; [done|]. simpl. split_and!; [lia | done |]. right.
      apply matchHere_Some in Hm as (Heq & Hg & Hgfree).
      injection Heq as -> Heq.
      change ("]"%char :: tl) with (["]"%char] ++ tl) in Heq.
      rewrite app_assoc in Heq.
      apply app_eq_app in Heq as (l & [[-> ->]|[Hl Htl]]).
      * exists l. split; [done|]. rewrite !length_app. simpl. lia.
      * destruct l as [|x l].
        { rewrite app_nil_r in Hl. simpl in Htl. subst. exists [].
          split; [done|]. rewrite length_app. simpl. lia. }
        exfalso. injection Htl as <- _.
        assert ("["%char ∈ g ++ ["]"%char]) as Hin by (rewrite Hl; set_solver).
        apply elem_of_app in Hin as [Hin|Hin%list_elem_of_singleton]; [|done].
        unfold bracketFree in Hgfree. rewrite forallb_forall in Hgfree.
        apply list_elem_of_In, Hgfree in Hin. done.
    + destruct (IH (S pos)) as (m & -> & Hpos & Hlen & Hcases).
      exists m. split; [done|]. split_and!; [lia | done |].
      destruct Hcases as [(Hi & ? & ?)|(pre' & ? & Hi)].
      * left. simpl. split_and!; [lia | done..].
      * right. exists pre'. simpl. split; [done | lia].
Qed.

Lemma execLoop_extends fuel : forall rest pos matchedPositions results found,
  execLoop fuel rest pos matchedPositions results = Some found ->
  forall e, e ∈ results -> e ∈ found.
Proof.
  induction fuel as [|fuel IH]; intros rest pos mp results found; [done|].
  simpl. destruct (exec rest pos) as [m|]; [|by intros [= <-]].
  destruct (negb _); intros Hloop e He; eapply IH; try exact Hloop; [|done].
  apply elem_of_app. by left.
Qed.

(** No innermost pair with text in it is passed over. *)
Lemma execLoop_complete group after : group <> [] -> bracketFree group = true ->
  forall fuel pre pos (matchedPositions : gset nat) results found,
    length (pre ++ "["%char :: group ++ "]"%char :: after) < fuel ->
    (forall x, x ∈ matchedPositions -> x < pos) ->
    execLoop fuel (pre ++ "["%char :: group ++ "]"%char :: after) pos
      matchedPositions results = Some found ->
    {| expr_expression := JS.str group;
       startIndex := pos + length pre;
       endIndex := pos + length pre + (length group + 2) |} ∈ found.
Proof.
  intros Hne Hfree.
  induction fuel as [|fuel IH]; intros pre pos mp results found Hlen Hmp; [lia|].
  simpl. destruct (exec_finds group after Hne Hfree pre pos)
    as (m & -> & Hpos & Hml & Hcases).
  rewrite bool_decide_eq_false_2
    by (intros Hin; specialize (Hmp _ Hin); lia).
  simpl. destruct Hcases as [(Hi & Hg & Hr)|(pre' & Hr & Hi)].
  - intros Hloop. eapply execLoop_extends; [exact Hloop|].
    apply elem_of_app. right. apply list_elem_of_singleton.
    rewrite Hi, Hml, Hg. done.
  - rewrite Hr. intros Hloop.
    apply IH in Hloop.
    + replace (pos + length pre) with (m_index m + m_length m + length pre')
        by lia.
      done.
    + rewrite !length_app in *. simpl in *. rewrite !length_app in *.
      simpl in *. lia.
    + intros x [->%elem_of_singleton|Hx]%elem_of_union; [lia|].
      specialize (Hmp x Hx). lia.
Qed.

(** X7.  Whatever the document, [findAvailableExpressions] is complete:
    every bracket pair of the document around a non-empty text without
    bracket is reported, with its offsets. *)
Theorem findAvailableExpressions_complete (gameState : GameState)
    (before group after : list ascii) :
  JS.chars (displayState gameState)
  = before ++ "["%char :: group ++ "]"%char :: after ->
  group <> [] ->
  bracketFree group = true ->
  {| expr_expression := JS.str group;
     startIndex := length before;
     endIndex := length before + length group + 2 |}
  ∈ findAvailableExpressions gameState.
Proof.
  intros Hdoc Hne Hfree.
  pose proof (scanExpressions_opt_Some gameState) as Hrun.
  unfold scanExpressions_opt in Hrun. rewrite Hdoc in Hrun.
  apply (execLoop_complete group after Hne Hfree) in Hrun;
    [| lia | set_solver].
  simpl in Hrun. by rewrite Nat.add_assoc in Hrun.
Qed.

Lemma findAvailableExpressions_complete_witness :
  mkExpression "b" 7 10
  ∈ findAvailableExpressions (stateOf "[a [] [[b]] c").
Proof.
  apply (findAvailableExpressions_complete (stateOf "[a [] [[b]] c")
           (JS.chars "[a [] [") (JS.chars "b") (JS.chars "] c")); done.
Defined.

(** ** Resolving a clue *)

(** The document after a clue is resolved: the text before its window, the
    solution, the text after its window. *)
Lemma splice_chars gameState e solution before group after :
  JS.chars (displayState gameState)
  = before ++ "["%char :: group ++ "]"%char :: after ->
  startIndex e = length before ->
  endIndex e = length before + length group + 2 ->
  JS.chars (splice gameState e solution) = before ++ JS.chars solution ++ after.
Proof.
  intros Hdoc Hs He. unfold splice, JS.slice, JS.sliceFrom.
  rewrite !chars_app, !chars_str, Hdoc, Hs, He.
  rewrite Nat.sub_0_r, drop_0, take_app_length. do 2 f_equal.
  replace ("["%char :: group ++ "]"%char :: after)
    with (("["%char :: group ++ ["]"%char]) ++ after)
    by (simpl; by rewrite <- app_assoc).
  rewrite app_assoc.
  replace (length before + length group + 2)
    with (length (before ++ "["%char :: group ++ ["]"%char]))
    by (rewrite length_app; simpl; rewrite length_app; simpl; lia).
  by rewrite drop_app_length.
Qed.

Lemma filter_bracketFree group :
  bracketFree group = true ->
  List.filter isOpen group = [] /\ List.filter isClose group = [].
Proof.
  induction group as [|c group IH]; simpl; [done|].
  intros [Hc Hg]%andb_true_iff.
  apply negb_true_iff, isBracket_false in Hc as [-> ->]. auto.
Qed.

(** Resolving an available expression takes one opening and one closing
    bracket out of the document and brings in those of the solution. *)
Lemma splice_count gameState e solution :
  e ∈ findAvailableExpressions gameState ->
  countOpen (splice gameState e solution) + 1
  = countOpen (displayState gameState) + countOpen solution /\
  countClose (splice gameState e solution) + 1
  = countClose (displayState gameState) + countClose solution.
Proof.
  intros Hin.
  pose proof (findAvailableExpressions_windows gameState) as Hwin.
  rewrite Forall_forall in Hwin.
  destruct (Hwin e Hin) as (before & group & after & Hdoc & _ & Hfree & _ & Hs & He).
  unfold countOpen, countClose.
  rewrite (splice_chars _ _ _ _ _ _ Hdoc Hs He), Hdoc.
  destruct (filter_bracketFree _ Hfree) as [Ho Hc].
  rewrite !List.filter_app. simpl. rewrite !List.filter_app, Ho, Hc. simpl.
  rewrite !length_app. simpl. lia.
Qed.

(** A reveal that succeeds has found the first clue of that name and read
    something truthy for it. *)
Lemma revealClue_success engine expression gameState puzzleData :
  RevealResult.success (revealClue engine expression gameState puzzleData) = true ->
  exists e value,
    e ∈ findAvailableExpressions gameState /\
    getSolution (solutions puzzleData) expression = Some value /\
    truthyValue value = true /\
    RevealResult.gameState (revealClue engine expression gameState puzzleData)
    = {| displayState := splice gameState e (valueText engine value);
         solvedExpressions := solvedExpressions gameState ∪ {[expression]};
         hintedExpressions := hintedExpressions gameState;
         revealedExpressions := revealedExpressions gameState ∪ {[expression]};
         activeClues :=
           findActiveClues (splice gameState e (valueText engine value));
         totalClues := totalClues gameState |}.
Proof.
  unfold revealClue.
  destruct (findExpression _ _) as [e|] eqn:Hfind; [|done].
  destruct (truthySolution _) as [value|] eqn:Hsol; [|done].
  intros _. apply truthySolution_Some in Hsol as [Hsol Htruthy].
  apply findExpression_Some in Hfind as (before & after & Hav & _ & _).
  exists e, value. split_and!; [|done..].
  rewrite Hav. apply elem_of_app. right. left.
Qed.

(** X8.  A successful guess resolves one available expression with its
    solution from the answer key, a successful reveal with what it reads for
    the expression (the entry of the key, or the text of the member of
    [Object.prototype] of that name when the key has no entry): the document
    loses exactly one opening and one closing bracket and gains the brackets
    of the text put in. *)
Theorem resolution_bracket_count (engine : Engine) (expression guess : string)
    (gameState : GameState) (puzzleData : PuzzleData) :
  (forall result,
     makeGuess expression guess gameState puzzleData = Return result ->
     GuessResult.success result = true ->
     exists e solution,
       e ∈ findAvailableExpressions gameState /\
       solutions puzzleData !! expr_expression e = Some solution /\
       let gameState' := GuessResult.gameState result in
       countOpen (displayState gameState') + 1
       = countOpen (displayState gameState) + countOpen solution /\
       countClose (displayState gameState') + 1
       = countClose (displayState gameState) + countClose solution) /\
  (RevealResult.success (revealClue engine expression gameState puzzleData) = true ->
   exists value,
     getSolution (solutions puzzleData) expression = Some value /\
     (forall solution,
        solutions puzzleData !! expression = Some solution ->
        value = VString solution) /\
     let gameState' :=
       RevealResult.gameState (revealClue engine expression gameState puzzleData) in
     countOpen (displayState gameState') + 1
     = countOpen (displayState gameState) + countOpen (valueText engine value) /\
     countClose (displayState gameState') + 1
     = countClose (displayState gameState) + countClose (valueText engine value)).
Proof.
  split.
  - intros result Hret Hs.
    pose proof (proj1 (makeGuess_success _ _ _ _ _) (conj Hret Hs)) as Hloop.
    apply guessLoop_Some in Hloop
      as (before & e & after & solution & Hav & _ & Hsol & _ & _ & Hg & _).
    assert (e ∈ findAvailableExpressions gameState) as Hin
      by (rewrite Hav; apply elem_of_app; right; left).
    exists e, solution. split; [done|]. split; [done|]. rewrite Hg.
    by apply splice_count.
  - intros (e & value & Hin & Hread & _ & Hg)%revealClue_success.
    exists value. split; [done|]. split.
    + intros solution Hsol. rewrite (getSolution_own _ _ _ Hsol) in Hread.
      congruence.
    + rewrite Hg. by apply splice_count.
Qed.

Lemma resolution_bracket_count_witness :
  let gameState := stateOf "The [big [city]] of [France]" in
  let puzzleData := keyOf {[ "city" := "town [x]"; "France" := "Paris" ]} in
  countOpen (displayState gameState) = 3 /\
  (exists result,
     makeGuess "France" "paris" gameState puzzleData = Return result /\
     countOpen (displayState (GuessResult.gameState result)) + 1 = 3 + 0) /\
  countOpen
    (displayState (RevealResult.gameState (revealClue V8 "city" gameState
                                             puzzleData))) + 1 = 3 + 1.
Proof.
  intros gameState puzzleData.
  destruct (resolution_bracket_count V8 "France" "paris" gameState puzzleData)
    as [Hguess _].
  destruct (resolution_bracket_count V8 "city" "paris" gameState puzzleData)
    as [_ Hreveal].
  destruct (Hguess _ eq_refl eq_refl) as (e & solution & _ & _ & _).
  destruct (Hreveal eq_refl) as (value & _ & Hown & Hopen' & _).
  rewrite (Hown "town [x]" eq_refl) in Hopen'.
  split_and!; [reflexivity | | exact Hopen'].
  eexists. split; reflexivity.
Defined.

(** ** Balance is preserved *)

Lemma depthScan_app l1 : forall d l2,
  depthScan d (l1 ++ l2)
  = match depthAfter d l1 with
    | Some d' => depthScan d' l2
    | None => false
    end.
Proof.
  induction l1 as [|c l1 IH]; intros d l2; simpl; [done|].
  destruct (isOpen c); [apply IH|].
  destruct (isClose c); [|apply IH].
  destruct d; [done | apply IH].
Qed.

Lemma depthAfter_shift l : forall d d' k,
  depthAfter d l = Some d' -> depthAfter (d + k) l = Some (d' + k).
Proof.
  induction l as [|c l IH]; intros d d' k; simpl.
  { by intros [= <-]. }
  destruct (isOpen c); [apply (IH (S d))|].
  destruct (isClose c); [|apply IH].
  destruct d as [|d]; [done|]. simpl. apply IH.
Qed.

Lemma depthScan_depthAfter l : forall d,
  depthScan d l = true -> depthAfter d l = Some 0.
Proof.
  induction l as [|c l IH]; intros d; simpl.
  { by intros ->%Nat.eqb_eq. }
  destruct (isOpen c); [apply IH|].
  destruct (isClose c); [|apply IH].
  destruct d; [done | apply IH].
Qed.

(** A balanced text leaves the depth of the scan as it finds it. *)
Lemma depthAfter_balanced l d : depthScan 0 l = true -> depthAfter d l = Some d.
Proof.
  intros H%depthScan_depthAfter. by apply (depthAfter_shift l 0 0 d) in H.
Qed.

Lemma depthAfter_bracketFree l d : bracketFree l = true -> depthAfter d l = Some d.
Proof.
  induction l as [|c l IH]; simpl; [done|].
  intros [Hc Hl]%andb_true_iff.
  apply negb_true_iff, isBracket_false in Hc as [-> ->]. auto.
Qed.

(** Replacing an available expression by a balanced solution neither breaks
    nor repairs the balance of the document. *)
Lemma splice_balanced gameState e solution :
  e ∈ findAvailableExpressions gameState ->
  balanced solution = true ->
  balanced (splice gameState e solution) = balanced (displayState gameState).
Proof.
  intros Hin Hsol.
  pose proof (findAvailableExpressions_windows gameState) as Hwin.
  rewrite Forall_forall in Hwin.
  destruct (Hwin e Hin) as (before & group & after & Hdoc & _ & Hfree & _ & Hs & He).
  unfold balanced in *.
  rewrite (splice_chars _ _ _ _ _ _ Hdoc Hs He), Hdoc, !depthScan_app.
  destruct (depthAfter 0 before) as [d|]; [|done].
  rewrite depthScan_app, (depthAfter_balanced (JS.chars solution) d Hsol).
  cbn [depthScan isOpen Ascii.eqb]. simpl Ascii.eqb. cbn iota.
  by rewrite depthScan_app, (depthAfter_bracketFree _ _ Hfree).
Qed.

(** The text of a member of [Object.prototype] is balanced and has one pair
    of brackets, in either engine. *)
Lemma objectPrototype_text engine key v :
  objectPrototype key = Some v ->
  balanced (valueText engine v) = true /\ countOpen (valueText engine v) = 1.
Proof.
  unfold objectPrototype. intros H.
  destruct (String.eqb key "constructor").
  { injection H as <-. by destruct engine. }
  destruct (String.eqb key "__proto__").
  { injection H as <-. done. }
  destruct (existsb _ _) eqn:Hname; [|done]. injection H as <-.
  apply existsb_exists in Hname as (name & Hin & ->%String.eqb_eq).
  simpl in Hin.
  repeat (destruct Hin as [<-|Hin]; [by destruct engine|]). done.
Qed.

(** What is read from a key with balanced solutions has a balanced text. *)
Lemma getSolution_balanced engine puzzleData expression value :
  balancedSolutions puzzleData ->
  getSolution (solutions puzzleData) expression = Some value ->
  balanced (valueText engine value) = true.
Proof.
  intros Hkey. unfold getSolution.
  destruct (solutions puzzleData !! expression) as [s|] eqn:Hsol.
  - intros [= <-]. by apply (Hkey _ _ Hsol).
  - intros Hv. by apply (objectPrototype_text engine) in Hv as [? _].
Qed.

Lemma makeGuess_balanced expression guess gameState puzzleData result :
  balancedSolutions puzzleData ->
  balanced (displayState gameState) = true ->
  makeGuess expression guess gameState puzzleData = Return result ->
  balanced (displayState (GuessResult.gameState result)) = true.
Proof.
  intros Hkey Hbal Hret. destruct (GuessResult.success result) eqn:Hs.
  - pose proof (proj1 (makeGuess_success _ _ _ _ _) (conj Hret Hs)) as Hloop.
    apply guessLoop_Some in Hloop
      as (before & e & after & solution & Hav & _ & Hsol & _ & _ & -> & _).
    cbn [resolved displayState].
    change (balanced (splice gameState e solution) = true).
    rewrite splice_balanced; [done | | by apply (Hkey _ _ Hsol)].
    rewrite Hav. apply elem_of_app. right. left.
  - by destruct (makeGuess_failure _ _ _ _ _ Hret Hs) as [_ ->].
Qed.

Lemma getHint_displayState expression gameState puzzleData result :
  getHint expression gameState puzzleData = Return result ->
  displayState (HintResult.gameState result) = displayState gameState.
Proof. unfold getHint. by repeat case_match; intros [= <-]. Qed.

Lemma revealClue_balanced engine expression gameState puzzleData :
  balancedSolutions puzzleData ->
  balanced (displayState gameState) = true ->
  balanced (displayState (RevealResult.gameState
                            (revealClue engine expression gameState puzzleData)))
  = true.
Proof.
  intros Hkey Hbal.
  destruct (RevealResult.success
              (revealClue engine expression gameState puzzleData)) eqn:Hs.
  - apply revealClue_success in Hs as (e & value & Hin & Hread & _ & ->).
    cbn [displayState]. rewrite splice_balanced; [done..|].
    by eapply getSolution_balanced.
  - unfold revealClue in *. by repeat case_match.
Qed.

(** X9.  When every solution of the answer key is balanced, Guess, Hint and
    Reveal keep a balanced document balanced, whether they succeed or
    fail. *)
Theorem actions_preserve_balance (engine : Engine) (expression guess : string)
    (gameState : GameState) (puzzleData : PuzzleData) :
  balancedSolutions puzzleData ->
  balanced (displayState gameState) = true ->
  (forall result,
     makeGuess expression guess gameState puzzleData = Return result ->
     balanced (displayState (GuessResult.gameState result)) = true) /\
  (forall result,
     getHint expression gameState puzzleData = Return result ->
     balanced (displayState (HintResult.gameState result)) = true) /\
  balanced (displayState (RevealResult.gameState
                            (revealClue engine expression gameState puzzleData)))
  = true.
Proof.
  intros Hkey Hbal. split_and!.
  - intros result. by apply makeGuess_balanced.
  - intros result Hret. by rewrite (getHint_displayState _ _ _ _ Hret).
  - by apply revealClue_balanced.
Qed.

Lemma actions_preserve_balance_witness :
  let gameState := stateOf "The [big [city]] of [France]" in
  let puzzleData := keyOf {[ "city" := "[old] town"; "France" := "Paris" ]} in
  balancedSolutions puzzleData /\
  balanced (displayState gameState) = true /\
  displayState (RevealResult.gameState (revealClue V8 "city" gameState puzzleData))
  = "The [big [old] town] of [France]" /\
  balanced (displayState (RevealResult.gameState
                            (revealClue V8 "city" gameState puzzleData))) = true.
Proof.
  intros gameState puzzleData.
  assert (balancedSolutions puzzleData) as Hkey.
  { apply map_Forall_insert_2; [reflexivity|].
    apply map_Forall_insert_2; [reflexivity|]. apply map_Forall_empty. }
  destruct (actions_preserve_balance V8 "city" "x" gameState puzzleData Hkey eq_refl)
    as (_ & _ & Hreveal).
  split_and!; [exact Hkey | reflexivity | reflexivity | exact Hreveal].
Defined.

(** ** Tool calls *)

(** What a tool call that returns has done: the state of the closures before
    and after it. *)
Lemma executeTool_makeGuess engine puzzleData r clue guess r' :
  executeTool engine puzzleData r (CallMakeGuess clue guess) = Return r' ->
  exists result,
    makeGuess clue guess (run_gameState r) puzzleData = Return result /\
    run_gameState r' = GuessResult.gameState result /\
    run_modelGuesses r'
    = run_modelGuesses r ++ [mkGuessAttempt clue guess (GuessResult.success result)] /\
    run_stats r'
    = if GuessResult.success result
      then incrCorrectGuesses (incrGuesses (run_stats r))
      else incrGuesses (run_stats r).
Proof.
  simpl. destruct (makeGuess _ _ _ _) as [result|]; [|done].
  intros Hr. exists result. split; [done|].
  destruct (GuessResult.success result); by injection Hr as <-.
Qed.

Lemma executeTool_getHint engine puzzleData r clue r' :
  executeTool engine puzzleData r (CallGetHint clue) = Return r' ->
  exists result,
    getHint clue (run_gameState r) puzzleData = Return result /\
    if HintResult.success result
    then run_gameState r' = HintResult.gameState result /\
         run_stats r' = incrHints (run_stats r) /\
         run_modelGuesses r' = run_modelGuesses r
    else r' = r.
Proof.
  simpl. destruct (getHint _ _ _) as [result|]; [|done].
  intros Hr. exists result. split; [done|].
  destruct (HintResult.success result); by injection Hr as <-.
Qed.

Lemma executeTool_revealClue engine puzzleData r clue r' :
  executeTool engine puzzleData r (CallRevealClue clue) = Return r' ->
  let result := revealClue engine clue (run_gameState r) puzzleData in
  if RevealResult.success result
  then run_gameState r' = RevealResult.gameState result /\
       run_stats r' = incrReveals (run_stats r) /\
       run_modelGuesses r' = run_modelGuesses r
  else r' = r.
Proof.
  simpl. intros Hr.
  destruct (RevealResult.success _); by injection Hr as <-.
Qed.

Lemma executeTool_balanced engine puzzleData r call r' :
  balancedSolutions puzzleData ->
  balanced (displayState (run_gameState r)) = true ->
  executeTool engine puzzleData r call = Return r' ->
  balanced (displayState (run_gameState r')) = true.
Proof.
  intros Hkey Hbal Hr. destruct call as [clue guess|clue|clue].
  - apply executeTool_makeGuess in Hr as (result & Hret & -> & _).
    by eapply makeGuess_balanced.
  - apply executeTool_getHint in Hr as (result & Hret & Hr).
    destruct (HintResult.success result); [|by subst].
    destruct Hr as (-> & _). by rewrite (getHint_displayState _ _ _ _ Hret).
  - apply executeTool_revealClue in Hr. cbn zeta in Hr.
    pose proof (revealClue_balanced engine clue _ _ Hkey Hbal) as Hb.
    destruct (RevealResult.success _); [|by subst].
    destruct Hr as (-> & _). done.
Qed.

(** ** Runs *)

Lemma runFrom_app engine puzzleData calls more : forall r,
  runFrom engine puzzleData r (calls ++ more)
  = match runFrom engine puzzleData r calls with
    | Return r' => runFrom engine puzzleData r' more
    | Throw => Throw
    end.
Proof.
  induction calls as [|call calls IH]; intros r; simpl; [done|].
  destruct (executeTool engine puzzleData r call); [apply IH | done].
Qed.

(** A run that returns has returned after each of its calls. *)
Lemma runTools_snoc engine puzzleData calls call r' :
  runTools engine puzzleData (calls ++ [call]) = Return r' <->
  exists r,
    runTools engine puzzleData calls = Return r /\
    executeTool engine puzzleData r call = Return r'.
Proof.
  unfold runTools. rewrite runFrom_app.
  destruct (runFrom engine puzzleData (startRun puzzleData) calls) as [r|]; simpl.
  - destruct (executeTool engine puzzleData r call) as [r''|] eqn:Hcall.
    + split.
      * intros [= <-]. by exists r.
      * intros (r0 & [= <-] & Hr0). congruence.
    + split; [done|]. intros (r0 & [= <-] & Hr0). congruence.
  - split; [done | by intros (? & ? & _)].
Qed.

Lemma runTools_app engine puzzleData calls more r' :
  runTools engine puzzleData (calls ++ more) = Return r' ->
  exists r,
    runTools engine puzzleData calls = Return r /\
    runFrom engine puzzleData r more = Return r'.
Proof.
  unfold runTools. rewrite runFrom_app.
  destruct (runFrom engine puzzleData (startRun puzzleData) calls) as [r|];
    [|done].
  intros Hmore. by exists r.
Qed.

(** A property of the start of a run that every tool call of the run keeps
    holds for the state the run returns. *)
Lemma runTools_invariant engine puzzleData (P : Run -> Prop) calls :
  P (startRun puzzleData) ->
  (forall r call r',
     call ∈ calls -> P r -> executeTool engine puzzleData r call = Return r' ->
     P r') ->
  forall r, runTools engine puzzleData calls = Return r -> P r.
Proof.
  intros Hstart. induction calls as [|call calls IH] using rev_ind; intros Hstep r.
  - by intros [= <-].
  - intros (r0 & Hr0 & Hcall)%runTools_snoc.
    apply (Hstep r0 call r); [apply elem_of_app; right; left | | done].
    apply IH; [|done]. intros r1 call1 r1' Hin. apply Hstep.
    apply elem_of_app. by left.
Qed.

(** X10.  In a run on a puzzle whose initial document and solutions are all
    balanced, the document stays balanced after every tool call. *)
Theorem run_stays_balanced (engine : Engine) (puzzleData : PuzzleData)
    (calls : list ToolCall) (r : Run) :
  balanced (initialPuzzle puzzleData) = true ->
  balancedSolutions puzzleData ->
  runTools engine puzzleData calls = Return r ->
  balanced (displayState (run_gameState r)) = true.
Proof.
  intros Hinit Hkey.
  apply (runTools_invariant engine puzzleData
           (fun r => balanced (displayState (run_gameState r)) = true)).
  - exact Hinit.
  - intros r0 call r' _ Hr0. by apply executeTool_balanced.
Qed.

Lemma run_stays_balanced_witness :
  let puzzleData :=
    {| completionText := EmptyString; puzzleDate := "2025-05-27";
       completionURL := EmptyString;
       solutions := {[ "city" := "[old] town"; "France" := "Paris" ]};
       initialPuzzle := "The [big [city]] of [France]";
       puzzleSolution := EmptyString |} in
  let calls :=
    [CallRevealClue "city"; CallMakeGuess "old" "x"; CallMakeGuess "x" "PARIS"] in
  exists r,
    runTools V8 puzzleData calls = Return r /\
    displayState (run_gameState r) = "The [big [old] town] of Paris" /\
    balanced (displayState (run_gameState r)) = true.
Proof.
  intros puzzleData calls. eexists. split; [reflexivity|].
  split; [reflexivity|].
  apply (run_stays_balanced V8 puzzleData calls); [reflexivity | | reflexivity].
  apply map_Forall_insert_2; [reflexivity|].
  apply map_Forall_insert_2; [reflexivity|]. apply map_Forall_empty.
Defined.

Lemma countOpen_plain solution :
  bracketFree (JS.chars solution) = true -> countOpen solution = 0.
Proof. intros H. unfold countOpen. by destruct (filter_bracketFree _ H) as [-> _]. Qed.

Lemma executeTool_open_brackets engine puzzleData r call r' :
  plainSolutions puzzleData ->
  (forall clue, call = CallRevealClue clue -> ~ readsPrototype puzzleData clue) ->
  executeTool engine puzzleData r call = Return r' ->
  (Z.of_nat (countOpen (displayState (run_gameState r')))
   + correctGuesses (run_stats r') + reveals (run_stats r')
   = Z.of_nat (countOpen (displayState (run_gameState r)))
     + correctGuesses (run_stats r) + reveals (run_stats r))%Z.
Proof.
  intros Hkey Hkeyed Hr. destruct call as [clue guess|clue|clue].
  - apply executeTool_makeGuess in Hr as (result & Hret & -> & _ & ->).
    destruct (GuessResult.success result) eqn:Hs.
    + pose proof (proj1 (makeGuess_success _ _ _ _ _) (conj Hret Hs)) as Hloop.
      apply guessLoop_Some in Hloop
        as (before & e & after & solution & Hav & _ & Hsol & _ & _ & -> & _).
      cbn [resolved displayState correctGuesses reveals incrCorrectGuesses
           incrGuesses].
      destruct (splice_count (run_gameState r) e solution) as [Hopen _];
        [rewrite Hav; apply elem_of_app; right; left|].
      rewrite (countOpen_plain solution) in Hopen by apply (Hkey _ _ Hsol).
      unfold splice in Hopen. lia.
    + by destruct (makeGuess_failure _ _ _ _ _ Hret Hs) as [_ ->].
  - apply executeTool_getHint in Hr as (result & Hret & Hr).
    destruct (HintResult.success result); [|by subst].
    destruct Hr as (-> & -> & _). by rewrite (getHint_displayState _ _ _ _ Hret).
  - apply executeTool_revealClue in Hr. cbn zeta in Hr.
    destruct (RevealResult.success _) eqn:Hs; [|by subst].
    destruct Hr as (-> & -> & _).
    apply revealClue_success in Hs as (e & value & Hin & Hread & _ & ->).
    cbn [displayState correctGuesses reveals incrReveals].
    destruct (splice_count (run_gameState r) e (valueText engine value))
      as [Hopen _]; [done|].
    assert (exists solution,
              value = VString solution /\
              solutions puzzleData !! clue = Some solution)
      as (solution & -> & Hsol).
    { destruct value as [solution|name|].
      - exists solution. split; [done | by apply getSolution_string].
      - exfalso. apply (Hkeyed clue eq_refl), getSolution_object. by eexists.
      - exfalso. apply (Hkeyed clue eq_refl), getSolution_object. by eexists. }
    cbn [valueText] in *.
    rewrite (countOpen_plain solution) in Hopen by apply (Hkey _ _ Hsol).
    lia.
Qed.

(** The count of opening brackets along a run whose reveals read entries of
    the answer key only. *)
Lemma runTools_open_brackets engine puzzleData calls r :
  plainSolutions puzzleData ->
  keyedReveals puzzleData calls ->
  runTools engine puzzleData calls = Return r ->
  (Z.of_nat (countOpen (displayState (run_gameState r)))
   + correctGuesses (run_stats r) + reveals (run_stats r)
   = Z.of_nat (countOpen (initialPuzzle puzzleData)))%Z.
Proof.
  intros Hkey Hkeyed.
  apply (runTools_invariant engine puzzleData
           (fun r => (Z.of_nat (countOpen (displayState (run_gameState r)))
                      + correctGuesses (run_stats r) + reveals (run_stats r)
                      = Z.of_nat (countOpen (initialPuzzle puzzleData)))%Z)).
  - simpl. lia.
  - intros r0 call r' Hin Hr0 Hcall.
    rewrite (executeTool_open_brackets engine puzzleData r0 call r' Hkey);
      [done | | done].
    intros clue ->. by apply Hkeyed.
Qed.

(** X11.  In a run on a puzzle whose solutions contain no bracket, and whose
    reveals read entries of the answer key only (none names a member of
    [Object.prototype] that the key has no entry for), every correct guess
    and every successful reveal takes exactly one opening bracket out of the
    document: the opening brackets left plus the correct guesses plus the
    reveals make up the opening brackets of the initial puzzle.  So such a
    run resolves at most as many clues as the puzzle has opening
    brackets. *)
Theorem run_open_brackets (engine : Engine) (puzzleData : PuzzleData)
    (calls : list ToolCall) (r : Run) :
  plainSolutions puzzleData ->
  keyedReveals puzzleData calls ->
  runTools engine puzzleData calls = Return r ->
  (Z.of_nat (countOpen (displayState (run_gameState r)))
   + correctGuesses (run_stats r) + reveals (run_stats r)
   = Z.of_nat (countOpen (initialPuzzle puzzleData)))%Z /\
  (correctGuesses (run_stats r) + reveals (run_stats r)
   <= Z.of_nat (countOpen (initialPuzzle puzzleData)))%Z.
Proof.
  intros Hkey Hkeyed Hr.
  pose proof (runTools_open_brackets _ _ _ _ Hkey Hkeyed Hr) as Hinv.
  split; [done | lia].
Qed.

Lemma run_open_brackets_witness :
  let puzzleData :=
    {| completionText := EmptyString; puzzleDate := "2025-05-27";
       completionURL := EmptyString;
       solutions := {[ "city" := "town"; "France" := "Paris" ]};
       initialPuzzle := "The [big [city]] of [France]";
       puzzleSolution := EmptyString |} in
  let calls :=
    [CallRevealClue "city"; CallMakeGuess "France" "x"; CallMakeGuess "x" "PARIS"] in
  countOpen (initialPuzzle puzzleData) = 3 /\
  exists r,
    runTools V8 puzzleData calls = Return r /\
    displayState (run_gameState r) = "The [big town] of Paris" /\
    (correctGuesses (run_stats r) + reveals (run_stats r) <= 3)%Z.
Proof.
  intros puzzleData calls. split; [reflexivity|].
  eexists. split; [reflexivity|]. split; [reflexivity|].
  apply (run_open_brackets V8 puzzleData calls); [| | reflexivity].
  - apply map_Forall_insert_2; [reflexivity|].
    apply map_Forall_insert_2; [reflexivity|]. apply map_Forall_empty.
  - intros clue Hin [_ Hp].
    apply list_elem_of_In in Hin. simpl in Hin.
    destruct Hin as [[= <-]|[[=]|[[=]|[]]]].
    vm_compute in Hp. by destruct Hp.
Defined.

(** A reveal of a clue named like a member of [Object.prototype], with no
    entry for it in the answer key, puts the text of the built-in function
    in the document and with it a new pair of brackets. *)
Example run_reveals_builtin :
  let puzzleData :=
    {| completionText := EmptyString; puzzleDate := "2025-05-27";
       completionURL := EmptyString;
       solutions := ∅;
       initialPuzzle := "[constructor]";
       puzzleSolution := EmptyString |} in
  (displayState ∘ run_gameState) <$>
    returned (runTools V8 puzzleData [CallRevealClue "constructor"])
  = Some "function Object() { [native code] }" /\
  (reveals ∘ run_stats) <$>
    returned (runTools V8 puzzleData [CallRevealClue "constructor"])
  = Some 1%Z /\
  runTools V8 puzzleData [CallGetHint "constructor"] = Throw.
Proof. split_and!; reflexivity. Qed.

(** ** What a tool call does to the sets and counters *)

Lemma makeGuess_sets expression guess gameState puzzleData result :
  makeGuess expression guess gameState puzzleData = Return result ->
  let gameState' := GuessResult.gameState result in
  hintedExpressions gameState' = hintedExpressions gameState /\
  revealedExpressions gameState' = revealedExpressions gameState /\
  totalClues gameState' = totalClues gameState /\
  if GuessResult.success result
  then exists x, solvedExpressions gameState' = solvedExpressions gameState ∪ {[x]}
  else gameState' = gameState.
Proof.
  intros Hret. destruct (GuessResult.success result) eqn:Hs.
  - pose proof (proj1 (makeGuess_success _ _ _ _ _) (conj Hret Hs)) as Hloop.
    apply guessLoop_Some in Hloop
      as (before & e & after & solution & _ & _ & _ & _ & _ & -> & _).
    simpl. split_and!; try done. by eexists.
  - by destruct (makeGuess_failure _ _ _ _ _ Hret Hs) as [_ ->].
Qed.

Lemma getHint_sets expression gameState puzzleData result :
  getHint expression gameState puzzleData = Return result ->
  let gameState' := HintResult.gameState result in
  solvedExpressions gameState' = solvedExpressions gameState /\
  revealedExpressions gameState' = revealedExpressions gameState /\
  totalClues gameState' = totalClues gameState /\
  if HintResult.success result
  then hintedExpressions gameState' = hintedExpressions gameState ∪ {[expression]}
  else gameState' = gameState.
Proof. unfold getHint. by repeat case_match; intros [= <-]. Qed.

Lemma revealClue_sets engine expression gameState puzzleData :
  let result := revealClue engine expression gameState puzzleData in
  let gameState' := RevealResult.gameState result in
  hintedExpressions gameState' = hintedExpressions gameState /\
  totalClues gameState' = totalClues gameState /\
  if RevealResult.success result
  then solvedExpressions gameState' = solvedExpressions gameState ∪ {[expression]} /\
       revealedExpressions gameState'
       = revealedExpressions gameState ∪ {[expression]}
  else gameState' = gameState.
Proof. unfold revealClue. by repeat case_match. Qed.

Lemma size_union_singleton (X : gset string) x : size (X ∪ {[x]}) <= size X + 1.
Proof.
  rewrite size_union_alt.
  pose proof (subseteq_size ({[x]} ∖ X) {[x]}
                ltac:(by apply subseteq_difference_l)) as Hle.
  rewrite size_singleton in Hle. lia.
Qed.

Lemma executeTool_countersCoverSets engine puzzleData r call r' :
  countersCoverSets r ->
  executeTool engine puzzleData r call = Return r' ->
  countersCoverSets r'.
Proof.
  intros (Hsub & Hh & Hr & Hs & Hg) Hcall. unfold countersCoverSets.
  destruct call as [clue guess|clue|clue].
  - apply executeTool_makeGuess in Hcall as (result & Hret & -> & _ & ->).
    destruct (makeGuess_sets _ _ _ _ _ Hret) as (Hhint & Hrev & _ & Hsolved).
    destruct (GuessResult.success result); simpl.
    + destruct Hsolved as [x Hsolved]. rewrite Hhint, Hrev, Hsolved.
      pose proof (size_union_singleton (solvedExpressions (run_gameState r)) x).
      split_and!; [by apply union_subseteq_l' | lia..].
    + rewrite Hsolved. split_and!; [done | lia..].
  - apply executeTool_getHint in Hcall as (result & Hret & Hcall).
    destruct (getHint_sets _ _ _ _ Hret) as (Hsolved & Hrev & _ & Hhint).
    destruct (HintResult.success result); [|by subst].
    destruct Hcall as (-> & -> & _). simpl.
    rewrite Hsolved, Hrev, Hhint.
    pose proof (size_union_singleton (hintedExpressions (run_gameState r)) clue).
    split_and!; [done | lia..].
  - apply executeTool_revealClue in Hcall. cbn zeta in Hcall.
    destruct (revealClue_sets engine clue (run_gameState r) puzzleData)
      as (Hhint & _ & Hsets).
    destruct (RevealResult.success _); [|by subst].
    destruct Hcall as (-> & -> & _). simpl.
    destruct Hsets as [Hsolved Hrev]. rewrite Hhint, Hsolved, Hrev.
    pose proof (size_union_singleton (solvedExpressions (run_gameState r)) clue).
    pose proof (size_union_singleton (revealedExpressions (run_gameState r)) clue).
    split_and!; [by apply union_mono_r | lia..].
Qed.

Lemma runTools_countersCoverSets engine puzzleData calls r :
  runTools engine puzzleData calls = Return r -> countersCoverSets r.
Proof.
  apply runTools_invariant.
  - unfold countersCoverSets. simpl. split_and!; [done | by vm_compute..].
  - intros r0 call r' _. apply executeTool_countersCoverSets.
Qed.

(** X12.  In every run the guess log lists the [makeGuess] calls in the
    order they were made; [guesses] counts them and [correctGuesses] counts
    the successful entries of the log, so that
    [0 <= correctGuesses <= guesses]; [hints] and [reveals] count successful
    calls only, so they are at most the number of hint and reveal calls; the
    total number of clues stays the size of the answer key. *)
Theorem run_statistics (engine : Engine) (puzzleData : PuzzleData)
    (calls : list ToolCall) (r : Run) :
  runTools engine puzzleData calls = Return r ->
  map (fun a => (ga_expression a, ga_guess a)) (run_modelGuesses r)
  = guessCalls calls /\
  guesses (run_stats r) = Z.of_nat (length (guessCalls calls)) /\
  correctGuesses (run_stats r)
  = Z.of_nat (length (List.filter ga_success (run_modelGuesses r))) /\
  (0 <= correctGuesses (run_stats r) <= guesses (run_stats r))%Z /\
  (0 <= hints (run_stats r) <= Z.of_nat (length (List.filter isHintCall calls)))%Z /\
  (0 <= reveals (run_stats r)
   <= Z.of_nat (length (List.filter isRevealCall calls)))%Z /\
  stats_totalClues (run_stats r) = Z.of_nat (size (solutions puzzleData)) /\
  totalClues (run_gameState r) = size (solutions puzzleData).
Proof.
  revert r. induction calls as [|call calls IH] using rev_ind; intros r'.
  { intros [= <-]. simpl. split_and!; done. }
  intros (r & Hr & Hcall)%runTools_snoc.
  destruct (IH r Hr) as (Hlog & Hguesses & Hcorrect & Hle & Hhints & Hreveals
                         & Htotal & Htotal').
  unfold guessCalls in *. rewrite omap_app, !List.filter_app, !length_app.
  destruct call as [clue guess|clue|clue]; simpl.
  - apply executeTool_makeGuess in Hcall as (result & Hret & -> & -> & ->).
    destruct (makeGuess_sets _ _ _ _ _ Hret) as (_ & _ & Htc & _).
    rewrite map_app, List.filter_app, length_app, Hlog. simpl.
    destruct (GuessResult.success result) eqn:Hs; simpl;
      split_and!; try done; try congruence; lia.
  - apply executeTool_getHint in Hcall as (result & Hret & Hcall).
    destruct (getHint_sets _ _ _ _ Hret) as (_ & _ & Htc & _).
    rewrite ?app_nil_r, ?Nat.add_0_r.
    destruct (HintResult.success result).
    + destruct Hcall as (-> & -> & ->). simpl.
      split_and!; try done; try congruence; lia.
    + subst r'. split_and!; try done; lia.
  - apply executeTool_revealClue in Hcall. cbn zeta in Hcall.
    destruct (revealClue_sets engine clue (run_gameState r) puzzleData)
      as (_ & Htc & _).
    rewrite ?app_nil_r, ?Nat.add_0_r.
    destruct (RevealResult.success _).
    + destruct Hcall as (-> & -> & ->). simpl.
      split_and!; try done; try congruence; lia.
    + subst r'. split_and!; try done; lia.
Qed.

(** Two hints for the same clue, a reveal, a wrong guess and a right one. *)
Lemma run_statistics_witness :
  let puzzleData :=
    {| completionText := EmptyString; puzzleDate := "2025-05-27";
       completionURL := EmptyString;
       solutions := {[ "city" := "town"; "France" := "Paris" ]};
       initialPuzzle := "The [big [city]] of [France]";
       puzzleSolution := EmptyString |} in
  let calls :=
    [ CallGetHint "France"; CallGetHint "France"; CallRevealClue "city";
      CallMakeGuess "France" "Rome"; CallMakeGuess "big town" "paris" ] in
  exists r,
    runTools V8 puzzleData calls = Return r /\
    map (fun a => (ga_expression a, ga_guess a)) (run_modelGuesses r)
    = [("France", "Rome"); ("big town", "paris")] /\
    map ga_success (run_modelGuesses r) = [false; true] /\
    guesses (run_stats r) = 2%Z /\
    (0 <= correctGuesses (run_stats r) <= guesses (run_stats r))%Z.
Proof.
  intros puzzleData calls. eexists. split; [vm_compute; reflexivity|].
  match goal with
  | |- context [run_stats ?r] =>
      destruct (run_statistics V8 puzzleData calls r
                  ltac:(vm_compute; reflexivity))
        as (Hlog & Hguesses & _ & Hle & _)
  end.
  split; [exact Hlog|]. split; [reflexivity|].
  split; [exact Hguesses | exact Hle].
Defined.

(** X13.  In every run each revealed expression is also among the solved
    ones, and the sets are covered by the counters: there are at most [hints]
    hinted expressions, at most [reveals] revealed ones and at most
    [correctGuesses + reveals] solved ones (an expression that occurs twice
    is counted once in a set). *)
Theorem run_sets_within_counters (engine : Engine) (puzzleData : PuzzleData)
    (calls : list ToolCall) (r : Run) :
  runTools engine puzzleData calls = Return r ->
  revealedExpressions (run_gameState r) ⊆ solvedExpressions (run_gameState r) /\
  (Z.of_nat (size (hintedExpressions (run_gameState r))) <= hints (run_stats r))%Z /\
  (Z.of_nat (size (revealedExpressions (run_gameState r)))
   <= reveals (run_stats r))%Z /\
  (Z.of_nat (size (solvedExpressions (run_gameState r)))
   <= correctGuesses (run_stats r) + reveals (run_stats r))%Z.
Proof.
  intros Hr.
  destruct (runTools_countersCoverSets engine puzzleData calls r Hr)
    as (? & ? & ? & ? & _).
  done.
Qed.

Lemma run_sets_within_counters_witness :
  let puzzleData :=
    {| completionText := EmptyString; puzzleDate := "2025-05-27";
       completionURL := EmptyString;
       solutions := {[ "city" := "town"; "France" := "Paris" ]};
       initialPuzzle := "The [big [city]] of [France]";
       puzzleSolution := EmptyString |} in
  let calls :=
    [ CallGetHint "France"; CallGetHint "France"; CallRevealClue "city";
      CallMakeGuess "France" "paris" ] in
  exists r,
    runTools V8 puzzleData calls = Return r /\
    hints (run_stats r) = 2%Z /\
    (Z.of_nat (size (hintedExpressions (run_gameState r))) <= 2)%Z /\
    revealedExpressions (run_gameState r) ⊆ solvedExpressions (run_gameState r).
Proof.
  intros puzzleData calls. eexists. split; [vm_compute; reflexivity|].
  match goal with
  | |- context [run_stats ?r] =>
      destruct (run_sets_within_counters V8 puzzleData calls r
                  ltac:(vm_compute; reflexivity))
        as (Hsub & Hhints & _)
  end.
  split_and!; [reflexivity | exact Hhints | exact Hsub].
Defined.

(** X14.  The score of a run charges expressions, not calls: the hint
    penalty is at most 5 per successful hint, the reveal penalty at most 15
    per successful reveal, the wrong-guess penalty exactly 2 per failed guess,
    and the final score is never below
    100 - 5 hints - 15 reveals - 2 (guesses - correctGuesses). *)
Theorem run_score_lower_bound (engine : Engine) (puzzleData : PuzzleData)
    (calls : list ToolCall) (steps : Z) (r : Run) :
  runTools engine puzzleData calls = Return r ->
  let stats := run_stats r in
  let details := calculateScore (run_gameState r) (setStepsTaken stats steps) in
  (peekPenalty details <= 5 * hints stats)%Z /\
  (megaPeekPenalty details <= 15 * reveals stats)%Z /\
  wrongGuessPenalty details = (2 * (guesses stats - correctGuesses stats))%Z /\
  (100 - 5 * hints stats - 15 * reveals stats
   - 2 * (guesses stats - correctGuesses stats) <= finalScore details)%Z.
Proof.
  intros Hr.
  destruct (runTools_countersCoverSets engine puzzleData calls r Hr)
    as (_ & ? & ? & _ & ?).
  unfold calculateScore. simpl. split_and!; lia.
Qed.

(** The second hint for the same clue is counted as a call but not
    charged. *)
Lemma run_score_lower_bound_witness :
  let puzzleData :=
    {| completionText := EmptyString; puzzleDate := "2025-05-27";
       completionURL := EmptyString;
       solutions := {[ "France" := "Paris" ]};
       initialPuzzle := "The capital of [France]";
       puzzleSolution := EmptyString |} in
  let calls :=
    [CallGetHint "France"; CallGetHint "France"; CallMakeGuess "France" "paris"] in
  exists r,
    runTools V8 puzzleData calls = Return r /\
    hints (run_stats r) = 2%Z /\
    finalScore (calculateScore (run_gameState r) (setStepsTaken (run_stats r) 3))
    = 95%Z /\
    (100 - 5 * hints (run_stats r) - 15 * reveals (run_stats r)
     - 2 * (guesses (run_stats r) - correctGuesses (run_stats r))
     <= finalScore (calculateScore (run_gameState r)
                      (setStepsTaken (run_stats r) 3)))%Z /\
    res_score <$> returned (solvePuzzleWithLLM V8 puzzleData calls 3) = Some 95%Z.
Proof.
  intros puzzleData calls. eexists. split; [vm_compute; reflexivity|].
  match goal with
  | |- context [run_stats ?r] =>
      destruct (run_score_lower_bound V8 puzzleData calls 3 r
                  ltac:(vm_compute; reflexivity))
        as (_ & _ & _ & Hbound)
  end.
  split_and!; [reflexivity | reflexivity | exact Hbound | reflexivity].
Defined.

Lemma executeTool_sets_grow engine puzzleData r call r' :
  executeTool engine puzzleData r call = Return r' ->
  solvedExpressions (run_gameState r) ⊆ solvedExpressions (run_gameState r') /\
  hintedExpressions (run_gameState r) ⊆ hintedExpressions (run_gameState r') /\
  revealedExpressions (run_gameState r) ⊆ revealedExpressions (run_gameState r').
Proof.
  intros Hcall. destruct call as [clue guess|clue|clue].
  - apply executeTool_makeGuess in Hcall as (result & Hret & -> & _).
    destruct (makeGuess_sets _ _ _ _ _ Hret) as (Hhint & Hrev & _ & Hsolved).
    destruct (GuessResult.success result); simpl.
    + destruct Hsolved as [x Hsolved]. rewrite Hhint, Hrev, Hsolved.
      split_and!; [apply union_subseteq_l | done..].
    + by rewrite Hsolved.
  - apply executeTool_getHint in Hcall as (result & Hret & Hcall).
    destruct (getHint_sets _ _ _ _ Hret) as (Hsolved & Hrev & _ & Hhint).
    destruct (HintResult.success result); [|by subst].
    destruct Hcall as (-> & _). rewrite Hsolved, Hrev, Hhint.
    split_and!; [done | apply union_subseteq_l | done].
  - apply executeTool_revealClue in Hcall. cbn zeta in Hcall.
    destruct (revealClue_sets engine clue (run_gameState r) puzzleData)
      as (Hhint & _ & Hsets).
    destruct (RevealResult.success _); [|by subst].
    destruct Hcall as (-> & _).
    destruct Hsets as [Hsolved Hrev]. rewrite Hhint, Hsolved, Hrev.
    split_and!; [apply union_subseteq_l | done | apply union_subseteq_l].
Qed.

(** X15.  The three sets of the game state only grow in the course of a
    run: what is solved, hinted or revealed after some tool calls is still so
    after any further calls. *)
Theorem run_sets_grow (engine : Engine) (puzzleData : PuzzleData)
    (calls more : list ToolCall) (r r' : Run) :
  runTools engine puzzleData calls = Return r ->
  runTools engine puzzleData (calls ++ more) = Return r' ->
  solvedExpressions (run_gameState r) ⊆ solvedExpressions (run_gameState r') /\
  hintedExpressions (run_gameState r) ⊆ hintedExpressions (run_gameState r') /\
  revealedExpressions (run_gameState r) ⊆ revealedExpressions (run_gameState r').
Proof.
  intros Hr. revert r'.
  induction more as [|call more IH] using rev_ind; intros r'.
  { rewrite app_nil_r, Hr. by intros [= <-]. }
  rewrite app_assoc. intros (r1 & Hr1 & Hcall)%runTools_snoc.
  destruct (IH r1 Hr1) as (Hs & Hh & Hrev).
  destruct (executeTool_sets_grow _ _ _ _ _ Hcall) as (Hs' & Hh' & Hrev').
  split_and!; etrans; done.
Qed.

Lemma run_sets_grow_witness :
  let puzzleData :=
    {| completionText := EmptyString; puzzleDate := "2025-05-27";
       completionURL := EmptyString;
       solutions := {[ "city" := "town"; "France" := "Paris" ]};
       initialPuzzle := "The [big [city]] of [France]";
       puzzleSolution := EmptyString |} in
  let calls := [CallGetHint "France"; CallRevealClue "city"] in
  let more := [CallMakeGuess "France" "paris"] in
  exists r r',
    runTools V8 puzzleData calls = Return r /\
    runTools V8 puzzleData (calls ++ more) = Return r' /\
    solvedExpressions (run_gameState r) = ∅ ∪ {[ "city" ]} /\
    solvedExpressions (run_gameState r) ⊆ solvedExpressions (run_gameState r').
Proof.
  intros puzzleData calls more. eexists _, _.
  split; [vm_compute; reflexivity|]. split; [vm_compute; reflexivity|].
  match goal with
  | |- _ /\ solvedExpressions (run_gameState ?r)
            ⊆ solvedExpressions (run_gameState ?r') =>
      destruct (run_sets_grow V8 puzzleData calls more r r'
                  ltac:(vm_compute; reflexivity) ltac:(vm_compute; reflexivity))
        as (Hsolved & _)
  end.
  split; [reflexivity | exact Hsolved].
Defined.

(** ** Scoring *)

Lemma calculateRank_rankOfScore finalScore peekCount megaPeekCount wrongGuessCount :
  calculateRank finalScore peekCount megaPeekCount wrongGuessCount
  = rankOfScore finalScore.
Proof.
  unfold calculateRank, rankOfScore. rewrite ranks_descending.
  destruct (_ && _) eqn:Hperfect.
  - apply andb_true_iff in Hperfect as [->%Z.eqb_eq _]. reflexivity.
  - cbn [List.find]. rewrite !Z.geb_leb.
    repeat match goal with
           | |- context [(?a <=? finalScore)%Z] => destruct (a <=? finalScore)%Z
           end; reflexivity.
Qed.

(** X16.  The rank depends on the final score only, whatever the three
    counts: "Puppet Master" from 100 on, "Kingmaker" from 91 to 99, "Power
    Broker" from 79, "Mayor" from 68, "Chief of Police" from 51, "Council
    Member" from 31, "Resident" from 21, "Commuter" from 11, and "Tourist"
    below 11, negative scores included. *)
Theorem calculateRank_bands (finalScore peekCount megaPeekCount wrongGuessCount : Z) :
  calculateRank finalScore peekCount megaPeekCount wrongGuessCount
  = if (100 <=? finalScore)%Z then "Puppet Master"
    else if (91 <=? finalScore)%Z then "Kingmaker"
    else if (79 <=? finalScore)%Z then "Power Broker"
    else if (68 <=? finalScore)%Z then "Mayor"
    else if (51 <=? finalScore)%Z then "Chief of Police"
    else if (31 <=? finalScore)%Z then "Council Member"
    else if (21 <=? finalScore)%Z then "Resident"
    else if (11 <=? finalScore)%Z then "Commuter"
    else "Tourist".
Proof. apply calculateRank_rankOfScore. Qed.

Lemma calculateScore_finalScore gameState stats :
  finalScore (calculateScore gameState stats)
  = Z.max 0 (100 - (5 * Z.of_nat (size (hintedExpressions gameState))
                    + 15 * Z.of_nat (size (revealedExpressions gameState))
                    + 2 * Z.max 0 (guesses stats - correctGuesses stats))).
Proof. unfold calculateScore. simpl. lia. Qed.

Lemma calculateScore_rank gameState stats :
  rank (calculateScore gameState stats)
  = rankOfScore (finalScore (calculateScore gameState stats)).
Proof. unfold calculateScore. cbn [rank finalScore]. apply calculateRank_rankOfScore. Qed.

(** X17.  Through [calculateScore] the rank "Puppet Master" is reached
    exactly by the perfect run: no hinted expression, no revealed expression
    and no wrong guess; and exactly then the final score is 100. *)
Theorem calculateScore_puppet_master (gameState : GameState) (stats : Stats) :
  let details := calculateScore gameState stats in
  let noHelp :=
    size (hintedExpressions gameState) = 0 /\
    size (revealedExpressions gameState) = 0 /\
    (guesses stats <= correctGuesses stats)%Z in
  (rank details = "Puppet Master" <-> noHelp) /\
  (finalScore details = 100%Z <-> noHelp).
Proof.
  intros details noHelp. subst details noHelp.
  rewrite calculateScore_rank, calculateScore_finalScore. unfold rankOfScore.
  split.
  - repeat match goal with
           | |- context [(?a <=? ?b)%Z] => destruct (Z.leb_spec a b)
           end; split; try done; lia.
  - lia.
Qed.

(** X18.  [calculateScore] keeps the final score between 0 and 100, and
    more help never raises it: with at least as many hinted and revealed
    expressions and at least as many wrong guesses, the final score is at
    most what it was. *)
Theorem calculateScore_monotone (gameState gameState' : GameState)
    (stats stats' : Stats) :
  size (hintedExpressions gameState) <= size (hintedExpressions gameState') ->
  size (revealedExpressions gameState) <= size (revealedExpressions gameState') ->
  (guesses stats - correctGuesses stats
   <= guesses stats' - correctGuesses stats')%Z ->
  (0 <= finalScore (calculateScore gameState' stats')
   <= finalScore (calculateScore gameState stats))%Z /\
  (finalScore (calculateScore gameState stats) <= 100)%Z.
Proof. intros Hh Hr Hw. rewrite !calculateScore_finalScore. lia. Qed.

Lemma calculateScore_monotone_witness :
  let gameState := stateOf "x" in
  let gameState' :=
    {| displayState := "x"; solvedExpressions := ∅;
       hintedExpressions := {[ "a" ]}; revealedExpressions := {[ "b" ]};
       activeClues := []; totalClues := 2 |} in
  finalScore (calculateScore gameState (mkStats 3 2 2 0 0 0)) = 98%Z /\
  finalScore (calculateScore gameState' (mkStats 3 1 2 1 1 0)) = 76%Z /\
  (0 <= finalScore (calculateScore gameState' (mkStats 3 1 2 1 1 0))
   <= finalScore (calculateScore gameState (mkStats 3 2 2 0 0 0)))%Z.
Proof.
  intros gameState gameState'. split; [reflexivity|]. split; [reflexivity|].
  refine (proj1 (calculateScore_monotone gameState gameState'
                   (mkStats 3 2 2 0 0 0) (mkStats 3 1 2 1 1 0) _ _ _)).
  - vm_compute. lia.
  - vm_compute. lia.
  - vm_compute. discriminate.
Defined.

Lemma ranks_ascending :
  sortBy (fun a b : string * Z => (a.2 - b.2)%Z) (rankThresholds getScoreConfig)
  = rankThresholds getScoreConfig.
Proof. reflexivity. Qed.

(** X19.  [calculateScore] names as next rank the tier with the lowest
    threshold above the final score and gives the positive distance to that
    threshold; at "Puppet Master" there is no next rank and the distance
    is 0. *)
Theorem calculateScore_next_rank (gameState : GameState) (stats : Stats) :
  let details := calculateScore gameState stats in
  (rank details = "Puppet Master" ->
   nextRankName details = None /\ pointsToNextRank details = 0%Z) /\
  (rank details <> "Puppet Master" ->
   exists next threshold,
     nextRankName details = Some next /\
     (next, threshold) ∈ rankThresholds getScoreConfig /\
     (finalScore details < threshold)%Z /\
     pointsToNextRank details = (threshold - finalScore details)%Z /\
     forall name' threshold',
       (name', threshold') ∈ rankThresholds getScoreConfig ->
       (finalScore details < threshold')%Z -> (threshold <= threshold')%Z).
Proof.
  intros details.
  assert (exists score,
            (0 <= score <= 100)%Z /\
            finalScore details = score /\ rank details = rankOfScore score /\
            nextRankName details
            = fst <$> (let k := findIndex (fun r => bool_decide (r.1 = rankOfScore score))
                                  (rankThresholds getScoreConfig) in
                       if (k <? 9 - 1)%Z
                       then at_ (rankThresholds getScoreConfig) (k + 1) else None) /\
            pointsToNextRank details
            = match (let k := findIndex (fun r => bool_decide (r.1 = rankOfScore score))
                                (rankThresholds getScoreConfig) in
                     if (k <? 9 - 1)%Z
                     then at_ (rankThresholds getScoreConfig) (k + 1) else None) with
              | Some nr => Z.max 0 (nr.2 - score)
              | None => 0%Z
              end)
    as (score & Hrange & -> & -> & -> & ->).
  { exists (finalScore details).
    split; [subst details; rewrite calculateScore_finalScore; lia|].
    split; [reflexivity|]. split; [apply calculateScore_rank|].
    subst details. unfold calculateScore.
    cbn [nextRankName pointsToNextRank finalScore].
    by rewrite calculateRank_rankOfScore, ranks_ascending. }
  unfold rankOfScore.
  repeat match goal with
         | |- context [(?a <=? score)%Z] => destruct (Z.leb_spec a score)
         end; try lia.
  all: split; [try done; intros _; split; reflexivity | try done; intros _].
  all: vm_compute findIndex;
    repeat match goal with
           | |- context [if ?b then at_ ?l ?k else None] =>
               let v := eval vm_compute in (if b then at_ l k else None) in
               change (if b then at_ l k else None) with v
           end;
    cbn [fmap option_fmap option_map fst snd].
  all: match goal with
       | |- context [Z.max 0 (?t - _)] => eexists _, t
       end; split; [reflexivity|].
  all: split; [apply list_elem_of_In; cbn; auto 12|].
  all: split; [cbn; lia|]; split; [cbn; lia|].
  all: intros name' threshold' Hin Hlt; cbn in Hin |- *;
    repeat (apply elem_of_cons in Hin as [[= -> ->]|Hin]); try lia;
    by apply elem_of_nil in Hin.
Qed.

(** With two hinted expressions the score is 90, in the band of "Power
    Broker", one point below "Kingmaker"; the perfect run has no next
    rank. *)
Lemma calculateScore_next_rank_witness :
  let hinted :=
    {| displayState := "x"; solvedExpressions := ∅;
       hintedExpressions := {[ "a"; "b" ]}; revealedExpressions := ∅;
       activeClues := []; totalClues := 2 |} in
  let stats := mkStats 2 2 2 2 0 4 in
  (rank (calculateScore hinted stats) = "Power Broker" /\
   nextRankName (calculateScore hinted stats) = Some "Kingmaker" /\
   pointsToNextRank (calculateScore hinted stats) = 1%Z) /\
  (rank (calculateScore (stateOf "x") stats) = "Puppet Master" /\
   nextRankName (calculateScore (stateOf "x") stats) = None).
Proof.
  intros hinted stats.
  destruct (calculateScore_next_rank hinted stats) as [_ Hnext].
  destruct (calculateScore_next_rank (stateOf "x") stats) as [Htop _].
  destruct Hnext as (next & threshold & Hname & _ & _ & Hpoints & _);
    [discriminate|].
  destruct (Htop eq_refl) as [Hnone _].
  split; split_and!; [reflexivity | reflexivity | reflexivity | reflexivity
                     | exact Hnone].
Defined.

(** ** Outcomes of failed actions *)

(** X20.  When no active clue has a solution matching the guess, the guess
    fails with one of two messages: "Incorrect guess ..." when the claimed
    expression is active and has a non-empty answer-key entry, and "No
    active bracketed clue found ..." otherwise, which includes an active
    expression whose entry is missing or empty. *)
Theorem makeGuess_failure_message (expression guess : string)
    (gameState : GameState) (puzzleData : PuzzleData) (result : GuessResult.t) :
  makeGuess expression guess gameState puzzleData = Return result ->
  GuessResult.success result = false ->
  (activeIn gameState expression /\
   (exists solution,
      solutions puzzleData !! expression = Some solution /\
      solution <> EmptyString) ->
   GuessResult.message result
   = "Incorrect guess " +:+ JS.dq +:+ guess +:+ JS.dq +:+ " for " +:+ JS.dq +:+
     expression +:+ JS.dq +:+ ".") /\
  (~ (activeIn gameState expression /\
      exists solution,
        solutions puzzleData !! expression = Some solution /\
        solution <> EmptyString) ->
   GuessResult.message result
   = "No active bracketed clue found for " +:+ JS.dq +:+ expression +:+
     JS.dq +:+ ".").
Proof.
  intros Hret Hs.
  destruct (makeGuess_failure _ _ _ _ _ Hret Hs) as [Hloop _].
  unfold makeGuess in Hret. rewrite Hloop in Hret.
  rewrite guessLoop_None in Hloop.
  unfold activeIn. rewrite <- findExpression_is_Some.
  destruct (findExpression _ _) as [e|] eqn:Hfind.
  - apply findExpression_Some in Hfind as (before & after & Hav & He & _).
    assert (guessMatches guess (getSolution (solutions puzzleData) expression)
            = Return false) as Hno.
    { rewrite <- He. apply Hloop. rewrite Hav. apply elem_of_app. right. left. }
    destruct (truthySolution _) as [value|] eqn:Hsol; injection Hret as <-; simpl.
    + split; [done|]. intros Hnot. exfalso. apply Hnot. split; [by eexists|].
      destruct value as [solution| |].
      * exists solution. by apply truthySolution_string.
      * apply truthySolution_Some in Hsol as [Hsol _]. by rewrite Hsol in Hno.
      * apply truthySolution_Some in Hsol as [Hsol _]. by rewrite Hsol in Hno.
    + split; [|done]. intros [_ (solution & Hown & Hne)].
      assert (truthySolution (getSolution (solutions puzzleData) expression)
              = Some (VString solution))
        by (by apply truthySolution_string).
      congruence.
  - injection Hret as <-. simpl. split; [|done]. by intros [[? [=]] _].
Qed.

Lemma makeGuess_failure_message_witness :
  let gameState := stateOf "The [capital] of [France]" in
  let puzzleData := keyOf {[ "France" := "Paris" ]} in
  (exists result,
     makeGuess "France" "Rome" gameState puzzleData = Return result /\
     GuessResult.message result
     = "Incorrect guess " +:+ JS.dq +:+ "Rome" +:+ JS.dq +:+ " for " +:+
       JS.dq +:+ "France" +:+ JS.dq +:+ ".") /\
  activeIn gameState "capital" /\
  (exists result,
     makeGuess "capital" "Rome" gameState puzzleData = Return result /\
     GuessResult.message result
     = "No active bracketed clue found for " +:+ JS.dq +:+ "capital" +:+
       JS.dq +:+ ".").
Proof.
  intros gameState puzzleData.
  assert (activeIn gameState "capital") as Hactive.
  { show_active (mkExpression "capital" 4 13). }
  split; [|split; [exact Hactive|]].
  - eexists. split; [vm_compute; reflexivity|].
    apply (makeGuess_failure_message "France" "Rome" gameState puzzleData);
      [vm_compute; reflexivity | reflexivity |].
    split; [show_active (mkExpression "France" 17 25)|].
    exists "Paris". split; [reflexivity | done].
  - eexists. split; [vm_compute; reflexivity|].
    apply (makeGuess_failure_message "capital" "Rome" gameState puzzleData);
      [vm_compute; reflexivity | reflexivity |].
    intros [_ (solution & Hsol & _)]. vm_compute in Hsol. discriminate.
Defined.

(** X21.  Hint and Reveal fail for the same reasons, with the state
    unchanged: "No active bracketed clue found ..." when the expression is
    not active, whatever the answer key says, and "No solution found ..."
    when it is active but reads as nothing: its entry is empty, or it has no
    entry and is not the name of a member of [Object.prototype].  For an
    active expression that is such a name and has no entry, neither fails:
    Hint throws and Reveal succeeds. *)
Theorem hint_reveal_failure_message (engine : Engine) (expression : string)
    (gameState : GameState) (puzzleData : PuzzleData) :
  (~ activeIn gameState expression ->
   getHint expression gameState puzzleData
   = Return
       {| HintResult.success := false; HintResult.hint := None;
          HintResult.message :=
            "No active bracketed clue found for " +:+ JS.dq +:+ expression +:+
            JS.dq +:+ ".";
          HintResult.gameState := gameState |} /\
   revealClue engine expression gameState puzzleData
   = {| RevealResult.success := false; RevealResult.solution := None;
        RevealResult.message :=
          "No active bracketed clue found for " +:+ JS.dq +:+ expression +:+
          JS.dq +:+ ".";
        RevealResult.gameState := gameState |}) /\
  (activeIn gameState expression ->
   solutions puzzleData !! expression = Some EmptyString \/
   (solutions puzzleData !! expression = None /\
    objectPrototype expression = None) ->
   getHint expression gameState puzzleData
   = Return
       {| HintResult.success := false; HintResult.hint := None;
          HintResult.message :=
            "No solution found for clue " +:+ JS.dq +:+ expression +:+ JS.dq +:+
            ".";
          HintResult.gameState := gameState |} /\
   revealClue engine expression gameState puzzleData
   = {| RevealResult.success := false; RevealResult.solution := None;
        RevealResult.message :=
          "No solution found for clue " +:+ JS.dq +:+ expression +:+ JS.dq +:+ ".";
        RevealResult.gameState := gameState |}) /\
  (activeIn gameState expression ->
   readsPrototype puzzleData expression ->
   getHint expression gameState puzzleData = Throw /\
   RevealResult.success (revealClue engine expression gameState puzzleData) = true).
Proof.
  unfold getHint, revealClue, activeIn. rewrite <- findExpression_is_Some.
  split_and!.
  - intros Hnone. destruct (findExpression _ _) as [e|]; [|done].
    exfalso. apply Hnone. by eexists.
  - intros [e ->] Hnothing%truthySolution_None. by rewrite Hnothing.
  - intros [e ->] (value & Hread & Hobject)%getSolution_object.
    assert (truthySolution (getSolution (solutions puzzleData) expression)
            = Some value) as ->.
    { apply truthySolution_Some. split; [done|].
      destruct value as [s| |]; [by destruct (Hobject s) | done..]. }
    destruct value as [s| |]; [by destruct (Hobject s) | done..].
Qed.

Lemma hint_reveal_failure_message_witness :
  let gameState := stateOf "The [capital] of [[France]]" in
  let puzzleData := keyOf {[ "France" := "Paris"; "[France]" := "Paris" ]} in
  HintResult.message <$> returned (getHint "[France]" gameState puzzleData)
  = Some ("No active bracketed clue found for " +:+ JS.dq +:+ "[France]" +:+
          JS.dq +:+ ".") /\
  RevealResult.message (revealClue V8 "capital" gameState puzzleData)
  = "No solution found for clue " +:+ JS.dq +:+ "capital" +:+ JS.dq +:+ "." /\
  getHint "valueOf" (stateOf "[valueOf]") puzzleData = Throw.
Proof.
  intros gameState puzzleData.
  destruct (hint_reveal_failure_message V8 "[France]" gameState puzzleData)
    as (Hinactive & _ & _).
  destruct (hint_reveal_failure_message V8 "capital" gameState puzzleData)
    as (_ & Hnokey & _).
  destruct (hint_reveal_failure_message V8 "valueOf" (stateOf "[valueOf]")
              puzzleData) as (_ & _ & Hbuiltin).
  destruct Hinactive as [Hhint _].
  { intros (e & He & Hx). apply list_elem_of_In in He. vm_compute in He.
    destruct He as [<-|[<-|[]]]; discriminate. }
  destruct Hnokey as [_ Hreveal].
  { show_active (mkExpression "capital" 4 13). }
  { right. split; reflexivity. }
  destruct Hbuiltin as [Hthrow _].
  { show_active (mkExpression "valueOf" 0 9). }
  { split; [reflexivity | by eexists]. }
  split_and!; [by rewrite Hhint | by rewrite Hreveal | exact Hthrow].
Defined.

(** ** Guesses are compared after normalisation *)

Lemma isSpace_lowerChar c : JS.isSpace (JS.lowerChar c) = JS.isSpace c.
Proof. by destruct c as [[] [] [] [] [] [] [] []]. Qed.

Lemma lowerChar_idemp c : JS.lowerChar (JS.lowerChar c) = JS.lowerChar c.
Proof. by destruct c as [[] [] [] [] [] [] [] []]. Qed.

Lemma toLowerCase_idemp s : JS.toLowerCase (JS.toLowerCase s) = JS.toLowerCase s.
Proof.
  unfold JS.toLowerCase. rewrite chars_str, map_map. f_equal.
  apply map_ext. intros c. apply lowerChar_idemp.
Qed.

Lemma trimStart_spaces ws l :
  forallb JS.isSpace ws = true -> JS.trimStart (ws ++ l) = JS.trimStart l.
Proof.
  induction ws as [|c ws IH]; simpl; [done|].
  intros [-> Hws]%andb_true_iff. auto.
Qed.

Lemma trimStart_app_text l k :
  forallb JS.isSpace l = false -> JS.trimStart (l ++ k) = JS.trimStart l ++ k.
Proof.
  induction l as [|c l IH]; simpl; [done|].
  destruct (JS.isSpace c); simpl; [exact IH | done].
Qed.

Lemma trimStart_all_spaces l :
  forallb JS.isSpace l = true -> JS.trimStart l = [].
Proof.
  intros H. rewrite <- (app_nil_r l). by rewrite trimStart_spaces.
Qed.

Lemma trimEnd_spaces l ws :
  forallb JS.isSpace ws = true -> JS.trimEnd (l ++ ws) = JS.trimEnd l.
Proof.
  intros Hws. unfold JS.trimEnd. rewrite rev_app_distr, trimStart_spaces; [done|].
  rewrite forallb_forall in *. intros c Hc. apply Hws. by apply in_rev.
Qed.

(** White space around a text does not survive [trim]. *)
Lemma trim_padding ws l ws' :
  forallb JS.isSpace ws = true -> forallb JS.isSpace ws' = true ->
  JS.trimEnd (JS.trimStart (ws ++ l ++ ws')) = JS.trimEnd (JS.trimStart l).
Proof.
  intros Hws Hws'. rewrite trimStart_spaces by done.
  destruct (forallb JS.isSpace l) eqn:Hl.
  - rewrite trimStart_spaces by done.
    by rewrite (trimStart_all_spaces ws'), (trimStart_all_spaces l).
  - rewrite trimStart_app_text by done. by apply trimEnd_spaces.
Qed.

Lemma normalise_padding ws guess ws' :
  forallb JS.isSpace (JS.chars ws) = true ->
  forallb JS.isSpace (JS.chars ws') = true ->
  JS.trim (JS.toLowerCase (ws +:+ guess +:+ ws')) = JS.trim (JS.toLowerCase guess).
Proof.
  intros Hws Hws'. unfold JS.trim, JS.toLowerCase.
  rewrite !chars_str, !chars_app, !map_app. f_equal.
  apply trim_padding.
  - rewrite forallb_forall in *. intros c (x & <- & Hx)%in_map_iff.
    rewrite isSpace_lowerChar. by apply Hws.
  - rewrite forallb_forall in *. intros c (x & <- & Hx)%in_map_iff.
    rewrite isSpace_lowerChar. by apply Hws'.
Qed.

Lemma guessLoop_normalised available guess guess' gameState puzzleData :
  JS.trim (JS.toLowerCase guess') = JS.trim (JS.toLowerCase guess) ->
  guessLoop available guess' gameState puzzleData
  = guessLoop available guess gameState puzzleData.
Proof.
  intros Hnorm. induction available as [|e available IH]; [done|].
  cbn [guessLoop].
  assert (forall solution,
            guessMatches guess' solution = guessMatches guess solution) as ->.
  { intros [[solution| |]|]; try done. unfold guessMatches. by rewrite Hnorm. }
  by rewrite IH.
Qed.

(** X22.  A guess is judged by its lowercased, trimmed text only: two
    guesses with the same normal form end alike, both throwing or both
    returning with the same success flag and the same new state.  So white
    space (TAB, LF, VT, FF, CR, SP, NBSP) around a guess and lowercasing it
    make no difference. *)
Theorem makeGuess_normalised (expression guess ws ws' : string)
    (gameState : GameState) (puzzleData : PuzzleData) :
  forallb JS.isSpace (JS.chars ws) = true ->
  forallb JS.isSpace (JS.chars ws') = true ->
  (forall guess',
     JS.trim (JS.toLowerCase guess') = JS.trim (JS.toLowerCase guess) ->
     sameOutcome (makeGuess expression guess' gameState puzzleData)
       (makeGuess expression guess gameState puzzleData)) /\
  sameOutcome (makeGuess expression (ws +:+ guess +:+ ws') gameState puzzleData)
    (makeGuess expression guess gameState puzzleData) /\
  sameOutcome (makeGuess expression (JS.toLowerCase guess) gameState puzzleData)
    (makeGuess expression guess gameState puzzleData).
Proof.
  intros Hws Hws'.
  assert (forall guess',
            JS.trim (JS.toLowerCase guess') = JS.trim (JS.toLowerCase guess) ->
            sameOutcome (makeGuess expression guess' gameState puzzleData)
              (makeGuess expression guess gameState puzzleData)) as Hsame.
  { intros guess' Hnorm. unfold sameOutcome, makeGuess.
    rewrite (guessLoop_normalised _ _ _ _ _ Hnorm).
    destruct (guessLoop _ _ _ _) as [[result|]|]; [done | | done].
    destruct (findExpression _ _); [|done].
    by destruct (truthySolution _). }
  split_and!; [exact Hsame | |].
  - apply Hsame. by apply normalise_padding.
  - apply Hsame. by rewrite toLowerCase_idemp.
Qed.

Lemma makeGuess_normalised_witness :
  let gameState := stateOf "The capital of [France]" in
  let puzzleData := keyOf {[ "France" := "Paris" ]} in
  let tab := String (ascii_of_nat 9) EmptyString in
  GuessResult.success <$> returned (makeGuess "France" "PariS" gameState puzzleData)
  = Some true /\
  sameOutcome
    (makeGuess "France" (tab +:+ "PariS" +:+ "  ") gameState puzzleData)
    (makeGuess "France" "PariS" gameState puzzleData).
Proof.
  intros gameState puzzleData tab. split; [reflexivity|].
  apply (makeGuess_normalised "France" "PariS" tab "  " gameState puzzleData);
    reflexivity.
Defined.

Lemma filter_none {A} (p : A -> bool) (l : list A) :
  (forall x, x ∈ l -> p x = false) -> List.filter p l = [].
Proof.
  induction l as [|x l IH]; simpl; [done|]. intros Hall.
  rewrite (Hall x) by (by left). apply IH. intros y Hy. apply Hall. by right.
Qed.

(** ** Aggregation of run results *)

Section AggregateProperties.

Context {number : Type}.

Implicit Types (m : list (string * @ModelRuns number)).
Implicit Types (files : list (@AgentResult number)).

Lemma mapHas_keys m key : mapHas m key = true <-> key ∈ m.*1.
Proof.
  induction m as [|[k v] m IH]; simpl.
  { split; [done|]. by intros ?%elem_of_nil. }
  case_bool_decide as Hk.
  - split; [|done]. intros _. subst. by left.
  - rewrite IH. split; [by right|]. by intros [?|?]%elem_of_cons.
Qed.

Lemma mapChange_keys m key change : (mapChange m key change).*1 = m.*1.
Proof.
  induction m as [|[k v] m IH]; simpl; [done|].
  case_bool_decide; simpl; by f_equal.
Qed.

(** With one entry per key, changing the entry of [key] changes that entry
    and no other. *)
Lemma mapChange_lookup m key change name runs :
  NoDup m.*1 ->
  (name, runs) ∈ mapChange m key change ->
  exists old, (name, old) ∈ m /\
              runs = if bool_decide (name = key) then change old else old.
Proof.
  induction m as [|[k v] m IH]; simpl; [by intros _ ?%elem_of_nil|].
  intros [Hk Hnodup]%NoDup_cons.
  destruct (decide (k = key)) as [->|Hkey];
    [rewrite (bool_decide_eq_true_2 (key = key)) by done
    |rewrite (bool_decide_eq_false_2 (k = key)) by done].
  - intros [[= -> ->]|Hin]%elem_of_cons.
    + exists v. split; [by left|]. by rewrite bool_decide_eq_true_2.
    + exists runs. split; [by right|].
      rewrite bool_decide_eq_false_2; [done|]. intros ->.
      apply Hk, list_elem_of_fmap. by exists (key, runs).
  - intros [[= -> ->]|Hin]%elem_of_cons.
    + exists v. split; [by left|]. by rewrite bool_decide_eq_false_2.
    + destruct (IH Hnodup Hin) as (old & Hold & ->). exists old.
      split; [by right | done].
Qed.

Lemma sumPuzzles_app m m' : sumPuzzles (m ++ m') = sumPuzzles m + sumPuzzles m'.
Proof.
  unfold sumPuzzles. induction m as [|e m IH]; simpl; [done|]. rewrite IH. lia.
Qed.

Lemma sumPuzzles_change m key data :
  mapHas m key = true ->
  sumPuzzles (mapChange m key (pushResult data)) = S (sumPuzzles m).
Proof.
  induction m as [|[k v] m IH]; simpl; [done|].
  case_bool_decide; simpl.
  - intros _. unfold sumPuzzles, totalPuzzles. simpl. rewrite length_app. simpl. lia.
  - intros Hhas. unfold sumPuzzles in *. simpl. rewrite IH by done. lia.
Qed.

Lemma runsOf_snoc name files data :
  runsOf name (files ++ [data])
  = if bool_decide (name = ar_modelName data)
    then pushResult data (runsOf name files) else runsOf name files.
Proof.
  unfold runsOf, pushResult. rewrite List.filter_app. simpl.
  case_bool_decide as Hd.
  - subst name. rewrite bool_decide_eq_true_2 by done.
    simpl. by rewrite !map_app.
  - rewrite bool_decide_eq_false_2 by done. by rewrite app_nil_r.
Qed.

Lemma collectModelStats_snoc files data :
  collectModelStats (files ++ [data]) = addResult (collectModelStats files) data.
Proof. unfold collectModelStats. by rewrite foldl_snoc. Qed.

(** What the map holds after the loop. *)
Lemma collectModelStats_invariant files :
  NoDup (collectModelStats files).*1 /\
  (forall name,
     name ∈ (collectModelStats files).*1 <-> name ∈ map ar_modelName files) /\
  (forall name runs,
     (name, runs) ∈ collectModelStats files -> runs = runsOf name files) /\
  sumPuzzles (collectModelStats files) = length files.
Proof.
  induction files as [|data files IH] using rev_ind.
  { simpl. split_and!; [constructor | done | by intros ? ? ?%elem_of_nil | done]. }
  destruct IH as (Hnodup & Hkeys & Hruns & Hsum).
  rewrite collectModelStats_snoc. unfold addResult.
  set (m := collectModelStats files) in *.
  set (key := ar_modelName data).
  set (m1 := if negb (mapHas m key) then mapSetNew m key (mkModelRuns [] [] [])
             else m).
  assert (NoDup m1.*1 /\ mapHas m1 key = true /\
          (forall name, name ∈ m1.*1 <-> name ∈ m.*1 \/ name = key) /\
          (forall name runs, (name, runs) ∈ m1 -> runs = runsOf name files) /\
          sumPuzzles m1 = length files) as (Hnodup1 & Hhas1 & Hkeys1 & Hruns1 & Hsum1).
  { subst m1. destruct (mapHas m key) eqn:Hhas; simpl.
    - split_and!; try done. intros name. split; [by left|].
      intros [?| ->]; [done|]. by apply mapHas_keys.
    - assert (key ∉ m.*1) as Hfresh.
      { intros Hin%mapHas_keys. congruence. }
      unfold mapSetNew. rewrite fmap_app. simpl. split_and!.
      + apply NoDup_app. split_and!; [done | | apply NoDup_singleton].
        intros x Hx ->%list_elem_of_singleton. done.
      + apply mapHas_keys. rewrite fmap_app. simpl.
        apply elem_of_app. right. by left.
      + intros name. rewrite elem_of_app, list_elem_of_singleton. done.
      + intros name runs [Hin|[= -> ->]%list_elem_of_singleton]%elem_of_app;
          [by apply Hruns|].
        unfold runsOf. rewrite filter_none; [done|].
        intros d Hd. apply bool_decide_eq_false_2. intros Heq.
        apply Hfresh, Hkeys, list_elem_of_fmap. by exists d.
      + rewrite sumPuzzles_app, Hsum. unfold sumPuzzles, totalPuzzles. simpl. lia. }
  rewrite mapChange_keys. split_and!.
  - done.
  - intros name. rewrite Hkeys1, Hkeys, map_app, elem_of_app. simpl.
    by rewrite list_elem_of_singleton.
  - intros name runs Hin.
    destruct (mapChange_lookup _ _ _ _ _ Hnodup1 Hin) as (old & Hold & ->).
    rewrite runsOf_snoc, (Hruns1 _ _ Hold). done.
  - rewrite sumPuzzles_change by done. rewrite Hsum1, length_app. simpl. lia.
Qed.

(** X23.  After the grouping loop each model has the runs of its own files,
    in the order of the files: its scores, completion percentages and success
    flags are those of the files that name it, and nothing else. *)
Theorem collectModelStats_runs files (name : string) (runs : @ModelRuns number) :
  (name, runs) ∈ collectModelStats files ->
  let own := List.filter (fun d => bool_decide (ar_modelName d = name)) files in
  scores runs = map ar_score own /\
  completions runs = map ar_completionPercentage own /\
  successes runs = map ar_success own /\
  totalPuzzles runs = length own /\
  successCount runs = length (List.filter ar_success own).
Proof.
  intros Hin own.
  destruct (collectModelStats_invariant files) as (_ & _ & Hruns & _).
  rewrite (Hruns _ _ Hin). unfold totalPuzzles, successCount, runsOf. simpl.
  fold own. split_and!; try done.
  - by rewrite length_map.
  - clear. induction own as [|d own IH]; simpl; [done|].
    destruct (ar_success d); simpl; by rewrite IH.
Qed.

(** X24.  The grouping loop makes exactly one entry per model named in the
    files; every entry has at least one run, so that the averages taken
    afterwards never divide by zero, and the runs of all entries add up to
    the number of files. *)
Theorem collectModelStats_entries files :
  NoDup (collectModelStats files).*1 /\
  (forall name,
     name ∈ (collectModelStats files).*1 <-> name ∈ map ar_modelName files) /\
  (forall name (runs : @ModelRuns number),
     (name, runs) ∈ collectModelStats files -> 0 < totalPuzzles runs) /\
  sumPuzzles (collectModelStats files) = length files.
Proof.
  destruct (collectModelStats_invariant files) as (Hnodup & Hkeys & Hruns & Hsum).
  split_and!; try done.
  intros name runs Hin. rewrite (Hruns _ _ Hin).
  assert (name ∈ map ar_modelName files) as (d & -> & Hd)%list_elem_of_fmap.
  { apply Hkeys, list_elem_of_fmap. by exists (name, runs). }
  unfold totalPuzzles, runsOf. simpl. rewrite length_map.
  apply list_elem_of_In, in_split in Hd as (l1 & l2 & ->).
  rewrite List.filter_app. simpl. rewrite bool_decide_eq_true_2 by done.
  rewrite length_app. simpl. lia.
Qed.

End AggregateProperties.

(** Three result files of two models. *)
Lemma collectModelStats_runs_witness :
  let files :=
    [ mkAgentResult "gpt-4o" true 90%Z 100%Z;
      mkAgentResult "o3-high" false 0%Z 50%Z;
      mkAgentResult "gpt-4o" false 0%Z 75%Z ] in
  let runs := mkModelRuns [90; 0]%Z [100; 75]%Z [true; false] in
  ("gpt-4o", runs) ∈ collectModelStats files /\
  totalPuzzles runs = 2 /\ successCount runs = 1.
Proof.
  intros files runs.
  assert (("gpt-4o", runs) ∈ collectModelStats files) as Hin.
  { apply list_elem_of_In. vm_compute. auto. }
  destruct (collectModelStats_runs files "gpt-4o" runs Hin)
    as (_ & _ & _ & Htotal & Hsuccess).
  split_and!; [exact Hin | exact Htotal | exact Hsuccess].
Defined.

(** ** The two scanners and the end of a run *)

(** The windows of the two scanners on a balanced document. *)
Lemma scanners_windows_balanced gameState :
  balanced (displayState gameState) = true ->
  map expressionWindow (findAvailableExpressions gameState)
  = map clueWindow
      (List.filter namedClue (findActiveClues (displayState gameState))).
Proof.
  intros Hbal%balanced_Balanced.
  destruct (scanners_agree _ Hbal 0) as (es & Hclues & Hexprs).
  set (l := JS.chars (displayState gameState)) in *.
  destruct (Hclues (S (length l)) l 0 0 []) as (found & Hfound & Hwin);
    [lia | done |].
  destruct (Hexprs (S (length l)) 1 [] ∅ [] 0 (length l)) as (mp' & _ & Hloop);
    [rewrite app_nil_r; lia | simpl; lia | by intros ? ?%elem_of_empty
    | done | done |].
  rewrite app_nil_r in Hloop.
  pose proof (findActiveClues_opt_Some (displayState gameState)) as Hc.
  pose proof (scanExpressions_opt_Some gameState) as He.
  unfold findActiveClues_opt, scanExpressions_opt in Hc, He. fold l in Hc, He.
  rewrite Hfound in Hc. rewrite Hloop in He. simpl in Hc, He.
  injection Hc as <-. injection He as <-. done.
Qed.

(** X25.  In a balanced document [findActiveClues] misses no innermost
    clue: every bracket pair around a non-empty text without bracket is
    returned as a clue with that expression and window. *)
Theorem findActiveClues_balanced_complete (puzzleText : string)
    (before group after : list ascii) :
  balanced puzzleText = true ->
  JS.chars puzzleText = before ++ "["%char :: group ++ "]"%char :: after ->
  group <> [] ->
  bracketFree group = true ->
  exists c,
    c ∈ findActiveClues puzzleText /\
    expression c = JS.str group /\
    start c = length before /\
    end_ c = length before + length group + 2.
Proof.
  intros Hbal Hdoc Hne Hfree.
  pose proof (scanners_windows_balanced (stateOf puzzleText) Hbal) as Hwin.
  assert (expressionWindow
            {| expr_expression := JS.str group;
               startIndex := length before;
               endIndex := length before + length group + 2 |}
          ∈ map expressionWindow (findAvailableExpressions (stateOf puzzleText)))
    as Hin.
  { apply list_elem_of_fmap_2.
    pose proof (scanExpressions_opt_Some (stateOf puzzleText)) as Hrun.
    unfold scanExpressions_opt in Hrun. simpl displayState in Hrun.
    rewrite Hdoc in Hrun.
    apply (execLoop_complete group after Hne Hfree) in Hrun;
      [| lia | by intros ? ?%elem_of_empty].
    simpl in Hrun. by rewrite Nat.add_assoc in Hrun. }
  rewrite Hwin in Hin. apply list_elem_of_fmap in Hin as (c & [= Hx Hs He] & Hc).
  apply list_elem_of_In, filter_In in Hc as [Hc _].
  exists c. split_and!; [by apply list_elem_of_In | done..].
Qed.

Lemma findActiveClues_balanced_complete_witness :
  exists c,
    c ∈ findActiveClues "The [big [city]] of [France]" /\
    expression c = "city" /\ start c = 9 /\ end_ c = 15.
Proof.
  apply (findActiveClues_balanced_complete "The [big [city]] of [France]"
           (JS.chars "The [big ") (JS.chars "city") (JS.chars "] of [France]"));
    done.
Defined.

(** X26.  On a balanced document the completion test of the run
    ([findAvailableExpressions] returns nothing) and the count of remaining
    clues shown by the tools ([findActiveClues]) differ by the empty bracket
    pairs only: no expression is available exactly when every remaining clue
    has the empty expression. *)
Theorem completion_tests_agree (gameState : GameState) :
  balanced (displayState gameState) = true ->
  (findAvailableExpressions gameState = [] <->
   Forall (fun c => expression c = EmptyString)
     (findActiveClues (displayState gameState))).
Proof.
  intros Hbal. pose proof (scanners_windows_balanced gameState Hbal) as Hwin.
  split.
  - intros Hnone. rewrite Hnone in Hwin. simpl in Hwin.
    symmetry in Hwin. apply map_eq_nil in Hwin.
    apply Forall_forall. intros c Hc.
    destruct (namedClue c) eqn:Hnamed.
    + exfalso. assert (In c []) as []. rewrite <- Hwin.
      apply filter_In. split; [by apply list_elem_of_In | done].
    + unfold namedClue in Hnamed. by destruct (expression c).
  - intros Hall.
    assert (List.filter namedClue (findActiveClues (displayState gameState)) = [])
      as Hnil.
    { apply filter_none. intros c Hc. rewrite Forall_forall in Hall.
      unfold namedClue. by rewrite (Hall c Hc). }
    rewrite Hnil in Hwin. by apply map_eq_nil in Hwin.
Qed.

Lemma completion_tests_agree_witness :
  balanced "The [] capital" = true /\
  length (findActiveClues "The [] capital") = 1 /\
  findAvailableExpressions (stateOf "The [] capital") = [].
Proof.
  split_and!; [reflexivity | reflexivity |].
  apply (completion_tests_agree (stateOf "The [] capital")); [reflexivity|].
  repeat constructor.
Defined.

Lemma bracketFree_depthScan l d : bracketFree l = true -> depthScan d l = (d =? 0).
Proof.
  revert d. induction l as [|c l IH]; intros d; simpl; [done|].
  intros [Hc Hl]%andb_true_iff.
  apply negb_true_iff, isBracket_false in Hc as [-> ->]. auto.
Qed.

Lemma plainSolutions_balanced puzzleData :
  plainSolutions puzzleData -> balancedSolutions puzzleData.
Proof.
  intros Hplain key solution Hsol. unfold balanced.
  by rewrite (bracketFree_depthScan _ _ (Hplain key solution Hsol)).
Qed.

Lemma countOpen_zero s : countOpen s = 0 <-> existsb isOpen (JS.chars s) = false.
Proof.
  unfold countOpen. induction (JS.chars s) as [|c l IH]; simpl; [done|].
  destruct (isOpen c); simpl; [done | exact IH].
Qed.

(** X27.  In a run on a puzzle with a balanced initial document and
    solutions without brackets, whose reveals read entries of the answer key
    only, the tools count no clue as remaining exactly when the correct
    guesses and the reveals together number the opening brackets of the
    initial puzzle; the run is then reported as a success. *)
Theorem run_finished (engine : Engine) (puzzleData : PuzzleData)
    (calls : list ToolCall) (steps : Z) (r : Run) :
  balanced (initialPuzzle puzzleData) = true ->
  plainSolutions puzzleData ->
  keyedReveals puzzleData calls ->
  runTools engine puzzleData calls = Return r ->
  (findActiveClues (displayState (run_gameState r)) = [] <->
   (correctGuesses (run_stats r) + reveals (run_stats r)
    = Z.of_nat (countOpen (initialPuzzle puzzleData)))%Z) /\
  (findActiveClues (displayState (run_gameState r)) = [] ->
   exists result,
     solvePuzzleWithLLM engine puzzleData calls steps = Return result /\
     res_success result = true).
Proof.
  intros Hinit Hplain Hkeyed Hr.
  assert (balanced (displayState (run_gameState r)) = true) as Hbal.
  { revert r Hr.
    apply (runTools_invariant engine puzzleData
             (fun r => balanced (displayState (run_gameState r)) = true));
      [exact Hinit|].
    intros r0 call r' _ Hr0. apply executeTool_balanced; [|done].
    by apply plainSolutions_balanced. }
  pose proof (runTools_open_brackets _ _ _ _ Hplain Hkeyed Hr) as Hcount.
  destruct (findActiveClues_Balanced _ Hbal) as [_ Hnone].
  split.
  - rewrite Hnone, <- countOpen_zero. lia.
  - intros Hnil. unfold solvePuzzleWithLLM. rewrite Hr. eexists.
    split; [reflexivity|]. cbn [res_success].
    pose proof (scanners_windows_balanced (run_gameState r) Hbal) as Hwin.
    rewrite Hnil in Hwin. simpl in Hwin. apply map_eq_nil in Hwin.
    by rewrite Hwin.
Qed.

Lemma run_finished_witness :
  let puzzleData :=
    {| completionText := EmptyString; puzzleDate := "2025-05-27";
       completionURL := EmptyString;
       solutions := {[ "city" := "town"; "big town" := "capital";
                       "France" := "Paris" ]};
       initialPuzzle := "The [big [city]] of [France]";
       puzzleSolution := "The capital of Paris" |} in
  let calls :=
    [ CallRevealClue "city"; CallMakeGuess "France" "Rome";
      CallMakeGuess "France" "paris"; CallMakeGuess "big town" "Capital" ] in
  exists r,
    runTools V8 puzzleData calls = Return r /\
    displayState (run_gameState r) = "The capital of Paris" /\
    (correctGuesses (run_stats r) + reveals (run_stats r) = 3)%Z /\
    findActiveClues (displayState (run_gameState r)) = [] /\
    res_success <$> returned (solvePuzzleWithLLM V8 puzzleData calls 4) = Some true.
Proof.
  intros puzzleData calls. eexists. split; [vm_compute; reflexivity|].
  assert (plainSolutions puzzleData) as Hplain.
  { repeat (apply map_Forall_insert_2; [reflexivity|]). apply map_Forall_empty. }
  assert (keyedReveals puzzleData calls) as Hkeyed.
  { intros clue Hin [_ Hp]. apply list_elem_of_In in Hin. simpl in Hin.
    destruct Hin as [[= <-]|[[=]|[[=]|[[=]|[]]]]].
    vm_compute in Hp. by destruct Hp. }
  match goal with
  | |- context [run_stats ?r] =>
      destruct (run_finished V8 puzzleData calls 4 r eq_refl Hplain Hkeyed
                  ltac:(vm_compute; reflexivity))
        as [Hiff Hsuccess]
  end.
  match type of Hiff with
  | ?nil <-> _ => assert nil as Hnil by (apply Hiff; reflexivity)
  end.
  destruct (Hsuccess Hnil) as (result & Hret & Hs).
  split_and!; [reflexivity | reflexivity | exact Hnil |].
  by rewrite Hret; simpl; rewrite Hs.
Defined.

(** One wrong guess costs the top rank; the perfect run keeps it. *)
Lemma calculateScore_puppet_master_witness :
  rank (calculateScore (stateOf "x") (mkStats 3 3 3 0 0 3)) = "Puppet Master" /\
  rank (calculateScore (stateOf "x") (mkStats 4 3 3 0 0 4)) <> "Puppet Master".
Proof.
  destruct (calculateScore_puppet_master (stateOf "x") (mkStats 3 3 3 0 0 3))
    as [[_ Hperfect] _].
  destruct (calculateScore_puppet_master (stateOf "x") (mkStats 4 3 3 0 0 4))
    as [[Hwrong _] _].
  split.
  - apply Hperfect. split_and!; [reflexivity | reflexivity | discriminate].
  - intros Hrank. destruct (Hwrong Hrank) as (_ & _ & Hle). by apply Hle.
Defined.

(** Three result files of two models give two entries, none empty. *)
Lemma collectModelStats_entries_witness :
  let files :=
    [ mkAgentResult "gpt-4o" true 90%Z 100%Z;
      mkAgentResult "o3-high" false 0%Z 50%Z;
      mkAgentResult "gpt-4o" false 0%Z 75%Z ] in
  (collectModelStats files).*1 = ["gpt-4o"; "o3-high"] /\
  0 < totalPuzzles (mkModelRuns [0%Z] [50%Z] [false]) /\
  sumPuzzles (collectModelStats files) = 3.
Proof.
  intros files.
  destruct (collectModelStats_entries files) as (_ & _ & Hpositive & Hsum).
  split_and!; [reflexivity | | exact Hsum].
  apply (Hpositive "o3-high"). apply list_elem_of_In. vm_compute. auto.
Defined.
